(** * Resilience patterns of the microservices boilerplate

    A shallow embedding of the two resilience libraries of the repository:

    - [Observability]: packages/observability/src/resilience.ts, the
      configuration driven [CircuitBreaker], [RetryPolicy],
      [TimeoutManager], [Bulkhead] and the [ResilienceManager] that nests
      them around an operation;
    - [Patterns]: the stand-alone pattern library (CircuitBreaker with a
      half-open success quota, RetryPolicy with jitter, Bulkhead, CacheAside,
      RateLimiter).

    Promises are modelled by their settlement ([Outcome]); an asynchronous
    function is a state transformer on the [World] it runs in.  JavaScript
    numbers are [Z] where the code only counts or reads the millisecond
    clock, and rationals [Q] where it multiplies by fractions: exact ones for
    the delays of the retry policies, and rounded as IEEE 754 binary64
    rounds ([binary64]) for the error rate of a health report. *)

From Stdlib Require Import ZArith QArith Qminmax Qround Qpower Qabs Lqa.
From Stdlib Require Import String DecimalString List Sorted Bool Lia.
From Stdlib Require Floats.
From stdpp Require Import gmap strings list fin_maps.

Local Open Scope Z_scope.

(** ** Promises, errors and the world an operation runs in *)

(** A JavaScript [Error]: its [name] and its [message]. *)
Record JsError := mkError { name : string; message : string }.

(** [new Error(msg)] *)
Definition Error (msg : string) : JsError :=
  {| name := "Error"; message := msg |}.

(** How a promise settles. *)
Inductive Outcome (T E : Type) : Type :=
| Resolved (v : T)
| Rejected (e : E).
Arguments Resolved {T E} v.
Arguments Rejected {T E} e.

(** What the code under study can observe of, and do to, its environment:
    [clock] is the value [Date.now()] returns, [invocations] counts the calls
    of caller supplied functions made through [scripted], [draws] counts the
    [Math.random()] values consumed and [timers] logs the delays handed to
    [setTimeout] by a [sleep], oldest first. *)
Record World := mkWorld {
  clock : Z;
  invocations : nat;
  draws : nat;
  timers : list Q
}.

(** [() => Promise<T>]: running it settles the promise and moves the world. *)
Definition Op (T : Type) : Type := World -> Outcome T JsError * World.

(** An operation given by what its successive invocations do: the [n]-th
    invocation (from 0) settles as [fst (behaviour n)] after
    [snd (behaviour n)] milliseconds. *)
Definition scripted {T} (behaviour : nat -> Outcome T JsError * Z) : Op T :=
  fun w =>
    let '(r, d) := behaviour (invocations w) in
    (r, {| clock := clock w + d;
           invocations := S (invocations w);
           draws := draws w;
           timers := timers w |}).

(** What the caller of a retry policy receives when the last invocation of
    the operation settled as [r]: its value, or its error as thrown. *)
Definition as_thrown {T} (r : Outcome T JsError) : Outcome T (option JsError) :=
  match r with
  | Resolved v => Resolved v
  | Rejected e => Rejected (Some e)
  end.

(** [setTimeout] replaces a delay that is not between 1 and 2^31-1 by 1,
    and then truncates it to an integer. *)
Definition timer_delay (ms : Q) : Z :=
  if Qle_bool 1 ms && Qle_bool ms 2147483647 then Qfloor ms else 1.

(** [await this.sleep(ms)]: a timer of [ms] milliseconds is set and the
    caller resumes when it fires. *)
Definition sleep (ms : Q) (w : World) : World :=
  {| clock := clock w + timer_delay ms;
     invocations := invocations w;
     draws := draws w;
     timers := timers w ++ [ms] |}.

(** [Math.random()]: the next value of the entropy source. *)
Definition random (entropy : nat -> Q) (w : World) : Q * World :=
  (entropy (draws w),
   {| clock := clock w;
      invocations := invocations w;
      draws := S (draws w);
      timers := timers w |}).

(** Arithmetic on JavaScript numbers is that of IEEE 754 binary64: the
    exact result, rounded to the nearest number with a significand of 53
    bits, ties going to the even significand.  [binade x] is the exponent
    of the power of two at or just below [|x|]; the numbers around [x] are
    the multiples of [2 ^ (binade x - 52)].  The range of the exponent is
    left out: nothing computed here comes near an overflow or a subnormal
    number. *)
Definition round_half_even (x : Q) : Z :=
  let lower := Qfloor x in
  match Qcompare (x - inject_Z lower) (1 # 2) with
  | Lt => lower
  | Gt => lower + 1
  | Eq => if Z.even lower then lower else lower + 1
  end.

Definition binade (x : Q) : Z :=
  let guess := Z.log2 (Z.abs (Qnum x)) - Z.log2 (Zpos (Qden x)) in
  if Qle_bool (2 ^ guess) (Qabs x) then guess else guess - 1.

Definition binary64 (x : Q) : Q :=
  if Qeq_bool x 0 then 0%Q
  else
    let ulp := (2 ^ (binade x - 52))%Q in
    (inject_Z (round_half_even (x / ulp)) * ulp)%Q.

(** The value of a finite primitive float, for comparing [binary64] with
    the floating-point unit. *)
Definition Q_of_float (x : PrimFloat.float) : option Q :=
  match FloatOps.Prim2SF x with
  | SpecFloat.S754_zero _ => Some 0%Q
  | SpecFloat.S754_finite negative significand exponent =>
      Some ((if negative then -1 else 1)
            * inject_Z (Zpos significand) * 2 ^ exponent)%Q
  | _ => None
  end.

(** [x || d] on a number that may be missing: [undefined] and [0] are falsy. *)
Definition or_default (x : option Z) (d : Z) : Z :=
  match x with
  | Some v => if v =? 0 then d else v
  | None => d
  end.

(** The three components of what a stateful [execute] returns: how the
    promise settled, the fields of the object afterwards, the world
    afterwards. *)
Definition settled {R S W} (x : R * S * W) : R := fst (fst x).
Definition fields_after {R S W} (x : R * S * W) : S := snd (fst x).
Definition world_after {R S W} (x : R * S * W) : W := snd x.

(** ** shared-contracts: the declarative configuration and health types *)

Module Contracts.

Record CircuitBreakerConfig := {
  failureThreshold : Z;
  resetTimeout : Z;
  monitoringPeriod : Z
}.

Record RetryConfig := {
  maxAttempts : Z;
  initialDelay : Q;
  maxDelay : Q;
  backoffMultiplier : Q;
  retryableErrors : list string
}.

Record TimeoutConfig := { connection : Z; response : Z }.

Record BulkheadConfig := { maxConcurrent : Z; maxQueue : Z }.

Record ResilienceConfig := {
  circuitBreaker : option CircuitBreakerConfig;
  retry : option RetryConfig;
  timeout : option TimeoutConfig;
  bulkhead : option BulkheadConfig
}.

Inductive CircuitBreakerState := CLOSED | OPEN | HALF_OPEN.

Record CircuitBreakerMetrics := {
  state : CircuitBreakerState;
  failureCount : Z;
  successCount : Z;
  lastFailureTime : option Z;
  lastSuccessTime : option Z;
  nextRetryTime : option Z
}.

Inductive Status := healthy | degraded | unhealthy.

Record ServiceHealth := {
  service : string;
  status : Status;
  lastCheck : Z;
  responseTime : Z;
  errorRate : Q;
  circuitBreakerMetrics : option CircuitBreakerMetrics
}.

End Contracts.

(** ** packages/observability/src/resilience.ts *)

Module Observability.
Import Contracts.

Module CircuitBreaker.

(** The private fields of a breaker are exactly the metrics record. *)
Definition t := CircuitBreakerMetrics.

(** Field initialisers of the class. *)
Definition init : t :=
  {| state := CLOSED; failureCount := 0; successCount := 0;
     lastFailureTime := None; lastSuccessTime := None;
     nextRetryTime := None |}.

Definition onSuccess (now : Z) (cb : t) : t :=
  let successCount' := successCount cb + 1 in
  match state cb with
  | HALF_OPEN =>
      {| state := CLOSED; failureCount := 0;
         successCount := successCount';
         lastFailureTime := lastFailureTime cb;
         lastSuccessTime := Some now;
         nextRetryTime := nextRetryTime cb |}
  | _ =>
      {| state := state cb; failureCount := failureCount cb;
         successCount := successCount';
         lastFailureTime := lastFailureTime cb;
         lastSuccessTime := Some now;
         nextRetryTime := nextRetryTime cb |}
  end.

Definition onFailure (config : CircuitBreakerConfig) (now : Z) (cb : t) : t :=
  let failureCount' := failureCount cb + 1 in
  if failureThreshold config <=? failureCount' then
    {| state := OPEN; failureCount := failureCount';
       successCount := successCount cb;
       lastFailureTime := Some now;
       lastSuccessTime := lastSuccessTime cb;
       nextRetryTime := Some (now + resetTimeout config) |}
  else
    {| state := state cb; failureCount := failureCount';
       successCount := successCount cb;
       lastFailureTime := Some now;
       lastSuccessTime := lastSuccessTime cb;
       nextRetryTime := nextRetryTime cb |}.

(** The gate at the head of [execute]: [inl] is the breaker the call
    proceeds with, [inr] the error thrown before the operation is
    touched. *)
Definition gate (now : Z) (cb : t) : t + JsError :=
  match state cb with
  | OPEN =>
      if or_default (nextRetryTime cb) 0 <=? now then
        inl {| state := HALF_OPEN; failureCount := failureCount cb;
               successCount := successCount cb;
               lastFailureTime := lastFailureTime cb;
               lastSuccessTime := lastSuccessTime cb;
               nextRetryTime := nextRetryTime cb |}
      else inr (Error "Circuit breaker is OPEN")
  | _ => inl cb
  end.

Definition execute {T} (config : CircuitBreakerConfig) (operation : Op T)
    (cb : t) (w : World) : Outcome T JsError * t * World :=
  match gate (clock w) cb with
  | inr e => (Rejected e, cb, w)
  | inl cb1 =>
      let '(r, w') := operation w in
      match r with
      | Resolved v => (Resolved v, onSuccess (clock w') cb1, w')
      | Rejected e => (Rejected e, onFailure config (clock w') cb1, w')
      end
  end.

(** [n] calls of [execute] one after the other; [between] is whatever
    happens to the world before each of them. *)
Fixpoint execute_times {T} (config : CircuitBreakerConfig) (operation : Op T)
    (between : World -> World) (n : nat) (cb : t) (w : World) : t * World :=
  match n with
  | O => (cb, w)
  | S n' =>
      let '(_, cb1, w1) := execute config operation cb (between w) in
      execute_times config operation between n' cb1 w1
  end.

(** The breakers a fresh one can become through calls of [execute], with
    any operation, in any world. *)
Inductive reachable {T} (config : CircuitBreakerConfig) : t -> Prop :=
| reachable_init : reachable config init
| reachable_execute (operation : Op T) (cb : t) (w : World) :
    reachable config cb →
    reachable config (fields_after (execute config operation cb w)).

Definition getMetrics (cb : t) : CircuitBreakerMetrics := cb.

Definition reset (cb : t) : t := init.

(** [onFailure] reads [Date.now()] twice: [failedAt] is the reading it
    stores in [lastFailureTime], [retryFrom] the later one it adds
    [resetTimeout] to.  [onFailure config now] above is the case of a clock
    that does not tick between the two. *)
Definition onFailure_at (config : CircuitBreakerConfig)
    (failedAt retryFrom : Z) (cb : t) : t :=
  let failureCount' := failureCount cb + 1 in
  if failureThreshold config <=? failureCount' then
    {| state := OPEN; failureCount := failureCount';
       successCount := successCount cb;
       lastFailureTime := Some failedAt;
       lastSuccessTime := lastSuccessTime cb;
       nextRetryTime := Some (retryFrom + resetTimeout config) |}
  else
    {| state := state cb; failureCount := failureCount';
       successCount := successCount cb;
       lastFailureTime := Some failedAt;
       lastSuccessTime := lastSuccessTime cb;
       nextRetryTime := nextRetryTime cb |}.

(** [await operation()] cuts a call of [execute] in two pieces, each run
    without interruption: the admission at its head, and [onSuccess] or
    [onFailure] once the operation has settled (a call rejected at the gate
    has the first piece only, which changes nothing).  Calls that overlap
    interleave their pieces; [pieces] runs any such interleaving. *)
Inductive Piece :=
| Admission (now : Z)
| Success (now : Z)
| Failure (failedAt retryFrom : Z).

Definition piece (config : CircuitBreakerConfig) (p : Piece) (cb : t) : t :=
  match p with
  | Admission now =>
      match gate now cb with inl cb1 => cb1 | inr _ => cb end
  | Success now => onSuccess now cb
  | Failure failedAt retryFrom => onFailure_at config failedAt retryFrom cb
  end.

Definition pieces (config : CircuitBreakerConfig) (history : list Piece)
    (cb : t) : t :=
  fold_left (fun cb p => piece config p cb) history cb.


End CircuitBreaker.

Module RetryPolicy.

(** [s.includes(pattern)] *)
Definition includes (s pattern : string) : bool :=
  match String.index 0 pattern s with Some _ => true | None => false end.

Definition isRetryableError (config : RetryConfig) (error : JsError) : bool :=
  existsb (fun errorPattern =>
             includes (message error) errorPattern
             || includes (name error) errorPattern)
          (retryableErrors config).

(** The [for] loop of [execute], entered with [remaining] iterations
    left, that is with [attempt = maxAttempts - remaining + 1].
    [lastError] is [None] while it is still [undefined]; leaving the loop
    throws it. *)
Fixpoint attempts {T} (config : RetryConfig) (operation : Op T)
    (remaining : nat) (attempt : Z) (delay : Q)
    (lastError : option JsError) (w : World)
    : Outcome T (option JsError) * World :=
  match remaining with
  | O => (Rejected lastError, w)
  | S remaining' =>
      let '(r, w1) := operation w in
      match r with
      | Resolved v => (Resolved v, w1)
      | Rejected error =>
          if attempt =? maxAttempts config then (Rejected (Some error), w1)
          else if negb (isRetryableError config error)
          then (Rejected (Some error), w1)
          else
            attempts config operation remaining' (attempt + 1)
              (Qmin (delay * backoffMultiplier config) (maxDelay config))
              (Some error) (sleep delay w1)
      end
  end.

Definition execute {T} (config : RetryConfig) (operation : Op T)
    (w : World) : Outcome T (option JsError) * World :=
  attempts config operation (Z.to_nat (maxAttempts config)) 1
    (initialDelay config) None w.

(** The value of the local variable [delay] after [updates] passes through
    the end of the loop body; it is what the next [sleep] is given. *)
Fixpoint delay_after (config : RetryConfig) (updates : nat) : Q :=
  match updates with
  | O => initialDelay config
  | S n =>
      Qmin (delay_after config n * backoffMultiplier config) (maxDelay config)
  end.

(** [execute] from the head of the loop body at a given [attempt]. *)
Definition from_attempt {T} (config : RetryConfig) (operation : Op T)
    (attempt : Z) (lastError : option JsError) (w : World)
    : Outcome T (option JsError) * World :=
  attempts config operation (Z.to_nat (maxAttempts config - attempt + 1))
    attempt (delay_after config (Z.to_nat (attempt - 1))) lastError w.

End RetryPolicy.

(** The bulkhead hands work to the event loop, so it is modelled as a
    transition system: a [Call] is a caller invoking [execute], a [Settle]
    is the promise awaited by one activation of [runOperation] settling.
    Callers are identified by the promise [execute] returned to them (its
    [resolve]/[reject] pair), operations by the function passed in. *)
Module Bulkhead.

Definition Caller := nat.
Definition OperationId := nat.

(** What an activation of [runOperation] awaits: the operation it was
    given by [execute], or the [() => Promise.resolve()] it is given by
    [processQueue]. *)
Inductive Work := Original (op : OperationId) | ResolvedPlaceholder.

(** What the bulkhead does to the outside: it calls a function, and it
    settles a caller's promise ([None] is [undefined]). *)
Inductive Effect (T : Type) :=
| Invoke (work : Work)
| Resolve (c : Caller) (value : option T)
| Reject (c : Caller) (reason : JsError).
Arguments Invoke {T} work.
Arguments Resolve {T} c value.
Arguments Reject {T} c reason.

(** [running] and [queue] are the fields of the class; a queue entry is
    the [{ resolve, reject }] pair of a caller.  [awaiting] holds the
    suspended activations of [runOperation]. *)
Record t := {
  running : Z;
  queue : list Caller;
  awaiting : list (Caller * Work)
}.

Definition init : t := {| running := 0; queue := []; awaiting := [] |}.

Inductive Event (T : Type) :=
| Call (c : Caller) (operation : OperationId)
| Settle (c : Caller) (r : Outcome T JsError).
Arguments Call {T} c operation.
Arguments Settle {T} c r.

(** [runOperation] up to its [await]. *)
Definition runOperation {T} (work : Work) (c : Caller) (b : t)
    : t * list (Effect T) :=
  ({| running := running b + 1; queue := queue b;
      awaiting := awaiting b ++ [(c, work)] |},
   [Invoke work]).

Definition execute {T} (config : BulkheadConfig) (c : Caller)
    (operation : OperationId) (b : t) : t * list (Effect T) :=
  if running b <? maxConcurrent config then
    runOperation (Original operation) c b
  else if Z.of_nat (length (queue b)) <? maxQueue config then
    ({| running := running b; queue := queue b ++ [c];
        awaiting := awaiting b |}, [])
  else (b, [Reject c (Error "Bulkhead queue is full")]).

Definition processQueue {T} (config : BulkheadConfig) (b : t)
    : t * list (Effect T) :=
  match queue b with
  | next :: rest =>
      if running b <? maxConcurrent config then
        runOperation ResolvedPlaceholder next
          {| running := running b; queue := rest;
             awaiting := awaiting b |}
      else (b, [])
  | [] => (b, [])
  end.

Fixpoint take_awaiting (c : Caller) (l : list (Caller * Work))
    : option (Work * list (Caller * Work)) :=
  match l with
  | [] => None
  | (c', work) :: rest =>
      if Nat.eqb c' c then Some (work, rest)
      else match take_awaiting c rest with
           | Some (found, rest') => Some (found, (c', work) :: rest')
           | None => None
           end
  end.

(** [runOperation] from its [await] on.  The placeholder always
    resolves with [undefined], whatever [r] says. *)
Definition resume {T} (config : BulkheadConfig) (c : Caller)
    (r : Outcome T JsError) (b : t) : t * list (Effect T) :=
  match take_awaiting c (awaiting b) with
  | None => (b, [])
  | Some (work, rest) =>
      let settled :=
        match work, r with
        | ResolvedPlaceholder, _ => Resolve c None
        | Original _, Resolved result => Resolve c (Some result)
        | Original _, Rejected error => Reject c error
        end in
      let '(b', started) :=
        processQueue config
          {| running := running b - 1; queue := queue b;
             awaiting := rest |} in
      (b', settled :: started)
  end.

Definition step {T} (config : BulkheadConfig) (e : Event T) (b : t)
    : t * list (Effect T) :=
  match e with
  | Call c operation => execute config c operation b
  | Settle c r => resume config c r b
  end.

Fixpoint run {T} (config : BulkheadConfig) (events : list (Event T))
    (b : t) : t * list (Effect T) :=
  match events with
  | [] => (b, [])
  | e :: events' =>
      let '(b1, effects1) := step config e b in
      let '(b2, effects2) := run config events' b1 in
      (b2, effects1 ++ effects2)
  end.

End Bulkhead.

Module ResilienceManager.

(** The objects the manager keeps per service. *)
Record CircuitBreakerObject := {
  cb_config : CircuitBreakerConfig;
  cb_fields : CircuitBreaker.t
}.
Record BulkheadObject := {
  bh_config : BulkheadConfig;
  bh_fields : Bulkhead.t
}.

Definition new_CircuitBreaker (config : CircuitBreakerConfig) :=
  {| cb_config := config; cb_fields := CircuitBreaker.init |}.
Definition new_RetryPolicy (config : RetryConfig) := config.
Definition new_TimeoutManager (config : TimeoutConfig) := config.
Definition new_Bulkhead (config : BulkheadConfig) :=
  {| bh_config := config; bh_fields := Bulkhead.init |}.

Record t := {
  circuitBreakers : gmap string CircuitBreakerObject;
  retryPolicies : gmap string RetryConfig;
  timeoutManagers : gmap string TimeoutConfig;
  bulkheads : gmap string BulkheadObject
}.

Definition empty : t :=
  {| circuitBreakers := ∅; retryPolicies := ∅; timeoutManagers := ∅;
     bulkheads := ∅ |}.

(** [map.set(service, value)] when the sub-configuration is present. *)
Definition set_if {C V} (make : C -> V) (service : string)
    (config : option C) (m : gmap string V) : gmap string V :=
  match config with
  | Some c => <[service := make c]> m
  | None => m
  end.

(** One iteration of the loop of [initializeComponents]. *)
Definition initializeComponent (service : string)
    (config : ResilienceConfig) (this : t) : t :=
  {| circuitBreakers :=
       set_if new_CircuitBreaker service (circuitBreaker config)
         (circuitBreakers this);
     retryPolicies :=
       set_if new_RetryPolicy service (retry config) (retryPolicies this);
     timeoutManagers :=
       set_if new_TimeoutManager service (timeout config)
         (timeoutManagers this);
     bulkheads :=
       set_if new_Bulkhead service (bulkhead config) (bulkheads this) |}.

Definition initializeComponents (configs : gmap string ResilienceConfig)
    : t :=
  map_fold initializeComponent empty configs.

(** [new ResilienceManager(configs)] *)
Definition constructor (configs : gmap string ResilienceConfig) : t :=
  initializeComponents configs.

(** The sub-configurations the manager was given for a service; a service
    it was never given has none. *)
Definition configured (configs : gmap string ResilienceConfig)
    (service : string) : ResilienceConfig :=
  default {| circuitBreaker := None; retry := None; timeout := None;
             bulkhead := None |}
          (configs !! service).

Section Execute.
(** What [execute] builds does not depend on what the mechanisms do:
    [Promise] is whatever a call returns, and the four [execute]
    methods are taken as they are called, on the object found in the
    map and a thunk. *)
Context {Promise : Type}.
Abbreviation Thunk := (unit -> Promise).
Variable circuitBreaker_execute : CircuitBreakerObject -> Thunk -> Promise.
Variable retryPolicy_execute : RetryConfig -> Thunk -> Promise.
Variable timeoutManager_execute : TimeoutConfig -> Thunk -> Promise.
Variable bulkhead_execute : BulkheadObject -> Thunk -> Promise.

Definition execute (this : t) (service : string) (operation : Thunk)
    : Promise :=
  let wrappedOperation := operation in
  let wrappedOperation :=
    match circuitBreakers this !! service with
    | Some circuitBreaker =>
        let originalOperation := wrappedOperation in
        fun _ => circuitBreaker_execute circuitBreaker originalOperation
    | None => wrappedOperation
    end in
  let wrappedOperation :=
    match retryPolicies this !! service with
    | Some retryPolicy =>
        let originalOperation := wrappedOperation in
        fun _ => retryPolicy_execute retryPolicy originalOperation
    | None => wrappedOperation
    end in
  let wrappedOperation :=
    match timeoutManagers this !! service with
    | Some timeoutManager =>
        let originalOperation := wrappedOperation in
        fun _ => timeoutManager_execute timeoutManager originalOperation
    | None => wrappedOperation
    end in
  let wrappedOperation :=
    match bulkheads this !! service with
    | Some bulkhead =>
        let originalOperation := wrappedOperation in
        fun _ => bulkhead_execute bulkhead originalOperation
    | None => wrappedOperation
    end in
  wrappedOperation tt.

(** A layer of the pipeline: one of the four mechanisms, as the object whose
    [execute] is called. *)
Inductive Layer :=
| BulkheadLayer (bulkhead : BulkheadObject)
| TimeoutLayer (timeoutManager : TimeoutConfig)
| RetryLayer (retryPolicy : RetryConfig)
| CircuitBreakerLayer (circuitBreaker : CircuitBreakerObject).

Definition present {C} (layer : C -> Layer) (found : option C)
    : list Layer :=
  match found with Some c => [layer c] | None => [] end.

(** The pipeline as the specification words it: the layers present in a
    target's configuration, in the fixed order Bulkhead, Timeout, Retry,
    Circuit Breaker, outermost first. *)
Definition layers (config : ResilienceConfig) : list Layer :=
  present BulkheadLayer (new_Bulkhead <$> bulkhead config)
  ++ present TimeoutLayer (new_TimeoutManager <$> timeout config)
  ++ present RetryLayer (new_RetryPolicy <$> retry config)
  ++ present CircuitBreakerLayer (new_CircuitBreaker <$> circuitBreaker config).

(** The mechanisms a manager holds for a service, in the same order. *)
Definition installed (this : t) (service : string) : list Layer :=
  present BulkheadLayer (bulkheads this !! service)
  ++ present TimeoutLayer (timeoutManagers this !! service)
  ++ present RetryLayer (retryPolicies this !! service)
  ++ present CircuitBreakerLayer (circuitBreakers this !! service).

(** A layer around what is inside it: the thunk that calls the layer's
    [execute] on the inner thunk. *)
Definition wrap (layer : Layer) (inner : Thunk) : Thunk :=
  fun _ =>
    match layer with
    | BulkheadLayer bulkhead => bulkhead_execute bulkhead inner
    | TimeoutLayer timeoutManager =>
        timeoutManager_execute timeoutManager inner
    | RetryLayer retryPolicy => retryPolicy_execute retryPolicy inner
    | CircuitBreakerLayer circuitBreaker =>
        circuitBreaker_execute circuitBreaker inner
    end.

Definition pipeline (stack : list Layer) (operation : Thunk) : Thunk :=
  foldr wrap operation stack.

End Execute.

Definition determineStatus (metrics : option CircuitBreakerMetrics)
    : Status :=
  match metrics with
  | None => healthy
  | Some m =>
      match state m with
      | OPEN => unhealthy
      | HALF_OPEN => degraded
      | CLOSED => if 0 <? failureCount m then degraded else healthy
      end
  end.

(** The counters are integers, on which [+] and [===] are exact; the
    quotient and the product are each rounded. *)
Definition calculateErrorRate (metrics : option CircuitBreakerMetrics) : Q :=
  match metrics with
  | None => 0%Q
  | Some m =>
      if failureCount m + successCount m =? 0 then 0%Q
      else
        binary64
          (binary64 (inject_Z (failureCount m)
                     / inject_Z (failureCount m + successCount m))
           * 100)
  end.

(** [now] is the instant [new Date()] captures. *)
Definition getServiceHealth (this : t) (now : Z) (service : string)
    : ServiceHealth :=
  let circuitBreaker := circuitBreakers this !! service in
  let metrics :=
    match circuitBreaker with
    | Some cb => Some (CircuitBreaker.getMetrics (cb_fields cb))
    | None => None
    end in
  {| Contracts.service := service;
     status := determineStatus metrics;
     lastCheck := now;
     responseTime := 0;
     errorRate := calculateErrorRate metrics;
     circuitBreakerMetrics := metrics |}.

(** [configs] is given by its entries, in the insertion order of the [Map]
    (so with no service twice); the manager itself was built from them. *)
Definition getAllServiceHealth (configs : list (string * ResilienceConfig))
    (this : t) (now : Z) : list ServiceHealth :=
  List.map (fun service => getServiceHealth this now service)
           (List.map fst configs).

End ResilienceManager.

End Observability.

(** ** The stand-alone pattern library *)

Module Patterns.

Inductive CircuitState := CLOSED | OPEN | HALF_OPEN.

Module CircuitBreaker.

Record CircuitBreakerOptions := {
  opt_failureThreshold : option Z;
  opt_resetTimeout : option Z;
  opt_monitoringPeriod : option Z;
  opt_expectedRecoveryTime : option Z
}.

(** The readonly fields set by the constructor. *)
Record Settings := {
  breakerName : string;
  failureThreshold : Z;
  resetTimeout : Z;
  monitoringPeriod : Z;
  expectedRecoveryTime : Z
}.

Definition constructor (name : string) (options : CircuitBreakerOptions)
    : Settings :=
  {| breakerName := name;
     failureThreshold := or_default (opt_failureThreshold options) 5;
     resetTimeout := or_default (opt_resetTimeout options) 60000;
     monitoringPeriod := or_default (opt_monitoringPeriod options) 10000;
     expectedRecoveryTime :=
       or_default (opt_expectedRecoveryTime options) 30000 |}.

(** The mutable fields. *)
Record t := {
  state : CircuitState;
  failureCount : Z;
  lastFailureTime : Z;
  successCount : Z
}.

Definition init : t :=
  {| state := CLOSED; failureCount := 0; lastFailureTime := 0;
     successCount := 0 |}.

Definition onSuccess (cb : t) : t :=
  match state cb with
  | HALF_OPEN =>
      let successCount' := successCount cb + 1 in
      {| state := if 3 <=? successCount' then CLOSED else HALF_OPEN;
         failureCount := 0;
         lastFailureTime := lastFailureTime cb;
         successCount := successCount' |}
  | _ =>
      {| state := state cb; failureCount := 0;
         lastFailureTime := lastFailureTime cb;
         successCount := successCount cb |}
  end.

Definition onFailure (this : Settings) (now : Z) (cb : t) : t :=
  let failureCount' := failureCount cb + 1 in
  {| state :=
       match state cb with
       | HALF_OPEN => OPEN
       | _ => if failureThreshold this <=? failureCount' then OPEN
              else state cb
       end;
     failureCount := failureCount';
     lastFailureTime := now;
     successCount := successCount cb |}.

Definition shouldAttemptReset (this : Settings) (now : Z) (cb : t) : bool :=
  resetTimeout this <=? now - lastFailureTime cb.

Definition openError (this : Settings) : JsError :=
  Error ("Circuit breaker '" ++ breakerName this ++ "' is OPEN").

Definition gate (this : Settings) (now : Z) (cb : t) : t + JsError :=
  match state cb with
  | OPEN =>
      if shouldAttemptReset this now cb then
        inl {| state := HALF_OPEN; failureCount := failureCount cb;
               lastFailureTime := lastFailureTime cb;
               successCount := 0 |}
      else inr (openError this)
  | _ => inl cb
  end.

(** [execute(...args)]: the operation was fixed at construction. *)
Definition execute {A T} (this : Settings) (operation : A -> Op T)
    (args : A) (cb : t) (w : World) : Outcome T JsError * t * World :=
  match gate this (clock w) cb with
  | inr e => (Rejected e, cb, w)
  | inl cb1 =>
      let '(r, w') := operation args w in
      match r with
      | Resolved v => (Resolved v, onSuccess cb1, w')
      | Rejected e => (Rejected e, onFailure this (clock w') cb1, w')
      end
  end.

(** [n] calls of [execute] one after the other; [between] is whatever
    happens to the world before each of them. *)
Fixpoint execute_times {A T} (this : Settings) (operation : A -> Op T)
    (args : A) (between : World -> World) (n : nat) (cb : t) (w : World)
    : t * World :=
  match n with
  | O => (cb, w)
  | S n' =>
      let '(_, cb1, w1) := execute this operation args cb (between w) in
      execute_times this operation args between n' cb1 w1
  end.

Definition reset (cb : t) : t := init.

Definition getState (cb : t) : CircuitState := state cb.

(** [getStats] returns a copy of the four mutable fields. *)
Definition getStats (cb : t) : t :=
  {| state := state cb; failureCount := failureCount cb;
     lastFailureTime := lastFailureTime cb; successCount := successCount cb |}.

(** The breakers a fresh one can become through calls of [execute], with
    any arguments, in any world. *)
Inductive reachable {A T} (this : Settings) (operation : A -> Op T)
    : t -> Prop :=
| reachable_init : reachable this operation init
| reachable_execute (args : A) (cb : t) (w : World) :
    reachable this operation cb →
    reachable this operation
      (fields_after (execute this operation args cb w)).

(** The instant from which an OPEN breaker lets a call through:
    [shouldAttemptReset] holds exactly from [lastFailureTime +
    resetTimeout] on (see [shouldAttemptReset_nextRetryTime]). *)
Definition nextRetryTime (this : Settings) (cb : t) : Z :=
  lastFailureTime cb + resetTimeout this.

(** The pieces [await this.operation(...args)] cuts a call of [execute]
    in, and any interleaving of the pieces of overlapping calls. *)
Inductive Piece :=
| Admission (now : Z)
| Success
| Failure (now : Z).

Definition piece (this : Settings) (p : Piece) (cb : t) : t :=
  match p with
  | Admission now =>
      match gate this now cb with inl cb1 => cb1 | inr _ => cb end
  | Success => onSuccess cb
  | Failure now => onFailure this now cb
  end.

Definition pieces (this : Settings) (history : list Piece) (cb : t) : t :=
  fold_left (fun cb p => piece this p cb) history cb.

End CircuitBreaker.

Module RetryPolicy.

Record t := {
  maxAttempts : Z;
  baseDelay : Q;
  maxDelay : Q;
  backoffMultiplier : Q
}.

(** Constructor defaults. *)
Definition constructor (maxAttempts : option Z)
    (baseDelay maxDelay backoffMultiplier : option Q) : t :=
  {| maxAttempts := default 3 maxAttempts;
     baseDelay := default 1000%Q baseDelay;
     maxDelay := default 30000%Q maxDelay;
     backoffMultiplier := default 2%Q backoffMultiplier |}.

(** [Math.min(baseDelay * Math.pow(backoffMultiplier, attempt - 1),
    maxDelay)] *)
Definition delay (this : t) (attempt : Z) : Q :=
  Qmin (baseDelay this * backoffMultiplier this ^ (attempt - 1))%Q
       (maxDelay this).

Definition jitter (delay u : Q) : Q := (delay * (1 # 10) * u)%Q.

(** The [for] loop of [execute], entered with [remaining] iterations left,
    that is with [attempt = maxAttempts - remaining + 1]. *)
Fixpoint attempts {T} (this : t) (entropy : nat -> Q) (operation : Op T)
    (shouldRetry : JsError -> bool) (remaining : nat) (attempt : Z)
    (lastError : option JsError) (w : World)
    : Outcome T (option JsError) * World :=
  match remaining with
  | O => (Rejected lastError, w)
  | S remaining' =>
      let '(r, w1) := operation w in
      match r with
      | Resolved v => (Resolved v, w1)
      | Rejected error =>
          if (attempt =? maxAttempts this) || negb (shouldRetry error)
          then (Rejected (Some error), w1)
          else
            let delay := delay this attempt in
            let '(u, w2) := random entropy w1 in
            let totalDelay := (delay + jitter delay u)%Q in
            attempts this entropy operation shouldRetry remaining'
              (attempt + 1) (Some error) (sleep totalDelay w2)
      end
  end.

(** [shouldRetry] defaults to [() => true]. *)
Definition execute {T} (this : t) (entropy : nat -> Q) (operation : Op T)
    (shouldRetry : option (JsError -> bool)) (w : World)
    : Outcome T (option JsError) * World :=
  attempts this entropy operation (default (fun _ => true) shouldRetry)
    (Z.to_nat (maxAttempts this)) 1 None w.

(** What [sleep] is given after the failed attempt [attempt], when the
    jitter is drawn as the [draw]-th value of [Math.random()]. *)
Definition totalDelay (this : t) (entropy : nat -> Q) (attempt : Z)
    (draw : nat) : Q :=
  (delay this attempt + jitter (delay this attempt) (entropy draw))%Q.

(** [execute] from the head of the loop body at a given [attempt]. *)
Definition from_attempt {T} (this : t) (entropy : nat -> Q) (operation : Op T)
    (shouldRetry : JsError -> bool) (attempt : Z)
    (lastError : option JsError) (w : World)
    : Outcome T (option JsError) * World :=
  attempts this entropy operation shouldRetry
    (Z.to_nat (maxAttempts this - attempt + 1)) attempt lastError w.

End RetryPolicy.

(** The same transition-system reading as for the bulkhead of
    resilience.ts; here a queue entry also carries the operation. *)
Module Bulkhead.

Definition Caller := nat.
Definition OperationId := nat.

Inductive Effect (T : Type) :=
| Invoke (operation : OperationId)
| Resolve (c : Caller) (value : T)
| Reject (c : Caller) (reason : JsError).
Arguments Invoke {T} operation.
Arguments Resolve {T} c value.
Arguments Reject {T} c reason.

Record t := {
  semaphore : Z;
  queue : list (Caller * OperationId);
  running : Z;
  awaiting : list Caller
}.

Definition constructor (maxConcurrent : option Z) : t :=
  {| semaphore := default 10 maxConcurrent; queue := []; running := 0;
     awaiting := [] |}.

Inductive Event (T : Type) :=
| Call (c : Caller) (operation : OperationId)
| Settle (c : Caller) (r : Outcome T JsError).
Arguments Call {T} c operation.
Arguments Settle {T} c r.

(** [process] up to its [await]. *)
Definition process {T} (b : t) : t * list (Effect T) :=
  if (semaphore b <=? running b) then (b, [])
  else
    match queue b with
    | [] => (b, [])
    | (c, operation) :: rest =>
        ({| semaphore := semaphore b; queue := rest;
            running := running b + 1; awaiting := awaiting b ++ [c] |},
         [Invoke operation])
    end.

Definition execute {T} (c : Caller) (operation : OperationId) (b : t)
    : t * list (Effect T) :=
  process {| semaphore := semaphore b;
             queue := queue b ++ [(c, operation)];
             running := running b; awaiting := awaiting b |}.

Fixpoint remove_first (c : Caller) (l : list Caller) : option (list Caller) :=
  match l with
  | [] => None
  | c' :: rest =>
      if Nat.eqb c' c then Some rest
      else match remove_first c rest with
           | Some rest' => Some (c' :: rest')
           | None => None
           end
  end.

(** [process] from its [await] on. *)
Definition resume {T} (c : Caller) (r : Outcome T JsError) (b : t)
    : t * list (Effect T) :=
  match remove_first c (awaiting b) with
  | None => (b, [])
  | Some rest =>
      let settled :=
        match r with
        | Resolved result => Resolve c result
        | Rejected error => Reject c error
        end in
      let '(b', started) :=
        process {| semaphore := semaphore b; queue := queue b;
                   running := running b - 1; awaiting := rest |} in
      (b', settled :: started)
  end.

Definition step {T} (e : Event T) (b : t) : t * list (Effect T) :=
  match e with
  | Call c operation => execute c operation b
  | Settle c r => resume c r b
  end.

Fixpoint run {T} (events : list (Event T)) (b : t) : t * list (Effect T) :=
  match events with
  | [] => (b, [])
  | e :: events' =>
      let '(b1, effects1) := step e b in
      let '(b2, effects2) := run events' b1 in
      (b2, effects1 ++ effects2)
  end.

Record Stats := { stats_running : Z; queued : Z; maxConcurrent : Z }.

Definition getStats (b : t) : Stats :=
  {| stats_running := running b;
     queued := Z.of_nat (length (queue b));
     maxConcurrent := semaphore b |}.

(** The operations passed to [execute], in the order of the calls. *)
Definition submitted {T} (events : list (Event T)) : list OperationId :=
  flat_map (fun e => match e with
                     | Call _ operation => [operation]
                     | Settle _ _ => []
                     end) events.

(** The operations the bulkhead called, in the order it called them. *)
Definition invoked {T} (effects : list (Effect T)) : list OperationId :=
  flat_map (fun e => match e with
                     | Invoke operation => [operation]
                     | _ => []
                     end) effects.

End Bulkhead.

Module CacheAside.

Record Entry (T : Type) := { data : T; expiry : Z }.
Arguments data {T} _.
Arguments expiry {T} _.

(** A JavaScript [Map] with string keys: its entries in insertion order,
    no key twice. *)
Definition JsMap (V : Type) := list (string * V).

Definition Map_get {V} (key : string) (m : JsMap V) : option V :=
  match List.find (fun kv => String.eqb (fst kv) key) m with
  | Some kv => Some (snd kv)
  | None => None
  end.

Definition Map_delete {V} (key : string) (m : JsMap V) : JsMap V :=
  List.filter (fun kv => negb (String.eqb (fst kv) key)) m.

(** [map.set]: a present key keeps its place, a new key goes last. *)
Fixpoint Map_set {V} (key : string) (v : V) (m : JsMap V) : JsMap V :=
  match m with
  | [] => [(key, v)]
  | (k, x) :: rest =>
      if String.eqb k key then (k, v) :: rest
      else (k, x) :: Map_set key v rest
  end.

Definition Map_size {V} (m : JsMap V) : Z := Z.of_nat (length m).

(** [map.keys().next().value] *)
Definition Map_first_key {V} (m : JsMap V) : option string :=
  match m with
  | [] => None
  | (k, _) :: _ => Some k
  end.

(** Truthiness of a [string | undefined]. *)
Definition truthy (key : option string) : bool :=
  match key with
  | None => false
  | Some EmptyString => false
  | Some (String _ _) => true
  end.

Record t := { ttlMs : Z; maxSize : Z }.

Definition constructor (ttlMs maxSize : option Z) : t :=
  {| ttlMs := default 300000 ttlMs; maxSize := default 1000 maxSize |}.

Definition set {T} (this : t) (now : Z) (key : string) (data : T)
    (cache : JsMap (Entry T)) : JsMap (Entry T) :=
  let cache1 :=
    if maxSize this <=? Map_size cache then
      let firstKey := Map_first_key cache in
      match firstKey with
      | Some k => if truthy firstKey then Map_delete k cache else cache
      | None => cache
      end
    else cache in
  Map_set key {| data := data; expiry := now + ttlMs this |} cache1.

Definition get {T} (this : t) (key : string) (fetchFunction : Op T)
    (cache : JsMap (Entry T)) (w : World)
    : Outcome T JsError * JsMap (Entry T) * World :=
  let fetch :=
    let '(r, w1) := fetchFunction w in
    match r with
    | Resolved data => (Resolved data, set this (clock w1) key data cache, w1)
    | Rejected error => (Rejected error, cache, w1)
    end in
  match Map_get key cache with
  | Some cached =>
      if clock w <? expiry cached then (Resolved (data cached), cache, w)
      else fetch
  | None => fetch
  end.

(** Whether a read of [key] at [now] goes to the fetch function: the key is
    missing, or its entry has expired. *)
Definition stale {T} (key : string) (cache : JsMap (Entry T)) (now : Z)
    : Prop :=
  match Map_get key cache with
  | Some cached => expiry cached <= now
  | None => True
  end.

Definition invalidate {T} (key : string) (cache : JsMap (Entry T)) :=
  Map_delete key cache.

Definition clear {T} (cache : JsMap (Entry T)) : JsMap (Entry T) := [].

Record Stats := { size : Z; stats_maxSize : Z; hitRate : Z }.

Definition getStats {T} (this : t) (cache : JsMap (Entry T)) : Stats :=
  {| size := Map_size cache; stats_maxSize := maxSize this; hitRate := 0 |}.

(** [[...map.keys()]] *)
Definition keys {V} (m : JsMap V) : list string := List.map fst m.

(** The public methods that touch the map, and a cache serving a sequence
    of them, one after the other. *)
Inductive Request (T : Type) :=
| Get (key : string) (fetchFunction : Op T)
| Invalidate (key : string)
| Clear.
Arguments Get {T} key fetchFunction.
Arguments Invalidate {T} key.
Arguments Clear {T}.

Fixpoint serve {T} (this : t) (requests : list (Request T))
    (cache : JsMap (Entry T)) (w : World) : JsMap (Entry T) * World :=
  match requests with
  | [] => (cache, w)
  | Get key fetchFunction :: later =>
      let '(_, cache1, w1) := get this key fetchFunction cache w in
      serve this later cache1 w1
  | Invalidate key :: later => serve this later (invalidate key cache) w
  | Clear :: later => serve this later (clear cache) w
  end.

Definition requests_key {T} (request : Request T) : option string :=
  match request with
  | Get key _ => Some key
  | Invalidate _ | Clear => None
  end.

End CacheAside.

Module RateLimiter.

Record t := { maxRequests : Z; windowMs : Z }.

(** A number interpolated into a template string; [None] is [NaN]. *)
Definition show_number (n : option Z) : string :=
  match n with
  | Some z => NilZero.string_of_int (Z.to_int z)
  | None => "NaN"
  end.

Definition in_window (this : t) (now time : Z) : bool :=
  now - time <? windowMs this.

(** [this.windowMs - (now - oldestRequest)] where [oldestRequest] is
    [requests[0]], [undefined] on an empty array. *)
Definition waitTime (this : t) (now : Z) (requests : list Z) : option Z :=
  match requests with
  | oldestRequest :: _ => Some (windowMs this - (now - oldestRequest))
  | [] => None
  end.

Definition rateLimitError (waitTime : option Z) : JsError :=
  Error ("Rate limit exceeded. Wait " ++ show_number waitTime
         ++ "ms before retrying.").

(** [requests] is the field before the call; the second component is the
    field after it. *)
Definition acquire (this : t) (now : Z) (requests : list Z)
    : Outcome unit JsError * list Z :=
  let requests1 := List.filter (in_window this now) requests in
  if maxRequests this <=? Z.of_nat (length requests1) then
    (Rejected (rateLimitError (waitTime this now requests1)), requests1)
  else (Resolved tt, requests1 ++ [now]).

Definition currentRequests (this : t) (now : Z) (requests : list Z) : Z :=
  Z.of_nat (length (List.filter (in_window this now) requests)).

(** Successive calls of [acquire], at the given instants. *)
Fixpoint acquire_each (this : t) (instants : list Z) (requests : list Z)
    : list (Outcome unit JsError) * list Z :=
  match instants with
  | [] => ([], requests)
  | now :: later =>
      let '(r, requests1) := acquire this now requests in
      let '(rs, requests2) := acquire_each this later requests1 in
      (r :: rs, requests2)
  end.

(** [reachable this now requests]: the limiter, created with an empty array,
    holds [requests] after calls of [acquire] made at instants that never
    decrease, none later than [now]. *)
Inductive reachable (this : t) : Z -> list Z -> Prop :=
| reachable_new (now : Z) : reachable this now []
| reachable_acquire (before now : Z) (requests : list Z) :
    reachable this before requests →
    before <= now →
    reachable this now (snd (acquire this now requests)).

Definition is_rejected {A} (r : Outcome A JsError) : bool :=
  match r with Rejected _ => true | Resolved _ => false end.

Record Stats := {
  stats_currentRequests : Z;
  stats_maxRequests : Z;
  stats_windowMs : Z
}.

Definition getStats (this : t) (now : Z) (requests : list Z) : Stats :=
  {| stats_currentRequests := currentRequests this now requests;
     stats_maxRequests := maxRequests this;
     stats_windowMs := windowMs this |}.

(** The instants of the calls of [acquire] that were granted. *)
Fixpoint granted {A} (instants : list Z) (outcomes : list (Outcome A JsError))
    : list Z :=
  match instants, outcomes with
  | now :: later, Resolved _ :: rest => now :: granted later rest
  | _ :: later, Rejected _ :: rest => granted later rest
  | _, _ => []
  end.

End RateLimiter.

(** The registry of the pattern library.  An entry holds what [getStats]
    reads of the registered object: its readonly fields and its present
    state. *)
Module ResilienceManager.

Record CircuitBreakerObject := {
  cb_this : CircuitBreaker.Settings;
  cb_fields : CircuitBreaker.t
}.
Record RateLimiterObject := {
  rl_this : RateLimiter.t;
  rl_requests : list Z
}.
Record CacheObject (T : Type) := {
  ca_this : CacheAside.t;
  ca_cache : CacheAside.JsMap (CacheAside.Entry T)
}.
Arguments ca_this {T} _.
Arguments ca_cache {T} _.

Record t (T : Type) := {
  circuitBreakers : CacheAside.JsMap CircuitBreakerObject;
  bulkheads : CacheAside.JsMap Bulkhead.t;
  rateLimiters : CacheAside.JsMap RateLimiterObject;
  caches : CacheAside.JsMap (CacheObject T)
}.
Arguments circuitBreakers {T} _.
Arguments bulkheads {T} _.
Arguments rateLimiters {T} _.
Arguments caches {T} _.

Definition empty {T} : t T :=
  {| circuitBreakers := []; bulkheads := []; rateLimiters := [];
     caches := [] |}.

Definition createCircuitBreaker {T} (name : string)
    (options : CircuitBreaker.CircuitBreakerOptions) (this : t T)
    : CircuitBreakerObject * t T :=
  let breaker := {| cb_this := CircuitBreaker.constructor name options;
                    cb_fields := CircuitBreaker.init |} in
  (breaker,
   {| circuitBreakers := CacheAside.Map_set name breaker (circuitBreakers this);
      bulkheads := bulkheads this; rateLimiters := rateLimiters this;
      caches := caches this |}).

Definition createBulkhead {T} (name : string) (maxConcurrent : option Z)
    (this : t T) : Bulkhead.t * t T :=
  let bulkhead := Bulkhead.constructor maxConcurrent in
  (bulkhead,
   {| circuitBreakers := circuitBreakers this;
      bulkheads := CacheAside.Map_set name bulkhead (bulkheads this);
      rateLimiters := rateLimiters this; caches := caches this |}).

Definition createRateLimiter {T} (name : string) (maxRequests windowMs : Z)
    (this : t T) : RateLimiterObject * t T :=
  let rateLimiter :=
    {| rl_this := {| RateLimiter.maxRequests := maxRequests;
                     RateLimiter.windowMs := windowMs |};
       rl_requests := [] |} in
  (rateLimiter,
   {| circuitBreakers := circuitBreakers this; bulkheads := bulkheads this;
      rateLimiters := CacheAside.Map_set name rateLimiter (rateLimiters this);
      caches := caches this |}).

Definition createCache {T} (name : string) (ttlMs maxSize : option Z)
    (this : t T) : CacheObject T * t T :=
  let cache := {| ca_this := CacheAside.constructor ttlMs maxSize;
                  ca_cache := [] |} in
  (cache,
   {| circuitBreakers := circuitBreakers this; bulkheads := bulkheads this;
      rateLimiters := rateLimiters this;
      caches := CacheAside.Map_set name cache (caches this) |}).

Definition getCircuitBreaker {T} (name : string) (this : t T) :=
  CacheAside.Map_get name (circuitBreakers this).
Definition getBulkhead {T} (name : string) (this : t T) :=
  CacheAside.Map_get name (bulkheads this).
Definition getRateLimiter {T} (name : string) (this : t T) :=
  CacheAside.Map_get name (rateLimiters this).
Definition getCache {T} (name : string) (this : t T) :=
  CacheAside.Map_get name (caches this).

(** A value of the record [getAllStats] returns. *)
Inductive Stats :=
| CircuitBreakerStats (stats : CircuitBreaker.t)
| BulkheadStats (stats : Bulkhead.Stats)
| RateLimiterStats (stats : RateLimiter.Stats)
| CacheStats (stats : CacheAside.Stats).

(** One [for] loop of [getAllStats]: [stats[prefix + name] = ...] for each
    entry of a registry, in its order. *)
Definition collect {O} (prefix : string) (read : O -> Stats)
    (registry : CacheAside.JsMap O) (stats : CacheAside.JsMap Stats)
    : CacheAside.JsMap Stats :=
  fold_left (fun stats entry =>
               CacheAside.Map_set (prefix ++ fst entry) (read (snd entry))
                 stats)
            registry stats.

(** [now] is the instant at which the rate limiters read the clock. *)
Definition getAllStats {T} (now : Z) (this : t T) : CacheAside.JsMap Stats :=
  let stats := [] in
  let stats :=
    collect "circuit_breaker_"
      (fun breaker =>
         CircuitBreakerStats (CircuitBreaker.getStats (cb_fields breaker)))
      (circuitBreakers this) stats in
  let stats :=
    collect "bulkhead_"
      (fun bulkhead => BulkheadStats (Bulkhead.getStats bulkhead))
      (bulkheads this) stats in
  let stats :=
    collect "rate_limiter_"
      (fun rateLimiter =>
         RateLimiterStats
           (RateLimiter.getStats (rl_this rateLimiter) now
              (rl_requests rateLimiter)))
      (rateLimiters this) stats in
  collect "cache_"
    (fun cache =>
       CacheStats (CacheAside.getStats (ca_this cache) (ca_cache cache)))
    (caches this) stats.

End ResilienceManager.

End Patterns.

(** ** Scenarios

    Concrete worlds, operations and configurations on which the models are
    run in the examples below. *)

Module Scenario.

Definition start : World :=
  {| clock := 1000; invocations := 0; draws := 0; timers := [] |}.

Definition at_time (now : Z) (w : World) : World :=
  {| clock := now; invocations := invocations w; draws := draws w;
     timers := timers w |}.

Definition econnreset : JsError := Error "read ECONNRESET".

(** Fails on the invocations listed in [failures], succeeds with the
    invocation number otherwise; every invocation takes 10 ms. *)
Definition failing_on (failures : list nat) : Op nat :=
  scripted (fun n =>
    if existsb (Nat.eqb n) failures then (Rejected econnreset, 10)
    else (Resolved n, 10)).

Definition always_failing : Op nat :=
  scripted (fun _ => (Rejected econnreset, 10)).

Definition always_succeeding : Op nat :=
  scripted (fun n => (Resolved n, 10)).

Definition breaker_config : Contracts.CircuitBreakerConfig :=
  {| Contracts.failureThreshold := 2; Contracts.resetTimeout := 60000;
     Contracts.monitoringPeriod := 30000 |}.

(** The breaker of resilience.ts after the calls [operation] makes of it,
    one every 100 ms from [start]: first call, second call, third call. *)
Definition observability_call (operation : Op nat)
    (before : Outcome nat JsError * Observability.CircuitBreaker.t * World) :=
  Observability.CircuitBreaker.execute breaker_config operation
    (fields_after before)
    (at_time (clock (world_after before) + 100) (world_after before)).

Definition observability_first (operation : Op nat) :=
  Observability.CircuitBreaker.execute breaker_config operation
    Observability.CircuitBreaker.init start.

(** A manager holding, for the service [payments], a breaker with the given
    fields. *)
Definition manager_with_breaker (fields : Observability.CircuitBreaker.t)
    : Observability.ResilienceManager.t :=
  {| Observability.ResilienceManager.circuitBreakers :=
       {[ "payments" :=
            {| Observability.ResilienceManager.cb_config := breaker_config;
               Observability.ResilienceManager.cb_fields := fields |} ]};
     Observability.ResilienceManager.retryPolicies := ∅;
     Observability.ResilienceManager.timeoutManagers := ∅;
     Observability.ResilienceManager.bulkheads := ∅ |}.

(** The breaker of the pattern library guarding one operation, with
    [failureThreshold = 2] and the default [resetTimeout] of one minute. *)
Definition pattern_breaker : Patterns.CircuitBreaker.Settings :=
  Patterns.CircuitBreaker.constructor "payments"
    {| Patterns.CircuitBreaker.opt_failureThreshold := Some 2;
       Patterns.CircuitBreaker.opt_resetTimeout := None;
       Patterns.CircuitBreaker.opt_monitoringPeriod := None;
       Patterns.CircuitBreaker.opt_expectedRecoveryTime := None |}.

Definition pattern_first (operation : Op nat) :=
  Patterns.CircuitBreaker.execute pattern_breaker (fun _ : unit => operation)
    tt Patterns.CircuitBreaker.init start.

(** The next call, [pause] milliseconds after the previous one settled. *)
Definition pattern_call (pause : Z) (operation : Op nat)
    (before : Outcome nat JsError * Patterns.CircuitBreaker.t * World) :=
  Patterns.CircuitBreaker.execute pattern_breaker (fun _ : unit => operation)
    tt (fields_after before)
    (at_time (clock (world_after before) + pause) (world_after before)).

(** resilience.ts: a failure, a success, a failure. *)
Definition observability_interleaved :=
  let operation := failing_on [0%nat; 2%nat] in
  let r1 := observability_first operation in
  let r2 := observability_call operation r1 in
  let r3 := observability_call operation r2 in
  (r1, r2, r3).

(** Pattern library: the same three calls. *)
Definition pattern_interleaved :=
  let operation := failing_on [0%nat; 2%nat] in
  let r1 := pattern_first operation in
  let r2 := pattern_call 100 operation r1 in
  let r3 := pattern_call 100 operation r2 in
  (r1, r2, r3).

(** Pattern library: two failures open the breaker; a minute later the
    operation has recovered and is called three times. *)
Definition recovering : Op nat := failing_on [0%nat; 1%nat].
Definition pattern_opened :=
  pattern_call 100 recovering (pattern_first recovering).
Definition pattern_probe1 := pattern_call 60000 recovering pattern_opened.
Definition pattern_probe2 := pattern_call 100 recovering pattern_probe1.
Definition pattern_probe3 := pattern_call 100 recovering pattern_probe2.

(** Retry with [maxAttempts = 3], [baseDelay = 100], [backoffMultiplier = 2]
    and every [Math.random()] returning 1/2. *)
Definition retry_policy : Patterns.RetryPolicy.t :=
  Patterns.RetryPolicy.constructor (Some 3) (Some 100%Q) None (Some 2%Q).

Definition half : nat -> Q := fun _ => (1 # 2)%Q.

Definition validation_failed : JsError :=
  {| name := "ValidationError"; message := "invalid payload" |}.

Definition rejecting_validation : Op nat :=
  scripted (fun _ => (Rejected validation_failed, 10)).

Definition retry_network_errors (error : JsError) : bool :=
  Observability.RetryPolicy.includes (message error) "ECONNRESET".

(** A configuration of resilience.ts whose first delay exceeds the cap. *)
Definition uncapped_retry_config : Contracts.RetryConfig :=
  {| Contracts.maxAttempts := 3; Contracts.initialDelay := 1000%Q;
     Contracts.maxDelay := 500%Q; Contracts.backoffMultiplier := 2%Q;
     Contracts.retryableErrors := ["ECONNRESET"; "ETIMEDOUT"] |}.

(** The limiter of the specification's example, after five calls within
    five milliseconds. *)
Definition limiter : Patterns.RateLimiter.t :=
  {| Patterns.RateLimiter.maxRequests := 5;
     Patterns.RateLimiter.windowMs := 1000 |}.

Definition five_requests : list Z :=
  snd (Patterns.RateLimiter.acquire_each limiter
         [1000; 1001; 1002; 1003; 1004] []).

(** A cache for a single entry, with the default five minutes to live. *)
Definition single_entry_cache : Patterns.CacheAside.t :=
  Patterns.CacheAside.constructor None (Some 1).

(** A fetch function that fails the first time it is called. *)
Definition fetch_failing_once : Op nat := failing_on [0%nat].

(** Two reads: of the empty-string key, then of the key [a]. *)
Definition cache_after_empty_key :=
  Patterns.CacheAside.get single_entry_cache EmptyString always_succeeding
    [] start.
Definition cache_after_second_key :=
  Patterns.CacheAside.get single_entry_cache "a" always_succeeding
    (fields_after cache_after_empty_key) (world_after cache_after_empty_key).

(** The same two reads with [k] in place of the empty string. *)
Definition cache_after_first_key :=
  Patterns.CacheAside.get single_entry_cache "k" always_succeeding [] start.
Definition cache_after_other_key :=
  Patterns.CacheAside.get single_entry_cache "a" always_succeeding
    (fields_after cache_after_first_key) (world_after cache_after_first_key).

(** A bulkhead for one running operation and one waiter.  Callers 1, 2
    and 3 arrive with the operations 11, 12 and 13 while nothing has
    settled; then the awaited promises of caller 1 and of caller 2 settle. *)
Definition bulkhead_config : Contracts.BulkheadConfig :=
  {| Contracts.maxConcurrent := 1; Contracts.maxQueue := 1 |}.

Definition bulkhead_run :=
  Observability.Bulkhead.run bulkhead_config
    [Observability.Bulkhead.Call 1%nat 11%nat;
     Observability.Bulkhead.Call 2%nat 12%nat;
     Observability.Bulkhead.Call 3%nat 13%nat;
     Observability.Bulkhead.Settle 1%nat (Resolved 100%nat);
     Observability.Bulkhead.Settle 2%nat (Resolved 200%nat)]
    Observability.Bulkhead.init.

(** The pattern library's bulkhead on the first two callers. *)
Definition pattern_bulkhead_run :=
  Patterns.Bulkhead.run
    [Patterns.Bulkhead.Call 1%nat 11%nat;
     Patterns.Bulkhead.Call 2%nat 12%nat;
     Patterns.Bulkhead.Settle 1%nat (Resolved 100%nat);
     Patterns.Bulkhead.Settle 2%nat (Resolved 200%nat)]
    (Patterns.Bulkhead.constructor (Some 1)).

(** A manager configured with all four layers for [payments] and with a
    retry policy alone for [search]. *)
Definition retry_config : Contracts.RetryConfig :=
  {| Contracts.maxAttempts := 3; Contracts.initialDelay := 1000%Q;
     Contracts.maxDelay := 10000%Q; Contracts.backoffMultiplier := 2%Q;
     Contracts.retryableErrors := ["ECONNRESET"; "ETIMEDOUT"] |}.

Definition timeout_config : Contracts.TimeoutConfig :=
  {| Contracts.connection := 1000; Contracts.response := 5000 |}.

Definition configs : gmap string Contracts.ResilienceConfig :=
  <[ "payments" :=
       {| Contracts.circuitBreaker := Some breaker_config;
          Contracts.retry := Some retry_config;
          Contracts.timeout := Some timeout_config;
          Contracts.bulkhead := Some bulkhead_config |} ]>
  (<[ "search" :=
        {| Contracts.circuitBreaker := None;
           Contracts.retry := Some retry_config;
           Contracts.timeout := None;
           Contracts.bulkhead := None |} ]> ∅).

(** A reading of the four [execute] methods that only records the order in
    which things are entered; the retry policy makes two attempts. *)
Definition entering (layer : string) {O} (_ : O)
    (operation : unit -> list string) : list string :=
  layer :: operation tt.
Definition entering_twice (layer : string) {O} (_ : O)
    (operation : unit -> list string) : list string :=
  layer :: operation tt ++ operation tt.

Definition traced_execute (service : string) : list string :=
  Observability.ResilienceManager.execute
    (entering "circuitBreaker") (entering_twice "retry")
    (entering "timeout") (entering "bulkhead")
    (Observability.ResilienceManager.constructor configs) service
    (fun _ => ["operation"]).

(** resilience.ts: two failures in a row open the breaker. *)
Definition observability_opened :=
  Observability.CircuitBreaker.execute breaker_config always_failing
    (fields_after
       (Observability.CircuitBreaker.execute breaker_config always_failing
          Observability.CircuitBreaker.init start))
    (world_after
       (Observability.CircuitBreaker.execute breaker_config always_failing
          Observability.CircuitBreaker.init start)).

(** A breaker of resilience.ts with 7 failures and 93 successes behind
    it, OPEN since its last failure. *)
Definition seven_in_a_hundred : Observability.CircuitBreaker.t :=
  {| Contracts.state := Contracts.OPEN;
     Contracts.failureCount := 7; Contracts.successCount := 93;
     Contracts.lastFailureTime := Some 4000;
     Contracts.lastSuccessTime := Some 3000;
     Contracts.nextRetryTime := Some 64000 |}.

(** The pattern library's retry policy with the numbers of
    [uncapped_retry_config], and with those of [retry_config]. *)
Definition uncapped_retry_policy : Patterns.RetryPolicy.t :=
  Patterns.RetryPolicy.constructor (Some 3) (Some 1000%Q) (Some 500%Q)
    (Some 2%Q).

Definition retry_policy_of_config : Patterns.RetryPolicy.t :=
  Patterns.RetryPolicy.constructor (Some 3) (Some 1000%Q) (Some 10000%Q)
    (Some 2%Q).

End Scenario.

(** * Properties *)

(** ** ResilienceManager: what [execute] builds *)

Section ManagerFacts.
Import Contracts Observability Observability.ResilienceManager.

Lemma lookup_set_if {C V} (make : C -> V) service (config : option C)
    (m : gmap string V) s :
  set_if make service config m !! s
  = if decide (service = s)
    then match config with Some c => Some (make c) | None => m !! s end
    else m !! s.
Proof.
  unfold set_if. destruct config as [c|].
  - rewrite lookup_insert. reflexivity.
  - destruct (decide (service = s)); reflexivity.
Qed.

(** After [initializeComponents] each map holds, for each service, a fresh
    object for the sub-configuration of that service, and nothing else. *)
Lemma initializeComponents_lookup (configs : gmap string ResilienceConfig) s :
  let this := initializeComponents configs in
  circuitBreakers this !! s
    = new_CircuitBreaker <$> circuitBreaker (configured configs s)
  ∧ retryPolicies this !! s = new_RetryPolicy <$> retry (configured configs s)
  ∧ timeoutManagers this !! s
    = new_TimeoutManager <$> timeout (configured configs s)
  ∧ bulkheads this !! s = new_Bulkhead <$> bulkhead (configured configs s).
Proof.
  unfold initializeComponents, configured.
  apply (map_fold_weak_ind (fun this (m : gmap string ResilienceConfig) =>
    circuitBreakers this !! s
      = new_CircuitBreaker <$> circuitBreaker (configured m s)
    ∧ retryPolicies this !! s = new_RetryPolicy <$> retry (configured m s)
    ∧ timeoutManagers this !! s
      = new_TimeoutManager <$> timeout (configured m s)
    ∧ bulkheads this !! s = new_Bulkhead <$> bulkhead (configured m s))).
  - unfold configured. rewrite lookup_empty. simpl.
    repeat split; apply lookup_empty.
  - intros i x m r Hfresh (Hcb & Hrp & Htm & Hbh).
    unfold configured in *. simpl.
    rewrite !lookup_set_if, lookup_insert.
    destruct (decide (i = s)) as [->|Hne].
    + rewrite Hfresh in *. simpl in *.
      rewrite Hcb, Hrp, Htm, Hbh.
      destruct (circuitBreaker x), (retry x), (timeout x), (bulkhead x);
        repeat split; reflexivity.
    + repeat split; assumption.
Qed.

End ManagerFacts.

Section PipelineFacts.
Import Contracts Observability Observability.ResilienceManager.
Context {Promise : Type}.
Variable circuitBreaker_execute : CircuitBreakerObject -> (unit -> Promise) -> Promise.
Variable retryPolicy_execute : RetryConfig -> (unit -> Promise) -> Promise.
Variable timeoutManager_execute : TimeoutConfig -> (unit -> Promise) -> Promise.
Variable bulkhead_execute : BulkheadObject -> (unit -> Promise) -> Promise.

Local Abbreviation run_execute :=
  (execute circuitBreaker_execute retryPolicy_execute timeoutManager_execute
     bulkhead_execute).
Local Abbreviation run_pipeline :=
  (pipeline circuitBreaker_execute retryPolicy_execute timeoutManager_execute
     bulkhead_execute).

(** C1.  Whatever state a manager is in, [execute(service, operation)] is
    the call of the nest of exactly the mechanisms it holds for the service,
    in the order Bulkhead, Timeout, Retry, Circuit Breaker from the outside
    in, with the operation innermost; and a manager constructed from a
    configuration map holds for a service exactly the layers of the
    service's configuration, so that a missing sub-configuration (or a
    service that was never configured) contributes no layer and the
    operation is called through the others.  In particular, when a timeout
    and a retry policy are both configured, the one call of the timeout
    manager encloses the whole call of the retry policy, and what the retry
    policy attempts (the breaker layer, if any, around the operation) has no
    timeout of its own. *)
Theorem execute_composes_configured_layers
    (configs : gmap string ResilienceConfig) (service : string)
    (operation : unit -> Promise) :
  (∀ this : ResilienceManager.t,
     run_execute this service operation
     = run_pipeline (installed this service) operation tt)
  ∧ installed (constructor configs) service
    = layers (configured configs service)
  ∧ run_execute (constructor configs) service operation
    = run_pipeline (layers (configured configs service)) operation tt
  ∧ (∀ tc rc,
       timeout (configured configs service) = Some tc →
       retry (configured configs service) = Some rc →
       run_execute (constructor configs) service operation
       = run_pipeline
           (present BulkheadLayer
              (new_Bulkhead <$> bulkhead (configured configs service)))
           (fun _ =>
              timeoutManager_execute (new_TimeoutManager tc)
                (fun _ =>
                   retryPolicy_execute (new_RetryPolicy rc)
                     (run_pipeline
                        (present CircuitBreakerLayer
                           (new_CircuitBreaker
                              <$> circuitBreaker (configured configs service)))
                        operation)))
           tt).
Proof.
  assert (Hany : ∀ this : ResilienceManager.t,
            run_execute this service operation
            = run_pipeline (installed this service) operation tt).
  { intros this. unfold execute, installed.
    destruct (circuitBreakers this !! service),
             (retryPolicies this !! service),
             (timeoutManagers this !! service),
             (bulkheads this !! service); reflexivity. }
  assert (Hinstalled : installed (constructor configs) service
                       = layers (configured configs service)).
  { unfold installed, layers, constructor.
    destruct (initializeComponents_lookup configs service)
      as (-> & -> & -> & ->). reflexivity. }
  split; [exact Hany|]. split; [exact Hinstalled|].
  split; [rewrite Hany, Hinstalled; reflexivity|].
  intros tc rc Htm Hrp. rewrite Hany, Hinstalled. unfold layers.
  rewrite Htm, Hrp.
  destruct (circuitBreaker (configured configs service)),
           (bulkhead (configured configs service)); reflexivity.
Qed.

End PipelineFacts.

Lemma execute_composes_configured_layers_witness :
  Contracts.timeout
    (Observability.ResilienceManager.configured Scenario.configs "payments")
  = Some Scenario.timeout_config
  ∧ Contracts.retry
      (Observability.ResilienceManager.configured Scenario.configs "payments")
    = Some Scenario.retry_config
  ∧ Scenario.traced_execute "payments"
    = ["bulkhead"; "timeout"; "retry"; "circuitBreaker"; "operation";
       "circuitBreaker"; "operation"].
Proof.
  assert (Htm : Contracts.timeout
                  (Observability.ResilienceManager.configured
                     Scenario.configs "payments")
                = Some Scenario.timeout_config) by reflexivity.
  assert (Hrp : Contracts.retry
                  (Observability.ResilienceManager.configured
                     Scenario.configs "payments")
                = Some Scenario.retry_config) by reflexivity.
  split; [exact Htm|]. split; [exact Hrp|].
  unfold Scenario.traced_execute.
  destruct (execute_composes_configured_layers
              (Scenario.entering "circuitBreaker")
              (Scenario.entering_twice "retry")
              (Scenario.entering "timeout") (Scenario.entering "bulkhead")
              Scenario.configs "payments" (fun _ => ["operation"]))
    as (_ & _ & _ & Hnest).
  rewrite (Hnest _ _ Htm Hrp). reflexivity.
Defined.

(** Services with fewer layers, and a service the manager was never told
    about: the operation is called through the layers that exist. *)
Example execute_skips_missing_layers :
  Scenario.traced_execute "search" = ["retry"; "operation"; "operation"]
  ∧ Scenario.traced_execute "unknown" = ["operation"].
Proof. split; reflexivity. Qed.

(** ** Rounding of JavaScript numbers *)

Section NumberFacts.

Lemma round_half_even_near (y : Q) :
  (y - (1 # 2) <= inject_Z (round_half_even y) <= y + (1 # 2))%Q.
Proof.
  unfold round_half_even.
  pose proof (Qfloor_le y) as Hlow. pose proof (Qlt_floor y) as Hup.
  rewrite inject_Z_plus in Hup. change (inject_Z 1) with 1%Q in Hup.
  destruct (Qcompare_spec (y - inject_Z (Qfloor y)) (1 # 2))
    as [Heq | Hlt | Hgt].
  - destruct (Z.even (Qfloor y));
      [|rewrite inject_Z_plus; change (inject_Z 1) with 1%Q]; split; lra.
  - split; lra.
  - rewrite inject_Z_plus. change (inject_Z 1) with 1%Q. split; lra.
Qed.

Lemma round_half_even_le (y : Q) (M : Z) :
  (y <= inject_Z M)%Q → round_half_even y <= M.
Proof.
  intros Hle. unfold round_half_even.
  pose proof (Qfloor_le y) as Hlow.
  assert (Hfloor : Qfloor y <= M).
  { rewrite <- (Qfloor_Z M). apply Qfloor_resp_le. exact Hle. }
  destruct (Z.eq_dec (Qfloor y) M) as [Heq | Hne].
  - assert (Hfrac : (y - inject_Z (Qfloor y) < 1 # 2)%Q) by (rewrite Heq; lra).
    destruct (Qcompare_spec (y - inject_Z (Qfloor y)) (1 # 2)); [lra|lia|lra].
  - destruct (Qcompare _ _); [destruct (Z.even _)| |]; lia.
Qed.

Lemma round_half_even_ge (y : Q) (M : Z) :
  (inject_Z M <= y)%Q → M <= round_half_even y.
Proof.
  intros Hle. unfold round_half_even.
  assert (Hfloor : M <= Qfloor y).
  { rewrite <- (Qfloor_Z M). apply Qfloor_resp_le. exact Hle. }
  destruct (Qcompare _ _); [destruct (Z.even _)| |]; lia.
Qed.

Lemma two_power_pos (e : Z) : (0 < 2 ^ e)%Q.
Proof. apply Qpower_0_lt. reflexivity. Qed.

Lemma two_power_plus (a b : Z) : (2 ^ (a + b) == 2 ^ a * 2 ^ b)%Q.
Proof. apply Qpower_plus. discriminate. Qed.

Lemma two_power_Z (a : Z) : 0 <= a → (inject_Z (2 ^ a) == 2 ^ a)%Q.
Proof. intros Ha. exact (Zpower_Qpower 2 a Ha). Qed.

Lemma binade_spec (x : Q) :
  (0 < x)%Q → (2 ^ binade x <= x)%Q ∧ (x < 2 ^ (binade x + 1))%Q.
Proof.
  intros Hpos. unfold binade.
  destruct x as [p q]. cbn [Qnum Qden].
  assert (Hp : 0 < p) by (unfold Qlt in Hpos; cbn in Hpos; lia).
  rewrite (Z.abs_eq p) by lia.
  rewrite (Qabs_pos (p # q)) by (apply Qlt_le_weak; exact Hpos).
  set (a := Z.log2 p). set (b := Z.log2 (Z.pos q)).
  destruct (Z.log2_spec p Hp) as [Hpa Hpa'].
  destruct (Z.log2_spec (Z.pos q) (Pos2Z.is_pos q)) as [Hqb Hqb'].
  fold a in Hpa, Hpa'. fold b in Hqb, Hqb'.
  assert (Ha : 0 <= a) by apply Z.log2_nonneg.
  assert (Hb : 0 <= b) by apply Z.log2_nonneg.
  assert (Hx : (p # q == inject_Z p / inject_Z (Z.pos q))%Q)
    by apply Qmake_Qdiv.
  assert (Hq0 : (0 < inject_Z (Z.pos q))%Q) by reflexivity.
  (* the rational bounds of numerator and denominator *)
  assert (Hpa1 : (2 ^ a <= inject_Z p)%Q).
  { rewrite <- two_power_Z by exact Ha. rewrite <- Zle_Qle. exact Hpa. }
  assert (Hpa2 : (inject_Z p < 2 ^ (a + 1))%Q).
  { rewrite <- two_power_Z by lia. rewrite <- Zlt_Qlt.
    replace (a + 1) with (Z.succ a) by lia. exact Hpa'. }
  assert (Hqb1 : (2 ^ b <= inject_Z (Z.pos q))%Q).
  { rewrite <- two_power_Z by exact Hb. rewrite <- Zle_Qle. exact Hqb. }
  assert (Hqb2 : (inject_Z (Z.pos q) < 2 ^ (b + 1))%Q).
  { rewrite <- two_power_Z by lia. rewrite <- Zlt_Qlt.
    replace (b + 1) with (Z.succ b) by lia. exact Hqb'. }
  assert (Hupper : (p # q < 2 ^ (a - b + 1))%Q).
  { rewrite Hx. apply Qlt_shift_div_r; [exact Hq0|].
    replace (a - b + 1) with ((a + 1) + (- b)) by lia.
    rewrite two_power_plus, Qpower_opp.
    pose proof (two_power_pos b). pose proof (two_power_pos (a + 1)).
    apply Qlt_le_trans with (2 ^ (a + 1))%Q; [exact Hpa2|].
    setoid_replace (2 ^ (a + 1) * / 2 ^ b * inject_Z (Z.pos q))%Q
      with (2 ^ (a + 1) * (inject_Z (Z.pos q) / 2 ^ b))%Q
      using relation Qeq by (field; lra).
    assert (1 <= inject_Z (Z.pos q) / 2 ^ b)%Q.
    { apply Qle_shift_div_l; [assumption|]. lra. }
    nra. }
  assert (Hlower : (2 ^ (a - b - 1) < p # q)%Q).
  { rewrite Hx. apply Qlt_shift_div_l; [exact Hq0|].
    replace (a - b - 1) with (a + (- (b + 1))) by lia.
    rewrite two_power_plus, Qpower_opp.
    pose proof (two_power_pos (b + 1)). pose proof (two_power_pos a).
    apply Qlt_le_trans with (2 ^ a)%Q; [|exact Hpa1].
    setoid_replace (2 ^ a * / 2 ^ (b + 1) * inject_Z (Z.pos q))%Q
      with (2 ^ a * (inject_Z (Z.pos q) / 2 ^ (b + 1)))%Q
      using relation Qeq by (field; lra).
    assert (inject_Z (Z.pos q) / 2 ^ (b + 1) < 1)%Q.
    { apply Qlt_shift_div_r; [assumption|]. lra. }
    nra. }
  destruct (Qle_bool (2 ^ (a - b)) (p # q)) eqn:Hguess.
  - apply Qle_bool_iff in Hguess. split; [exact Hguess | exact Hupper].
  - assert (Hnot : ¬ (2 ^ (a - b) <= p # q)%Q).
    { intros H. apply Qle_bool_iff in H. congruence. }
    apply Qnot_le_lt in Hnot. split.
    + apply Qlt_le_weak. exact Hlower.
    + replace (a - b - 1 + 1) with (a - b) by lia. exact Hnot.
Qed.

Lemma binary64_zero (x : Q) : (x == 0)%Q → binary64 x = 0%Q.
Proof.
  intros Hzero. unfold binary64. apply Qeq_bool_iff in Hzero.
  rewrite Hzero. reflexivity.
Qed.

Lemma binary64_nonzero (x : Q) :
  (0 < x)%Q →
  binary64 x
  = (inject_Z (round_half_even (x / 2 ^ (binade x - 52)))
     * 2 ^ (binade x - 52))%Q.
Proof.
  intros Hpos. unfold binary64.
  destruct (Qeq_bool x 0) eqn:Hzero; [|reflexivity].
  apply Qeq_bool_iff in Hzero. lra.
Qed.

(** The scaled significand of a positive number lies in [2^52, 2^53). *)
Lemma significand_range (x : Q) :
  (0 < x)%Q →
  (inject_Z (2 ^ 52) <= x / 2 ^ (binade x - 52))%Q
  ∧ (x / 2 ^ (binade x - 52) < inject_Z (2 ^ 53))%Q.
Proof.
  intros Hpos. destruct (binade_spec x Hpos) as [Hlow Hup].
  pose proof (two_power_pos (binade x - 52)) as Hulp.
  rewrite !two_power_Z by lia.
  replace (binade x) with (52 + (binade x - 52)) in Hlow at 1 by lia.
  replace (binade x + 1) with (53 + (binade x - 52)) in Hup by lia.
  rewrite two_power_plus in Hlow, Hup.
  split.
  - apply Qle_shift_div_l; assumption.
  - apply Qlt_shift_div_r; assumption.
Qed.

Lemma binary64_relative (x : Q) :
  (0 < x)%Q →
  (x * (1 - 2 ^ (-53)) <= binary64 x)%Q
  ∧ (binary64 x <= x * (1 + 2 ^ (-53)))%Q.
Proof.
  intros Hpos. rewrite (binary64_nonzero x Hpos).
  destruct (significand_range x Hpos) as [Hlow _].
  pose proof (two_power_pos (binade x - 52)) as Hulp.
  set (ulp := (2 ^ (binade x - 52))%Q) in *.
  pose proof (round_half_even_near (x / ulp)) as [Hnear1 Hnear2].
  set (m := inject_Z (round_half_even (x / ulp))) in *.
  assert (Hx : (x == x / ulp * ulp)%Q) by (field; lra).
  assert (Hhalf : (ulp * (1 # 2) <= x * 2 ^ (-53))%Q).
  { assert (H52 : (inject_Z (2 ^ 52) * 2 ^ (-53) == 1 # 2)%Q) by reflexivity.
    assert (Hscaled : (inject_Z (2 ^ 52) * ulp <= x)%Q).
    { apply Qle_trans with (x / ulp * ulp)%Q;
        [apply Qmult_le_compat_r; [exact Hlow | lra]|].
      rewrite <- Hx. apply Qle_refl. }
    assert (Hp : (0 < 2 ^ (-53))%Q) by apply two_power_pos.
    setoid_replace (ulp * (1 # 2))%Q
      with (inject_Z (2 ^ 52) * ulp * 2 ^ (-53))%Q using relation Qeq.
    - apply Qmult_le_compat_r; [exact Hscaled | lra].
    - rewrite <- H52. ring. }
  assert (Hm1 : ((x / ulp - (1 # 2)) * ulp <= m * ulp)%Q)
    by (apply Qmult_le_compat_r; lra).
  assert (Hm2 : (m * ulp <= (x / ulp + (1 # 2)) * ulp)%Q)
    by (apply Qmult_le_compat_r; lra).
  assert (He1 : ((x / ulp - (1 # 2)) * ulp == x - ulp * (1 # 2))%Q)
    by (field; lra).
  assert (He2 : ((x / ulp + (1 # 2)) * ulp == x + ulp * (1 # 2))%Q)
    by (field; lra).
  rewrite He1 in Hm1. rewrite He2 in Hm2.
  split; lra.
Qed.

Lemma binary64_pos (x : Q) : (0 < x)%Q → (0 < binary64 x)%Q.
Proof.
  intros Hpos. rewrite (binary64_nonzero x Hpos).
  destruct (significand_range x Hpos) as [Hlow _].
  pose proof (two_power_pos (binade x - 52)) as Hulp.
  apply round_half_even_ge in Hlow.
  assert (Hm : (0 < inject_Z (round_half_even (x / 2 ^ (binade x - 52))))%Q).
  { change 0%Q with (inject_Z 0). rewrite <- Zlt_Qlt.
    assert (0 < 2 ^ 52) by reflexivity. lia. }
  nra.
Qed.

(** Rounding never crosses an integer below 2^53. *)
Lemma binary64_le_integer (x : Q) (M : Z) :
  (0 < x)%Q → (x <= inject_Z M)%Q → M < 2 ^ 53 →
  (binary64 x <= inject_Z M)%Q.
Proof.
  intros Hpos Hle Hsmall. rewrite (binary64_nonzero x Hpos).
  destruct (binade_spec x Hpos) as [Hlow _].
  pose proof (two_power_pos (binade x - 52)) as Hulp.
  assert (Hbinade : binade x < 53).
  { apply (Qpower_lt_compat_l_inv 2); [|reflexivity].
    apply Qle_lt_trans with x; [exact Hlow|].
    apply Qle_lt_trans with (inject_Z M); [exact Hle|].
    rewrite <- two_power_Z by lia. rewrite <- Zlt_Qlt. exact Hsmall. }
  set (e := binade x - 52) in *.
  assert (Hscale : (2 ^ (- e) == inject_Z (2 ^ (- e)))%Q)
    by (rewrite two_power_Z by lia; reflexivity).
  assert (Hinv : (2 ^ e * 2 ^ (- e) == 1)%Q).
  { rewrite <- two_power_plus. replace (e + - e) with 0 by lia. reflexivity. }
  assert (Hy : (x / 2 ^ e <= inject_Z (M * 2 ^ (- e)))%Q).
  { rewrite inject_Z_mult, <- Hscale.
    apply Qle_shift_div_r; [exact Hulp|].
    setoid_replace (inject_Z M * 2 ^ (- e) * 2 ^ e)%Q
      with (inject_Z M * (2 ^ e * 2 ^ (- e)))%Q using relation Qeq by ring.
    rewrite Hinv. lra. }
  apply round_half_even_le in Hy.
  rewrite Zle_Qle in Hy.
  rewrite inject_Z_mult, <- Hscale in Hy.
  assert (Hm : (inject_Z (round_half_even (x / 2 ^ e)) * 2 ^ e
                <= inject_Z M * 2 ^ (- e) * 2 ^ e)%Q)
    by (apply Qmult_le_compat_r; lra).
  setoid_replace (inject_Z M * 2 ^ (- e) * 2 ^ e)%Q
    with (inject_Z M * (2 ^ e * 2 ^ (- e)))%Q
    using relation Qeq in Hm by ring.
  rewrite Hinv in Hm. lra.
Qed.

(** A percentage computed as [(f / n) * 100], each operation rounded. *)
Lemma percentage_rounded_twice (f s : Z) :
  0 <= f → 0 <= s → f + s ≠ 0 →
  let rate := binary64 (binary64 (inject_Z f / inject_Z (f + s)) * 100) in
  let percentage := (100 * inject_Z f / inject_Z (f + s))%Q in
  (percentage * (1 - (2 ^ (-52) + 2 ^ (-106))) <= rate)%Q
  ∧ (rate <= percentage * (1 + (2 ^ (-52) + 2 ^ (-106))))%Q.
Proof.
  intros Hf Hs Hnz. cbv zeta.
  assert (Hn : (0 < inject_Z (f + s))%Q).
  { change 0%Q with (inject_Z 0). rewrite <- Zlt_Qlt. lia. }
  set (n := inject_Z (f + s)) in *.
  assert (Heps : (2 ^ (-52) + 2 ^ (-106)
                  == 2 * 2 ^ (-53) + 2 ^ (-53) * 2 ^ (-53))%Q) by reflexivity.
  assert (Hu : (0 < 2 ^ (-53))%Q) by apply two_power_pos.
  assert (Hu1 : (2 ^ (-53) < 1)%Q) by reflexivity.
  rewrite Heps. set (u := (2 ^ (-53))%Q) in *.
  destruct (Z.eq_dec f 0) as [-> | Hpos].
  - assert (Hzero : (inject_Z 0 / n == 0)%Q) by (field; lra).
    rewrite (binary64_zero _ Hzero).
    rewrite (binary64_zero (0 * 100)) by reflexivity.
    setoid_replace (100 * inject_Z 0 / n)%Q with 0%Q
      using relation Qeq by (field; lra).
    split; lra.
  - assert (Hq : (0 < inject_Z f / n)%Q).
    { apply Qlt_shift_div_l; [exact Hn|].
      setoid_replace (0 * n)%Q with (inject_Z 0) using relation Qeq by ring.
      rewrite <- Zlt_Qlt. lia. }
    set (q := (inject_Z f / n)%Q) in *.
    destruct (binary64_relative q Hq) as [Hq1 Hq2].
    pose proof (binary64_pos q Hq) as Hr1.
    set (r1 := binary64 q) in *.
    assert (Hx : (0 < r1 * 100)%Q) by lra.
    destruct (binary64_relative (r1 * 100) Hx) as [Hr2 Hr3].
    fold u in Hq1, Hq2, Hr2, Hr3.
    set (r := binary64 (r1 * 100)) in *.
    setoid_replace (100 * inject_Z f / n)%Q with (100 * q)%Q
      using relation Qeq by (unfold q; field; lra).
    split; nra.
Qed.

End NumberFacts.

(** The rounding agrees with the floating-point unit on the error rate
    [(f / (f + s)) * 100] of every breaker with 1000 calls behind it. *)
Definition float_of_counter (n : Z) : PrimFloat.float :=
  PrimFloat.of_uint63 (Uint63.of_Z n).

Fixpoint rates_agree_from (f : Z) (cases : nat) : bool :=
  match cases with
  | O => true
  | S cases' =>
      match Q_of_float
              (PrimFloat.mul
                 (PrimFloat.div (float_of_counter f) (float_of_counter 1000))
                 (float_of_counter 100)) with
      | Some rate =>
          Qeq_bool rate (binary64 (binary64 (inject_Z f / 1000) * 100))
      | None => false
      end
      && rates_agree_from (f + 1) cases'
  end.

Example binary64_agrees_with_the_floating_point_unit :
  rates_agree_from 1 1000 = true.
Proof. vm_compute. reflexivity. Qed.

(** ** ResilienceManager: health *)

Section HealthFacts.
Import Contracts Observability Observability.ResilienceManager.

Lemma determineStatus_cases (m : CircuitBreakerMetrics) :
  (state m = OPEN → determineStatus (Some m) = unhealthy)
  ∧ (state m = HALF_OPEN → determineStatus (Some m) = degraded)
  ∧ (state m = CLOSED → 0 < failureCount m →
     determineStatus (Some m) = degraded)
  ∧ (state m = CLOSED → failureCount m <= 0 →
     determineStatus (Some m) = healthy).
Proof.
  unfold determineStatus. repeat split; intros Hs; rewrite Hs; try reflexivity.
  - intros Hpos. apply Z.ltb_lt in Hpos. rewrite Hpos. reflexivity.
  - intros Hle. destruct (Z.ltb_spec 0 (failureCount m)); [lia|reflexivity].
Qed.

(** C4, as amended.  For every service with a circuit breaker,
    [getServiceHealth] reports [unhealthy] for an OPEN breaker, [degraded]
    for a HALF_OPEN one and for a CLOSED one with [failureCount > 0], and
    [healthy] otherwise.  The reported [errorRate] is [0] when the two
    counters add up to zero; otherwise it is the percentage
    [(failureCount / (failureCount + successCount)) * 100] as
    floating-point arithmetic evaluates it, the quotient rounded and then
    the product rounded, which for counters that are not negative lies
    within the relative distance [2^-52 + 2^-106] of the exact
    [100 * failureCount / (failureCount + successCount)]. *)
Theorem getServiceHealth_status_and_percentage
    (this : ResilienceManager.t) (now : Z) (service : string)
    (cb : CircuitBreakerObject) :
  circuitBreakers this !! service = Some cb →
  let m := CircuitBreaker.getMetrics (cb_fields cb) in
  let health := getServiceHealth this now service in
  (state m = OPEN → status health = unhealthy)
  ∧ (state m = HALF_OPEN → status health = degraded)
  ∧ (state m = CLOSED → 0 < failureCount m → status health = degraded)
  ∧ (state m = CLOSED → failureCount m <= 0 → status health = healthy)
  ∧ (failureCount m + successCount m ≠ 0 →
     errorRate health
     = binary64
         (binary64 (inject_Z (failureCount m)
                    / inject_Z (failureCount m + successCount m))
          * 100))
  ∧ (0 <= failureCount m → 0 <= successCount m →
     failureCount m + successCount m ≠ 0 →
     let percentage :=
       (100 * inject_Z (failureCount m)
        / inject_Z (failureCount m + successCount m))%Q in
     (percentage * (1 - (2 ^ (-52) + 2 ^ (-106))) <= errorRate health)%Q
     ∧ (errorRate health <= percentage * (1 + (2 ^ (-52) + 2 ^ (-106))))%Q)
  ∧ (failureCount m + successCount m = 0 → errorRate health = 0%Q)
  ∧ (failureCount m = 0 → successCount m = 0 → errorRate health = 0%Q).
Proof.
  intros Hcb m health. subst health. unfold getServiceHealth. rewrite Hcb.
  cbn [status errorRate]. fold m.
  destruct (determineStatus_cases m) as (H1 & H2 & H3 & H4).
  assert (Hrate : failureCount m + successCount m ≠ 0 →
    calculateErrorRate (Some m)
    = binary64
        (binary64 (inject_Z (failureCount m)
                   / inject_Z (failureCount m + successCount m))
         * 100)).
  { intros Hnz. unfold calculateErrorRate.
    destruct (Z.eqb_spec (failureCount m + successCount m) 0);
      [contradiction | reflexivity]. }
  split; [exact H1|]. split; [exact H2|]. split; [exact H3|].
  split; [exact H4|]. split; [exact Hrate|]. split; [|split].
  - intros Hf Hs Hnz. rewrite (Hrate Hnz).
    exact (percentage_rounded_twice _ _ Hf Hs Hnz).
  - intros Hz. unfold calculateErrorRate. rewrite Hz. reflexivity.
  - intros Hf Hs. unfold calculateErrorRate. rewrite Hf, Hs. reflexivity.
Qed.

End HealthFacts.

(** C4, counterexample.  A breaker that has seen one failure and one success
    reports an error rate of 50, not of 1/2. *)
Lemma errorRate_is_not_the_fraction :
  let fields :=
    fields_after
      (Scenario.observability_call (Scenario.failing_on [0%nat])
         (Scenario.observability_first (Scenario.failing_on [0%nat]))) in
  let health :=
    Observability.ResilienceManager.getServiceHealth
      (Scenario.manager_with_breaker fields) 5000 "payments" in
  Contracts.failureCount fields = 1
  ∧ Contracts.successCount fields = 1
  ∧ (Contracts.errorRate health == 50)%Q
  ∧ ¬ (Contracts.errorRate health
        == inject_Z (Contracts.failureCount fields)
           / inject_Z (Contracts.failureCount fields
                       + Contracts.successCount fields))%Q.
Proof.
  vm_compute. repeat split; try reflexivity. intros H. discriminate H.
Qed.

(** A breaker with 7 failures and 93 successes behind it: the report reads
    7.000000000000001, one unit in the last place above 7. *)
Lemma getServiceHealth_witness :
  let health :=
    Observability.ResilienceManager.getServiceHealth
      (Scenario.manager_with_breaker Scenario.seven_in_a_hundred) 5000
      "payments" in
  Contracts.status health = Contracts.unhealthy
  ∧ (Contracts.errorRate health == 7 + 2 ^ (-50))%Q
  ∧ (100 * inject_Z 7 / inject_Z (7 + 93) * (1 - (2 ^ (-52) + 2 ^ (-106)))
     <= Contracts.errorRate health)%Q
  ∧ (Contracts.errorRate health
     <= 100 * inject_Z 7 / inject_Z (7 + 93)
        * (1 + (2 ^ (-52) + 2 ^ (-106))))%Q.
Proof.
  intros health.
  pose proof (getServiceHealth_status_and_percentage
                (Scenario.manager_with_breaker Scenario.seven_in_a_hundred)
                5000 "payments"
                {| Observability.ResilienceManager.cb_config :=
                     Scenario.breaker_config;
                   Observability.ResilienceManager.cb_fields :=
                     Scenario.seven_in_a_hundred |}
                eq_refl) as H.
  destruct H as (Hopen & _ & _ & _ & Hrate & Hnear & _).
  assert (Hf : 0 <= Contracts.failureCount Scenario.seven_in_a_hundred)
    by (vm_compute; discriminate).
  assert (Hs : 0 <= Contracts.successCount Scenario.seven_in_a_hundred)
    by (vm_compute; discriminate).
  assert (Hnz : Contracts.failureCount Scenario.seven_in_a_hundred
                + Contracts.successCount Scenario.seven_in_a_hundred ≠ 0)
    by (vm_compute; discriminate).
  split; [apply Hopen; reflexivity|]. split.
  - fold health in Hrate. rewrite (Hrate Hnz). vm_compute. reflexivity.
  - exact (Hnear Hf Hs Hnz).
Defined.

(** ** Circuit breakers *)

Lemma or_default_Some_0 (t : Z) : or_default (Some t) 0 = t.
Proof. unfold or_default. destruct (Z.eqb_spec t 0); congruence. Qed.

Section ObservabilityBreakerFacts.
Import Contracts Observability.CircuitBreaker.
Context {T : Type}.
Variable config : CircuitBreakerConfig.

(** A success on a CLOSED breaker of resilience.ts counts the success and
    leaves [failureCount] as it was. *)
Lemma observability_closed_success_keeps_failureCount
    (operation : Op T) (cb : t) (w w' : World) (v : T) :
  state cb = CLOSED →
  operation w = (Resolved v, w') →
  let cb' := fields_after (execute config operation cb w) in
  state cb' = CLOSED ∧ failureCount cb' = failureCount cb
  ∧ successCount cb' = successCount cb + 1.
Proof.
  intros Hs Hop. unfold execute, gate. rewrite Hs, Hop.
  unfold fields_after, onSuccess. simpl. rewrite Hs. simpl. auto.
Qed.

(** A failure on a CLOSED breaker counts the failure; reaching the threshold
    opens the breaker with [nextRetryTime = now + resetTimeout]. *)
Lemma observability_closed_failure
    (operation : Op T) (cb : t) (w w' : World) (e : JsError) :
  state cb = CLOSED →
  operation w = (Rejected e, w') →
  let result := execute config operation cb w in
  let cb' := fields_after result in
  settled result = Rejected e
  ∧ failureCount cb' = failureCount cb + 1
  ∧ (failureThreshold config <= failureCount cb + 1 →
     state cb' = OPEN
     ∧ nextRetryTime cb' = Some (clock w' + resetTimeout config))
  ∧ (failureCount cb + 1 < failureThreshold config → state cb' = CLOSED).
Proof.
  intros Hs Hop. unfold execute, gate. rewrite Hs, Hop.
  unfold fields_after, settled, onFailure. simpl.
  destruct (Z.leb_spec (failureThreshold config) (failureCount cb + 1));
    simpl; repeat split; auto; lia.
Qed.

(** While OPEN and before [nextRetryTime], a call is rejected at the gate:
    whatever the operation, the result does not depend on it and neither
    the breaker nor the world has moved. *)
Lemma observability_open_rejects
    (operation : Op T) (cb : t) (w : World) (retryAt : Z) :
  state cb = OPEN →
  nextRetryTime cb = Some retryAt →
  clock w < retryAt →
  execute config operation cb w
  = (Rejected (Error "Circuit breaker is OPEN"), cb, w).
Proof.
  intros Hs Hn Hlt. unfold execute, gate. rewrite Hs, Hn, or_default_Some_0.
  destruct (Z.leb_spec retryAt (clock w)); [lia|reflexivity].
Qed.

(** In HALF_OPEN a single success closes the breaker of resilience.ts. *)
Lemma observability_half_open_closes_on_first_success
    (operation : Op T) (cb : t) (w w' : World) (v : T) :
  state cb = HALF_OPEN →
  operation w = (Resolved v, w') →
  let cb' := fields_after (execute config operation cb w) in
  state cb' = CLOSED ∧ failureCount cb' = 0
  ∧ successCount cb' = successCount cb + 1.
Proof.
  intros Hs Hop. unfold execute, gate. rewrite Hs, Hop.
  unfold fields_after, onSuccess. simpl. rewrite Hs. simpl. auto.
Qed.

(** The same holds of the breaker of resilience.ts. *)
Lemma observability_consecutive_failures_open (operation : Op T)
    (between : World -> World) (n : nat) (cb : t) (w : World) :
  (∀ w0, ∃ e w1, operation w0 = (Rejected e, w1)) →
  state cb = CLOSED →
  0 <= failureCount cb →
  (1 <= n)%nat →
  failureCount cb + Z.of_nat n = failureThreshold config →
  let '(cb', w') := execute_times config operation between n cb w in
  state cb' = OPEN
  ∧ failureCount cb' = failureThreshold config
  ∧ nextRetryTime cb' = Some (clock w' + resetTimeout config).
Proof.
  intros Hfails. revert cb w.
  induction n as [|n IH]; intros cb w Hs Hk Hn Hsum; [lia|].
  cbn [execute_times].
  destruct (Hfails (between w)) as (e & w1 & Hop).
  destruct (observability_closed_failure operation cb (between w) w1 e Hs Hop)
    as (_ & Hcount & Hopen & Hclosed).
  destruct (execute config operation cb (between w)) as [[r cb1] w1'] eqn:Hex.
  assert (Hw : w1' = w1).
  { unfold execute, gate in Hex. rewrite Hs, Hop in Hex.
    injection Hex as _ _ Hw. symmetry. exact Hw. }
  subst w1'. unfold fields_after in *. simpl in *.
  destruct n as [|n].
  - simpl. destruct (Hopen ltac:(lia)) as [Hst Hnext].
    repeat split; [exact Hst | lia | exact Hnext].
  - apply IH; [apply Hclosed; lia | lia | lia | lia].
Qed.

End ObservabilityBreakerFacts.

Section PatternBreakerFacts.
Import Patterns Patterns.CircuitBreaker.
Context {A T : Type}.
Variable this : Settings.
Variable operation : A -> Op T.

Lemma shouldAttemptReset_nextRetryTime (now : Z) (cb : t) :
  shouldAttemptReset this now cb = (nextRetryTime this cb <=? now).
Proof.
  unfold shouldAttemptReset, nextRetryTime.
  destruct (Z.leb_spec (resetTimeout this) (now - lastFailureTime cb));
    destruct (Z.leb_spec (lastFailureTime cb + resetTimeout this) now);
    auto; lia.
Qed.

Lemma pattern_closed_success (args : A) (cb : t) (w w' : World) (v : T) :
  state cb = CLOSED →
  operation args w = (Resolved v, w') →
  let cb' := fields_after (execute this operation args cb w) in
  state cb' = CLOSED ∧ failureCount cb' = 0.
Proof.
  intros Hs Hop. unfold execute, gate. rewrite Hs, Hop.
  unfold fields_after, onSuccess. simpl. rewrite Hs. simpl. auto.
Qed.

Lemma pattern_closed_failure (args : A) (cb : t) (w w' : World) (e : JsError) :
  state cb = CLOSED →
  operation args w = (Rejected e, w') →
  let result := execute this operation args cb w in
  let cb' := fields_after result in
  settled result = Rejected e
  ∧ failureCount cb' = failureCount cb + 1
  ∧ (failureThreshold this <= failureCount cb + 1 →
     state cb' = OPEN
     ∧ nextRetryTime this cb' = clock w' + resetTimeout this)
  ∧ (failureCount cb + 1 < failureThreshold this → state cb' = CLOSED).
Proof.
  intros Hs Hop. unfold execute, gate. rewrite Hs, Hop.
  unfold fields_after, settled, onFailure, nextRetryTime. simpl. rewrite Hs.
  destruct (Z.leb_spec (failureThreshold this) (failureCount cb + 1));
    simpl; repeat split; auto; lia.
Qed.

Lemma pattern_open_rejects (args : A) (cb : t) (w : World) :
  state cb = OPEN →
  clock w < nextRetryTime this cb →
  execute this operation args cb w = (Rejected (openError this), cb, w).
Proof.
  intros Hs Hlt. unfold execute, gate.
  rewrite Hs, shouldAttemptReset_nextRetryTime.
  destruct (Z.leb_spec (nextRetryTime this cb) (clock w)); [lia|reflexivity].
Qed.

(** The fields an OPEN breaker proceeds with once the reset timeout has
    elapsed. *)
Lemma pattern_open_admits (args : A) (cb : t) (w : World) :
  state cb = OPEN →
  nextRetryTime this cb <= clock w →
  gate this (clock w) cb
  = inl {| state := HALF_OPEN; failureCount := failureCount cb;
           lastFailureTime := lastFailureTime cb; successCount := 0 |}.
Proof.
  intros Hs Hle. unfold gate. rewrite Hs, shouldAttemptReset_nextRetryTime.
  destruct (Z.leb_spec (nextRetryTime this cb) (clock w)); [reflexivity|lia].
Qed.

Lemma pattern_half_open_success (args : A) (cb : t) (w w' : World) (v : T) :
  state cb = HALF_OPEN →
  operation args w = (Resolved v, w') →
  execute this operation args cb w
  = (Resolved v,
     {| state := if 3 <=? successCount cb + 1 then CLOSED else HALF_OPEN;
        failureCount := 0;
        lastFailureTime := lastFailureTime cb;
        successCount := successCount cb + 1 |},
     w').
Proof.
  intros Hs Hop. unfold execute, gate. rewrite Hs, Hop.
  unfold onSuccess. rewrite Hs. reflexivity.
Qed.

Lemma pattern_half_open_failure (args : A) (cb : t) (w w' : World) (e : JsError) :
  state cb = HALF_OPEN →
  operation args w = (Rejected e, w') →
  execute this operation args cb w
  = (Rejected e,
     {| state := OPEN; failureCount := failureCount cb + 1;
        lastFailureTime := clock w'; successCount := successCount cb |},
     w').
Proof.
  intros Hs Hop. unfold execute, gate. rewrite Hs, Hop.
  unfold onFailure. rewrite Hs. reflexivity.
Qed.

(** [failureThreshold] failures in a row open a CLOSED breaker that had
    counted none, and set the retry instant [resetTimeout] after the last
    of them. *)
Lemma pattern_consecutive_failures_open (args : A)
    (between : World -> World) (n : nat) (cb : t) (w : World) :
  (∀ a w0, ∃ e w1, operation a w0 = (Rejected e, w1)) →
  state cb = CLOSED →
  0 <= failureCount cb →
  (1 <= n)%nat →
  failureCount cb + Z.of_nat n = failureThreshold this →
  let '(cb', w') := execute_times this operation args between n cb w in
  state cb' = OPEN
  ∧ failureCount cb' = failureThreshold this
  ∧ nextRetryTime this cb' = clock w' + resetTimeout this.
Proof.
  intros Hfails. revert cb w.
  induction n as [|n IH]; intros cb w Hs Hk Hn Hsum; [lia|].
  cbn [execute_times].
  destruct (Hfails args (between w)) as (e & w1 & Hop).
  destruct (pattern_closed_failure args cb (between w) w1 e Hs Hop)
    as (_ & Hcount & Hopen & Hclosed).
  destruct (execute this operation args cb (between w)) as [[r cb1] w1'] eqn:Hex.
  assert (Hw : w1' = w1).
  { unfold execute, gate in Hex. rewrite Hs, Hop in Hex.
    injection Hex as _ _ Hw. symmetry. exact Hw. }
  subst w1'. unfold fields_after in *. simpl in *.
  destruct n as [|n].
  - simpl. destruct (Hopen ltac:(lia)) as [Hst Hnext].
    repeat split; [exact Hst | lia | exact Hnext].
  - apply IH; [apply Hclosed; lia | lia | lia | lia].
Qed.

End PatternBreakerFacts.

Section PatternBreakerRecovery.
Import Patterns Patterns.CircuitBreaker.
Context {A T : Type}.
Variable this : Settings.
Variable operation : A -> Op T.

(** Pattern-library breaker.  An OPEN breaker whose reset
    timeout has elapsed admits the next call as a HALF_OPEN breaker with
    [successCount = 0]; three successful calls in a row then leave it
    HALF_OPEN, HALF_OPEN and finally CLOSED with [failureCount = 0], the
    success counter standing at 1, 2 and 3 (it is not zeroed on closing).  A
    failing call made in HALF_OPEN, the admitted call included, puts the
    breaker back to OPEN and restarts the reset timeout from the instant of
    that failure, so that calls before it elapses are rejected without the
    operation being run. *)
Lemma pattern_half_open_recovery :
  (∀ (cb : t) (a1 a2 a3 : A) (w0 w1 w1' w2 w2' w3 : World) (v1 v2 v3 : T),
     state cb = OPEN →
     nextRetryTime this cb <= clock w0 →
     operation a1 w0 = (Resolved v1, w1) →
     operation a2 w1' = (Resolved v2, w2) →
     operation a3 w2' = (Resolved v3, w3) →
     let r1 := execute this operation a1 cb w0 in
     let r2 := execute this operation a2 (fields_after r1) w1' in
     let r3 := execute this operation a3 (fields_after r2) w2' in
     gate this (clock w0) cb
     = inl {| state := HALF_OPEN; failureCount := failureCount cb;
              lastFailureTime := lastFailureTime cb; successCount := 0 |}
     ∧ settled r1 = Resolved v1
     ∧ state (fields_after r1) = HALF_OPEN
     ∧ successCount (fields_after r1) = 1
     ∧ settled r2 = Resolved v2
     ∧ state (fields_after r2) = HALF_OPEN
     ∧ successCount (fields_after r2) = 2
     ∧ settled r3 = Resolved v3
     ∧ state (fields_after r3) = CLOSED
     ∧ failureCount (fields_after r3) = 0
     ∧ successCount (fields_after r3) = 3)
  ∧ (∀ (cb : t) (a : A) (w w' : World) (e : JsError),
       state cb = HALF_OPEN
       ∨ (state cb = OPEN ∧ nextRetryTime this cb <= clock w) →
       operation a w = (Rejected e, w') →
       let r := execute this operation a cb w in
       settled r = Rejected e
       ∧ state (fields_after r) = OPEN
       ∧ nextRetryTime this (fields_after r) = clock w' + resetTimeout this
       ∧ ∀ (a' : A) (w'' : World),
           clock w'' < clock w' + resetTimeout this →
           execute this operation a' (fields_after r) w''
           = (Rejected (openError this), fields_after r, w'')).
Proof.
  split.
  - intros cb a1 a2 a3 w0 w1 w1' w2 w2' w3 v1 v2 v3 Hs Hle H1 H2 H3 r1 r2 r3.
    pose proof (pattern_open_admits this a1 cb w0 Hs Hle) as Hgate.
    assert (Hr1 : r1 = (Resolved v1,
                        {| state := HALF_OPEN; failureCount := 0;
                           lastFailureTime := lastFailureTime cb;
                           successCount := 1 |}, w1)).
    { subst r1. unfold execute. rewrite Hgate, H1. reflexivity. }
    assert (Hr2 : r2 = (Resolved v2,
                        {| state := HALF_OPEN; failureCount := 0;
                           lastFailureTime := lastFailureTime cb;
                           successCount := 2 |}, w2)).
    { subst r2. rewrite Hr1. unfold fields_after. simpl.
      rewrite (pattern_half_open_success this operation a2
                 {| state := HALF_OPEN; failureCount := 0;
                    lastFailureTime := lastFailureTime cb;
                    successCount := 1 |} w1' w2 v2 eq_refl H2).
      reflexivity. }
    assert (Hr3 : r3 = (Resolved v3,
                        {| state := CLOSED; failureCount := 0;
                           lastFailureTime := lastFailureTime cb;
                           successCount := 3 |}, w3)).
    { subst r3. rewrite Hr2. unfold fields_after. simpl.
      rewrite (pattern_half_open_success this operation a3
                 {| state := HALF_OPEN; failureCount := 0;
                    lastFailureTime := lastFailureTime cb;
                    successCount := 2 |} w2' w3 v3 eq_refl H3).
      reflexivity. }
    rewrite Hr1, Hr2, Hr3. repeat split; assumption || reflexivity.
  - intros cb a w w' e Hstate Hop r.
    assert (Hr : r = (Rejected e,
                      {| state := OPEN; failureCount := failureCount cb + 1;
                         lastFailureTime := clock w';
                         successCount :=
                           match state cb with
                           | HALF_OPEN => successCount cb
                           | _ => 0
                           end |}, w')).
    { subst r. destruct Hstate as [Hs | [Hs Hle]].
      - rewrite (pattern_half_open_failure this operation a cb w w' e Hs Hop).
        rewrite Hs. reflexivity.
      - unfold execute. rewrite (pattern_open_admits this a cb w Hs Hle), Hop.
        rewrite Hs. reflexivity. }
    rewrite Hr. unfold settled, fields_after. simpl.
    repeat split.
    intros a' w'' Hlt. apply pattern_open_rejects; [reflexivity|].
    unfold nextRetryTime. simpl. exact Hlt.
Qed.

End PatternBreakerRecovery.

(** Closes a goal that assumes a breaker shown CLOSED is not. *)
Ltac still_closed :=
  let Hn := fresh "Hn" in intros Hn; exfalso; apply Hn; reflexivity.

Section ObservabilityBreakerRecovery.
Import Contracts Observability.CircuitBreaker.
Context {T : Type}.
Variable config : CircuitBreakerConfig.

(** A breaker of resilience.ts that is not CLOSED has counted at least
    [failureThreshold] failures and has its retry instant set. *)
Lemma observability_reachable_invariant (cb : t) :
  reachable (T := T) config cb →
  state cb ≠ CLOSED →
  failureThreshold config <= failureCount cb
  ∧ ∃ retryAt, nextRetryTime cb = Some retryAt.
Proof.
  induction 1 as [|operation cb w Hreach IH]; [still_closed|].
  unfold execute, gate, fields_after.
  destruct (state cb) eqn:Hs.
  - destruct (operation w) as [[v | e] w']; simpl.
    + unfold onSuccess. rewrite Hs. simpl. still_closed.
    + unfold onFailure.
      destruct (Z.leb_spec (failureThreshold config) (failureCount cb + 1));
        simpl; [intros _; split; [lia|eauto]|].
      rewrite Hs. still_closed.
  - destruct IH as [Hcount [retryAt Hnext]]; [discriminate|].
    destruct (or_default (nextRetryTime cb) 0 <=? clock w); simpl.
    + destruct (operation w) as [[v | e] w']; simpl.
      * still_closed.
      * unfold onFailure. simpl.
        destruct (Z.leb_spec (failureThreshold config) (failureCount cb + 1));
          simpl; intros _; split; try lia; eauto.
    + intros _. split; [exact Hcount|eauto].
  - destruct IH as [Hcount [retryAt Hnext]]; [discriminate|].
    destruct (operation w) as [[v | e] w']; simpl.
    + unfold onSuccess. rewrite Hs. simpl. still_closed.
    + unfold onFailure.
      destruct (Z.leb_spec (failureThreshold config) (failureCount cb + 1));
        simpl; intros _; split; try lia; eauto.
Qed.

(** Breaker of resilience.ts: admission of an OPEN breaker at its retry
    instant, and the return to OPEN on a failure in HALF_OPEN. *)
Lemma observability_half_open_admission_and_failure (cb : t) :
  reachable (T := T) config cb →
  (∀ w, state cb = OPEN →
        or_default (nextRetryTime cb) 0 <= clock w →
        gate (clock w) cb
        = inl {| state := HALF_OPEN; failureCount := failureCount cb;
                 successCount := successCount cb;
                 lastFailureTime := lastFailureTime cb;
                 lastSuccessTime := lastSuccessTime cb;
                 nextRetryTime := nextRetryTime cb |})
  ∧ (∀ (operation : Op T) (w w' : World) (e : JsError),
       state cb = HALF_OPEN
       ∨ (state cb = OPEN ∧ or_default (nextRetryTime cb) 0 <= clock w) →
       operation w = (Rejected e, w') →
       let r := execute config operation cb w in
       settled r = Rejected e
       ∧ state (fields_after r) = OPEN
       ∧ nextRetryTime (fields_after r)
         = Some (clock w' + resetTimeout config)
       ∧ ∀ (again : Op T) (w'' : World),
           clock w'' < clock w' + resetTimeout config →
           execute config again (fields_after r) w''
           = (Rejected (Error "Circuit breaker is OPEN"), fields_after r, w'')).
Proof.
  intros Hreach. split.
  - intros w Hs Hle. unfold gate. rewrite Hs.
    destruct (Z.leb_spec (or_default (nextRetryTime cb) 0) (clock w));
      [reflexivity|lia].
  - intros operation w w' e Hstate Hop r.
    assert (Hcount : failureThreshold config <= failureCount cb).
    { apply (observability_reachable_invariant cb Hreach).
      destruct Hstate as [Hs | [Hs _]]; rewrite Hs; discriminate. }
    assert (Hr : r = (Rejected e,
                      {| state := OPEN; failureCount := failureCount cb + 1;
                         successCount := successCount cb;
                         lastFailureTime := Some (clock w');
                         lastSuccessTime := lastSuccessTime cb;
                         nextRetryTime :=
                           Some (clock w' + resetTimeout config) |}, w')).
    { subst r. unfold execute, gate.
      destruct Hstate as [Hs | [Hs Hle]]; rewrite Hs.
      - rewrite Hop. unfold onFailure.
        destruct (Z.leb_spec (failureThreshold config) (failureCount cb + 1));
          [reflexivity|lia].
      - destruct (Z.leb_spec (or_default (nextRetryTime cb) 0) (clock w));
          [|lia].
        rewrite Hop. unfold onFailure. simpl.
        destruct (Z.leb_spec (failureThreshold config) (failureCount cb + 1));
          [reflexivity|lia]. }
    rewrite Hr. unfold settled, fields_after. simpl. repeat split.
    intros again w'' Hlt.
    apply (observability_open_rejects config again _ w''
             (clock w' + resetTimeout config)); [reflexivity|reflexivity|].
    exact Hlt.
Qed.

End ObservabilityBreakerRecovery.

(** C3, as amended.  In both libraries an OPEN breaker whose reset timeout
    has elapsed admits the next call as a HALF_OPEN breaker, and a failing
    call made in HALF_OPEN, the admitted call included, puts the breaker
    back to OPEN and restarts the reset timeout from the instant of that
    failure, so that calls before it elapses are rejected without the
    operation being run.  In the pattern library the admitted breaker
    starts with [successCount = 0], and three successful calls in a row
    leave it HALF_OPEN, HALF_OPEN and finally CLOSED with
    [failureCount = 0], the success counter standing at 1, 2 and 3: it is
    not zeroed on closing. *)
Theorem half_open_recovery {A T : Type} :
  (∀ (this : Patterns.CircuitBreaker.Settings) (operation : A -> Op T),
     (∀ (cb : Patterns.CircuitBreaker.t) (a1 a2 a3 : A)
        (w0 w1 w1' w2 w2' w3 : World) (v1 v2 v3 : T),
        Patterns.CircuitBreaker.state cb = Patterns.OPEN →
        Patterns.CircuitBreaker.nextRetryTime this cb <= clock w0 →
        operation a1 w0 = (Resolved v1, w1) →
        operation a2 w1' = (Resolved v2, w2) →
        operation a3 w2' = (Resolved v3, w3) →
        let r1 := Patterns.CircuitBreaker.execute this operation a1 cb w0 in
        let r2 :=
          Patterns.CircuitBreaker.execute this operation a2
            (fields_after r1) w1' in
        let r3 :=
          Patterns.CircuitBreaker.execute this operation a3
            (fields_after r2) w2' in
        Patterns.CircuitBreaker.gate this (clock w0) cb
        = inl {| Patterns.CircuitBreaker.state := Patterns.HALF_OPEN;
                 Patterns.CircuitBreaker.failureCount :=
                   Patterns.CircuitBreaker.failureCount cb;
                 Patterns.CircuitBreaker.lastFailureTime :=
                   Patterns.CircuitBreaker.lastFailureTime cb;
                 Patterns.CircuitBreaker.successCount := 0 |}
        ∧ settled r1 = Resolved v1
        ∧ Patterns.CircuitBreaker.state (fields_after r1) = Patterns.HALF_OPEN
        ∧ Patterns.CircuitBreaker.successCount (fields_after r1) = 1
        ∧ settled r2 = Resolved v2
        ∧ Patterns.CircuitBreaker.state (fields_after r2) = Patterns.HALF_OPEN
        ∧ Patterns.CircuitBreaker.successCount (fields_after r2) = 2
        ∧ settled r3 = Resolved v3
        ∧ Patterns.CircuitBreaker.state (fields_after r3) = Patterns.CLOSED
        ∧ Patterns.CircuitBreaker.failureCount (fields_after r3) = 0
        ∧ Patterns.CircuitBreaker.successCount (fields_after r3) = 3)
     ∧ (∀ (cb : Patterns.CircuitBreaker.t) (a : A) (w w' : World)
          (e : JsError),
          Patterns.CircuitBreaker.state cb = Patterns.HALF_OPEN
          ∨ (Patterns.CircuitBreaker.state cb = Patterns.OPEN
             ∧ Patterns.CircuitBreaker.nextRetryTime this cb <= clock w) →
          operation a w = (Rejected e, w') →
          let r := Patterns.CircuitBreaker.execute this operation a cb w in
          settled r = Rejected e
          ∧ Patterns.CircuitBreaker.state (fields_after r) = Patterns.OPEN
          ∧ Patterns.CircuitBreaker.nextRetryTime this (fields_after r)
            = clock w' + Patterns.CircuitBreaker.resetTimeout this
          ∧ ∀ (a' : A) (w'' : World),
              clock w'' < clock w' + Patterns.CircuitBreaker.resetTimeout this →
              Patterns.CircuitBreaker.execute this operation a'
                (fields_after r) w''
              = (Rejected (Patterns.CircuitBreaker.openError this),
                 fields_after r, w'')))
  ∧ (∀ (config : Contracts.CircuitBreakerConfig)
       (cb : Observability.CircuitBreaker.t),
       Observability.CircuitBreaker.reachable (T := T) config cb →
       (∀ w, Contracts.state cb = Contracts.OPEN →
             or_default (Contracts.nextRetryTime cb) 0 <= clock w →
             Observability.CircuitBreaker.gate (clock w) cb
             = inl {| Contracts.state := Contracts.HALF_OPEN;
                      Contracts.failureCount := Contracts.failureCount cb;
                      Contracts.successCount := Contracts.successCount cb;
                      Contracts.lastFailureTime := Contracts.lastFailureTime cb;
                      Contracts.lastSuccessTime := Contracts.lastSuccessTime cb;
                      Contracts.nextRetryTime := Contracts.nextRetryTime cb |})
       ∧ (∀ (operation : Op T) (w w' : World) (e : JsError),
            Contracts.state cb = Contracts.HALF_OPEN
            ∨ (Contracts.state cb = Contracts.OPEN
               ∧ or_default (Contracts.nextRetryTime cb) 0 <= clock w) →
            operation w = (Rejected e, w') →
            let r :=
              Observability.CircuitBreaker.execute config operation cb w in
            settled r = Rejected e
            ∧ Contracts.state (fields_after r) = Contracts.OPEN
            ∧ Contracts.nextRetryTime (fields_after r)
              = Some (clock w' + Contracts.resetTimeout config)
            ∧ ∀ (again : Op T) (w'' : World),
                clock w'' < clock w' + Contracts.resetTimeout config →
                Observability.CircuitBreaker.execute config again
                  (fields_after r) w''
                = (Rejected (Error "Circuit breaker is OPEN"),
                   fields_after r, w''))).
Proof.
  split.
  - intros this operation. exact (pattern_half_open_recovery this operation).
  - intros config cb Hreach.
    exact (observability_half_open_admission_and_failure config cb Hreach).
Qed.

Lemma half_open_recovery_witness :
  let opened := Scenario.pattern_opened in
  let w0 := Scenario.at_time (clock (world_after opened) + 60000)
              (world_after opened) in
  Patterns.CircuitBreaker.state (fields_after opened) = Patterns.OPEN
  ∧ Patterns.CircuitBreaker.nextRetryTime Scenario.pattern_breaker
      (fields_after opened) <= clock w0
  ∧ Patterns.CircuitBreaker.state (fields_after Scenario.pattern_probe1)
    = Patterns.HALF_OPEN
  ∧ Patterns.CircuitBreaker.state (fields_after Scenario.pattern_probe2)
    = Patterns.HALF_OPEN
  ∧ Patterns.CircuitBreaker.state (fields_after Scenario.pattern_probe3)
    = Patterns.CLOSED
  ∧ Patterns.CircuitBreaker.failureCount (fields_after Scenario.pattern_probe3)
    = 0
  ∧ Contracts.state
      (fields_after
         (Observability.CircuitBreaker.execute Scenario.breaker_config
            Scenario.always_failing
            (fields_after Scenario.observability_opened)
            (Scenario.at_time 70000 Scenario.start)))
    = Contracts.OPEN.
Proof.
  intros opened w0.
  assert (Hopen : Patterns.CircuitBreaker.state (fields_after opened)
                  = Patterns.OPEN) by reflexivity.
  assert (Hle : Patterns.CircuitBreaker.nextRetryTime Scenario.pattern_breaker
                  (fields_after opened) <= clock w0)
    by (vm_compute; discriminate).
  assert (Hreach : Observability.CircuitBreaker.reachable (T := nat)
                     Scenario.breaker_config
                     (fields_after Scenario.observability_opened)).
  { exact (Observability.CircuitBreaker.reachable_execute
             Scenario.breaker_config Scenario.always_failing _ _
             (Observability.CircuitBreaker.reachable_execute
                Scenario.breaker_config Scenario.always_failing _
                Scenario.start
                (Observability.CircuitBreaker.reachable_init
                   Scenario.breaker_config))). }
  destruct (half_open_recovery (A := unit) (T := nat))
    as [Hpattern Hobservability].
  destruct (Hobservability Scenario.breaker_config _ Hreach)
    as [_ Hfailure].
  assert (Hstate : Contracts.state
                     (fields_after Scenario.observability_opened)
                   = Contracts.OPEN) by (vm_compute; reflexivity).
  assert (Hdue : or_default
                   (Contracts.nextRetryTime
                      (fields_after Scenario.observability_opened)) 0
                 <= clock (Scenario.at_time 70000 Scenario.start))
    by (vm_compute; discriminate).
  assert (Hfails : Scenario.always_failing
                     (Scenario.at_time 70000 Scenario.start)
                   = (Rejected Scenario.econnreset,
                      snd (Scenario.always_failing
                             (Scenario.at_time 70000 Scenario.start))))
    by (vm_compute; reflexivity).
  destruct (Hfailure Scenario.always_failing
              (Scenario.at_time 70000 Scenario.start)
              (snd (Scenario.always_failing
                      (Scenario.at_time 70000 Scenario.start)))
              Scenario.econnreset
              (or_intror (conj Hstate Hdue)) Hfails) as (_ & Hback & _).
  destruct (Hpattern Scenario.pattern_breaker (fun _ => Scenario.recovering))
    as [Hrecover _].
  pose proof (Hrecover (fields_after opened) tt tt tt w0
                (world_after Scenario.pattern_probe1)
                (Scenario.at_time
                   (clock (world_after Scenario.pattern_probe1) + 100)
                   (world_after Scenario.pattern_probe1))
                (world_after Scenario.pattern_probe2)
                (Scenario.at_time
                   (clock (world_after Scenario.pattern_probe2) + 100)
                   (world_after Scenario.pattern_probe2))
                (world_after Scenario.pattern_probe3)
                2%nat 3%nat 4%nat Hopen Hle eq_refl eq_refl eq_refl) as H.
  cbv zeta in H.
  destruct H as (_ & _ & H1 & _ & _ & H2 & _ & _ & H3 & H4 & _).
  split; [exact Hopen|]. split; [exact Hle|]. split; [exact H1|].
  split; [exact H2|]. split; [exact H3|]. split; [exact H4|]. exact Hback.
Defined.

(** C3, counterexample.  After the three successes that close the breaker,
    the success counter is 3: closing does not reset all counters. *)
Lemma closing_does_not_reset_successCount :
  let closed := fields_after Scenario.pattern_probe3 in
  Patterns.CircuitBreaker.state (fields_after Scenario.pattern_opened)
  = Patterns.OPEN
  ∧ settled Scenario.pattern_probe1 = Resolved 2%nat
  ∧ settled Scenario.pattern_probe2 = Resolved 3%nat
  ∧ settled Scenario.pattern_probe3 = Resolved 4%nat
  ∧ Patterns.CircuitBreaker.state closed = Patterns.CLOSED
  ∧ Patterns.CircuitBreaker.successCount closed = 3
  ∧ ¬ (Patterns.CircuitBreaker.failureCount closed = 0
       ∧ Patterns.CircuitBreaker.successCount closed = 0).
Proof.
  vm_compute. repeat split; try reflexivity. intros [_ H]. discriminate H.
Qed.

(** C2, the failing input.  Breaker of resilience.ts with
    [failureThreshold = 2]: a failure, a success, a failure.  The success
    leaves [failureCount] at 1, so the second failure, which follows a
    success, opens the breaker, with [nextRetryTime = now + resetTimeout].
    The pattern library's breaker on the same calls resets the count on the
    success and is still CLOSED with [failureCount = 1] at the end. *)
Theorem closed_success_does_not_reset_failureCount :
  let '(r1, r2, r3) := Scenario.observability_interleaved in
  let '(p1, p2, p3) := Scenario.pattern_interleaved in
  settled r1 = Rejected Scenario.econnreset
  ∧ Contracts.state (fields_after r1) = Contracts.CLOSED
  ∧ Contracts.failureCount (fields_after r1) = 1
  ∧ settled r2 = Resolved 1%nat
  ∧ Contracts.state (fields_after r2) = Contracts.CLOSED
  ∧ Contracts.failureCount (fields_after r2) = 1
  ∧ settled r3 = Rejected Scenario.econnreset
  ∧ Contracts.state (fields_after r3) = Contracts.OPEN
  ∧ Contracts.failureCount (fields_after r3) = 2
  ∧ Contracts.nextRetryTime (fields_after r3)
    = Some (clock (world_after r3)
            + Contracts.resetTimeout Scenario.breaker_config)
  ∧ Patterns.CircuitBreaker.failureCount (fields_after p2) = 0
  ∧ Patterns.CircuitBreaker.state (fields_after p3) = Patterns.CLOSED
  ∧ Patterns.CircuitBreaker.failureCount (fields_after p3) = 1.
Proof. vm_compute. repeat split; reflexivity. Qed.

(** In HALF_OPEN the breaker of resilience.ts closes on the first success,
    and the success counter it carries is the running total. *)
Example observability_half_open_closes_at_once :
  let opened :=
    Scenario.observability_call Scenario.recovering
      (Scenario.observability_first Scenario.recovering) in
  let probe :=
    Observability.CircuitBreaker.execute Scenario.breaker_config
      Scenario.recovering (fields_after opened)
      (Scenario.at_time (clock (world_after opened) + 60000)
         (world_after opened)) in
  Contracts.state (fields_after opened) = Contracts.OPEN
  ∧ settled probe = Resolved 2%nat
  ∧ Contracts.state (fields_after probe) = Contracts.CLOSED
  ∧ Contracts.failureCount (fields_after probe) = 0
  ∧ Contracts.successCount (fields_after probe) = 1.
Proof. vm_compute. repeat split; reflexivity. Qed.

(** ** Retry policies *)

Section PatternRetryFacts.
Import Patterns.RetryPolicy.
Context {T : Type}.
Variable this : t.
Variable entropy : nat -> Q.
Variable operation : Op T.
Variable shouldRetry : JsError -> bool.

Lemma remaining_at_attempt (attempt : Z) :
  1 <= attempt <= maxAttempts this →
  Z.to_nat (maxAttempts this - attempt + 1)
  = S (Z.to_nat (maxAttempts this - (attempt + 1) + 1)).
Proof. intros H. lia. Qed.

Lemma from_attempt_unfold (attempt : Z) lastError (w : World) :
  1 <= attempt <= maxAttempts this →
  from_attempt this entropy operation shouldRetry attempt lastError w
  = let '(r, w1) := operation w in
    match r with
    | Resolved v => (Resolved v, w1)
    | Rejected error =>
        if (attempt =? maxAttempts this) || negb (shouldRetry error)
        then (Rejected (Some error), w1)
        else
          let d := delay this attempt in
          from_attempt this entropy operation shouldRetry (attempt + 1)
            (Some error)
            (sleep (d + jitter d (entropy (draws w1)))
                   (snd (random entropy w1)))
    end.
Proof.
  intros H. unfold from_attempt. rewrite (remaining_at_attempt attempt H).
  reflexivity.
Qed.

Lemma jitter_bounds (d u : Q) :
  (0 <= u)%Q → (u < 1)%Q → (0 <= d)%Q →
  (0 <= jitter d u)%Q ∧ (jitter d u <= d * (1 # 10))%Q.
Proof. unfold jitter. intros Hu0 Hu1 Hd. split; nra. Qed.

End PatternRetryFacts.

Section PatternRetryExecution.
Import Patterns.RetryPolicy.
Context {T : Type}.
Variable this : t.
Variable entropy : nat -> Q.

(** Pattern-library retry policy.  [execute] is the loop entered at
    attempt 1, and at every attempt [k] of the [maxAttempts]:
    - an attempt that succeeds returns its result at once;
    - an attempt that fails with error [e] rejects with [e] itself if [k]
      is the last attempt or [shouldRetry e] is false;
    - otherwise the policy sleeps for [d + j], where
      [d = min (baseDelay * backoffMultiplier ^ (k - 1)) maxDelay] and
      [j = d * 0.1 * Math.random()] lies between 0 and 10% of [d], and goes
      on with attempt [k + 1].
    In particular an operation whose first error is not retryable is invoked
    exactly once and no timer is set. *)
Lemma pattern_retry_attempts
    (operation : Op T) (shouldRetry : option (JsError -> bool)) :
  let retryable := default (fun _ => true) shouldRetry in
  let continue_at := from_attempt this entropy operation retryable in
  (∀ w, execute this entropy operation shouldRetry w = continue_at 1 None w)
  ∧ (∀ (k : Z) lastError (w w1 : World),
       1 <= k <= maxAttempts this →
       (∀ v, operation w = (Resolved v, w1) →
             continue_at k lastError w = (Resolved v, w1))
       ∧ (∀ e, operation w = (Rejected e, w1) →
               k = maxAttempts this ∨ retryable e = false →
               continue_at k lastError w = (Rejected (Some e), w1))
       ∧ (∀ e, operation w = (Rejected e, w1) →
               k < maxAttempts this → retryable e = true →
               let d := Qmin (baseDelay this * backoffMultiplier this ^ (k - 1))
                             (maxDelay this) in
               let u := entropy (draws w1) in
               let j := (d * (1 # 10) * u)%Q in
               continue_at k lastError w
               = continue_at (k + 1) (Some e)
                   (sleep (d + j) (snd (random entropy w1)))
               ∧ ((0 <= u)%Q → (u < 1)%Q → (0 <= d)%Q →
                  (0 <= j)%Q ∧ (j <= d * (1 # 10))%Q)))
  ∧ (∀ (behaviour : nat -> Outcome T JsError * Z) (w : World) e,
       operation = scripted behaviour →
       1 <= maxAttempts this →
       fst (behaviour (invocations w)) = Rejected e →
       retryable e = false →
       let result := execute this entropy operation shouldRetry w in
       fst result = Rejected (Some e)
       ∧ invocations (snd result) = S (invocations w)
       ∧ timers (snd result) = timers w).
Proof.
  intros retryable continue_at.
  assert (Hstart : ∀ w, execute this entropy operation shouldRetry w
                        = continue_at 1 None w).
  { intros w. unfold execute, continue_at, from_attempt.
    replace (maxAttempts this - 1 + 1) with (maxAttempts this) by lia.
    reflexivity. }
  assert (Hstep : ∀ k lastError w, 1 <= k <= maxAttempts this →
            continue_at k lastError w = _)
    by (intros k lastError w Hk;
        exact (from_attempt_unfold this entropy operation retryable
                 k lastError w Hk)).
  split; [exact Hstart|]. split.
  - intros k lastError w w1 Hk. split; [|split].
    + intros v Hop. rewrite (Hstep _ _ _ Hk), Hop. reflexivity.
    + intros e Hop Hstop. rewrite (Hstep _ _ _ Hk), Hop.
      destruct Hstop as [-> | Hno].
      * rewrite Z.eqb_refl. reflexivity.
      * rewrite Hno, orb_true_r. reflexivity.
    + intros e Hop Hlt Hyes d u j. split.
      * rewrite (Hstep _ _ _ Hk), Hop.
        destruct (Z.eqb_spec k (maxAttempts this)); [lia|].
        rewrite Hyes. reflexivity.
      * intros Hu0 Hu1 Hd. apply (jitter_bounds d u); assumption.
  - intros behaviour w e -> Hmax Hfail Hno result.
    assert (Hresult : ∃ w1, result = (Rejected (Some e), w1)
                            ∧ invocations w1 = S (invocations w)
                            ∧ timers w1 = timers w).
    { subst result. rewrite Hstart, (Hstep 1 None w ltac:(lia)).
      unfold scripted.
      destruct (behaviour (invocations w)) as [r d] eqn:Hb.
      simpl in Hfail. subst r. rewrite Hno, orb_true_r.
      eexists. split; [reflexivity|]. simpl. auto. }
    destruct Hresult as (w1 & -> & Hinv & Htimers). simpl. auto.
Qed.

End PatternRetryExecution.

(** The retry of the specification's example: with [maxAttempts = 3],
    [baseDelay = 100] and [backoffMultiplier = 2], an operation that fails
    twice and then succeeds is invoked three times and the policy has slept
    105 and 210 ms (jitter factor 1/2) in between. *)
Example retry_fails_twice_then_succeeds :
  let result :=
    Patterns.RetryPolicy.execute Scenario.retry_policy Scenario.half
      (Scenario.failing_on [0%nat; 1%nat])
      (Some Scenario.retry_network_errors) Scenario.start in
  fst result = Resolved 2%nat
  ∧ invocations (snd result) = 3%nat
  ∧ List.map Qred (timers (snd result)) = [105%Q; 210%Q].
Proof. vm_compute. repeat split; reflexivity. Qed.

(** A validation error is not retried: one invocation, no timer. *)
Example retry_propagates_non_retryable_error :
  let result :=
    Patterns.RetryPolicy.execute Scenario.retry_policy Scenario.half
      Scenario.rejecting_validation
      (Some Scenario.retry_network_errors) Scenario.start in
  fst result = Rejected (Some Scenario.validation_failed)
  ∧ invocations (snd result) = 1%nat
  ∧ timers (snd result) = [].
Proof. vm_compute. repeat split; reflexivity. Qed.

Section ObservabilityRetryFacts.
Import Contracts Observability.RetryPolicy.
Variable config : RetryConfig.

Lemma Qpower_nat_le_1 (m : Q) (n : nat) :
  (0 <= m)%Q → (m <= 1)%Q → (m ^ Z.of_nat n <= 1)%Q.
Proof.
  intros H0 H1. induction n as [|n IH].
  - simpl. lra.
  - rewrite Nat2Z.inj_succ, <- Z.add_1_r.
    rewrite Qpower_plus' by lia. rewrite Qpower_1_r.
    pose proof (Qpower_0_le m (Z.of_nat n) H0). nra.
Qed.

(** With a configuration in which [0 <= initialDelay <= maxDelay] and
    [0 <= backoffMultiplier], the delay the loop of resilience.ts carries
    along is the closed form [min (initialDelay * backoffMultiplier ^ n)
    maxDelay] after [n] updates. *)
Lemma observability_delay_closed_form (n : nat) :
  (0 <= initialDelay config)%Q →
  (initialDelay config <= maxDelay config)%Q →
  (0 <= backoffMultiplier config)%Q →
  (delay_after config n
   == Qmin (initialDelay config * backoffMultiplier config ^ Z.of_nat n)
           (maxDelay config))%Q.
Proof.
  intros Hinit Hcap Hm. induction n as [|n IH].
  - simpl. rewrite Q.min_l; lra.
  - cbn [delay_after]. rewrite Nat2Z.inj_succ, <- Z.add_1_r.
    rewrite Qpower_plus' by lia. rewrite Qpower_1_r.
    set (p := (backoffMultiplier config ^ Z.of_nat n)%Q) in *.
    assert (Hp : (0 <= p)%Q) by (apply Qpower_0_le; exact Hm).
    set (D := delay_after config n) in *.
    set (a := initialDelay config) in *.
    set (c := maxDelay config) in *.
    set (m := backoffMultiplier config) in *.
    destruct (Q.min_spec (a * p) c) as [[Hlt Hmin] | [Hge Hmin]];
      rewrite Hmin in IH.
    + destruct (Q.min_spec (D * m) c) as [[? ->] | [? ->]];
        destruct (Q.min_spec (a * (p * m)) c) as [[? ->] | [? ->]];
        rewrite ?IH in *; nra.
    + destruct (Qlt_le_dec m 1) as [Hsmall | Hbig].
      * assert (Hp1 : (p <= 1)%Q)
          by (apply Qpower_nat_le_1; [exact Hm | lra]).
        destruct (Q.min_spec (D * m) c) as [[? ->] | [? ->]];
          destruct (Q.min_spec (a * (p * m)) c) as [[? ->] | [? ->]];
          rewrite ?IH in *; nra.
      * destruct (Q.min_spec (D * m) c) as [[? ->] | [? ->]];
          destruct (Q.min_spec (a * (p * m)) c) as [[? ->] | [? ->]];
          rewrite ?IH in *; nra.
Qed.

End ObservabilityRetryFacts.

Section ObservabilityRetryExecution.
Import Contracts Observability.RetryPolicy.
Context {T : Type}.
Variable config : RetryConfig.
Variable operation : Op T.

(** The loop of resilience.ts, attempt by attempt: it differs from the
    pattern library's in that the predicate is [isRetryableError] and the
    sleep is the carried [delay], without jitter. *)
Lemma observability_retry_attempts :
  (∀ w, execute config operation w = from_attempt config operation 1 None w)
  ∧ (∀ (k : Z) lastError (w w1 : World),
       1 <= k <= maxAttempts config →
       (∀ v, operation w = (Resolved v, w1) →
             from_attempt config operation k lastError w = (Resolved v, w1))
       ∧ (∀ e, operation w = (Rejected e, w1) →
               k = maxAttempts config ∨ isRetryableError config e = false →
               from_attempt config operation k lastError w
               = (Rejected (Some e), w1))
       ∧ (∀ e, operation w = (Rejected e, w1) →
               k < maxAttempts config → isRetryableError config e = true →
               from_attempt config operation k lastError w
               = from_attempt config operation (k + 1) (Some e)
                   (sleep (delay_after config (Z.to_nat (k - 1))) w1))).
Proof.
  split.
  - intros w. unfold execute, from_attempt.
    replace (maxAttempts config - 1 + 1) with (maxAttempts config) by lia.
    reflexivity.
  - intros k lastError w w1 Hk.
    assert (Hrem : Z.to_nat (maxAttempts config - k + 1)
                   = S (Z.to_nat (maxAttempts config - (k + 1) + 1))) by lia.
    assert (Hupd : Z.to_nat (k + 1 - 1) = S (Z.to_nat (k - 1))) by lia.
    unfold from_attempt. rewrite Hrem, Hupd. cbn [attempts delay_after].
    split; [|split].
    + intros v ->. reflexivity.
    + intros e -> [-> | Hno].
      * rewrite Z.eqb_refl. reflexivity.
      * rewrite Hno. destruct (k =? maxAttempts config); reflexivity.
    + intros e -> Hlt Hyes.
      destruct (Z.eqb_spec k (maxAttempts config)); [lia|].
      rewrite Hyes. reflexivity.
Qed.

End ObservabilityRetryExecution.

(** With [initialDelay = 1000] above [maxDelay = 500] the first sleep of
    resilience.ts is the uncapped 1000 ms; the later ones are capped. *)
Example observability_first_delay_is_not_capped :
  let result :=
    Observability.RetryPolicy.execute Scenario.uncapped_retry_config
      Scenario.always_failing Scenario.start in
  fst result = Rejected (Some Scenario.econnreset)
  ∧ invocations (snd result) = 3%nat
  ∧ timers (snd result) = [1000%Q; 500%Q].
Proof. vm_compute. repeat split; reflexivity. Qed.

(** Every retry execution, in both libraries, is the loop entered at
    attempt 1, and at every attempt [k] of the [maxAttempts]:
    - an attempt that succeeds returns its result at once;
    - an attempt that fails with error [e] rejects with [e] itself if [k]
      is the last attempt or the predicate ([shouldRetry], defaulting to
      always true, in the pattern library; [isRetryableError] in
      resilience.ts) is false of [e]; an operation whose first error is not
      retryable is thus invoked exactly once and no timer is set;
    - otherwise the policy sleeps and goes on with attempt [k + 1].  In the
      pattern library it sleeps [d + j] where
      [d = min (baseDelay * backoffMultiplier ^ (k - 1)) maxDelay] and the
      jitter [j = d * 0.1 * Math.random()] lies between 0 and 10% of [d].
      In resilience.ts it sleeps the delay it carries, without jitter, which
      is that same [d] (with [initialDelay] for [baseDelay]) in every
      configuration with [0 <= initialDelay <= maxDelay] and a multiplier
      that is not negative. *)
Theorem retry_execute_attempts {T : Type} :
  (∀ (this : Patterns.RetryPolicy.t) (entropy : nat -> Q) (operation : Op T)
     (shouldRetry : option (JsError -> bool)),
     let retryable := default (fun _ => true) shouldRetry in
     let continue_at :=
       Patterns.RetryPolicy.from_attempt this entropy operation retryable in
     (∀ w, Patterns.RetryPolicy.execute this entropy operation shouldRetry w
           = continue_at 1 None w)
     ∧ (∀ (k : Z) lastError (w w1 : World),
          1 <= k <= Patterns.RetryPolicy.maxAttempts this →
          (∀ v, operation w = (Resolved v, w1) →
                continue_at k lastError w = (Resolved v, w1))
          ∧ (∀ e, operation w = (Rejected e, w1) →
                  k = Patterns.RetryPolicy.maxAttempts this
                  ∨ retryable e = false →
                  continue_at k lastError w = (Rejected (Some e), w1))
          ∧ (∀ e, operation w = (Rejected e, w1) →
                  k < Patterns.RetryPolicy.maxAttempts this →
                  retryable e = true →
                  let d := Qmin (Patterns.RetryPolicy.baseDelay this
                                 * Patterns.RetryPolicy.backoffMultiplier this
                                   ^ (k - 1))
                                (Patterns.RetryPolicy.maxDelay this) in
                  let u := entropy (draws w1) in
                  let j := (d * (1 # 10) * u)%Q in
                  continue_at k lastError w
                  = continue_at (k + 1) (Some e)
                      (sleep (d + j) (snd (random entropy w1)))
                  ∧ ((0 <= u)%Q → (u < 1)%Q → (0 <= d)%Q →
                     (0 <= j)%Q ∧ (j <= d * (1 # 10))%Q)))
     ∧ (∀ (behaviour : nat -> Outcome T JsError * Z) (w : World) e,
          operation = scripted behaviour →
          1 <= Patterns.RetryPolicy.maxAttempts this →
          fst (behaviour (invocations w)) = Rejected e →
          retryable e = false →
          let result :=
            Patterns.RetryPolicy.execute this entropy operation shouldRetry w in
          fst result = Rejected (Some e)
          ∧ invocations (snd result) = S (invocations w)
          ∧ timers (snd result) = timers w))
  ∧ (∀ (config : Contracts.RetryConfig) (operation : Op T),
       let continue_at :=
         Observability.RetryPolicy.from_attempt config operation in
       (∀ w, Observability.RetryPolicy.execute config operation w
             = continue_at 1 None w)
       ∧ (∀ (k : Z) lastError (w w1 : World),
            1 <= k <= Contracts.maxAttempts config →
            (∀ v, operation w = (Resolved v, w1) →
                  continue_at k lastError w = (Resolved v, w1))
            ∧ (∀ e, operation w = (Rejected e, w1) →
                    k = Contracts.maxAttempts config
                    ∨ Observability.RetryPolicy.isRetryableError config e
                      = false →
                    continue_at k lastError w = (Rejected (Some e), w1))
            ∧ (∀ e, operation w = (Rejected e, w1) →
                    k < Contracts.maxAttempts config →
                    Observability.RetryPolicy.isRetryableError config e
                    = true →
                    let d :=
                      Observability.RetryPolicy.delay_after config
                        (Z.to_nat (k - 1)) in
                    continue_at k lastError w
                    = continue_at (k + 1) (Some e) (sleep d w1)
                    ∧ ((0 <= Contracts.initialDelay config)%Q →
                       (Contracts.initialDelay config
                        <= Contracts.maxDelay config)%Q →
                       (0 <= Contracts.backoffMultiplier config)%Q →
                       (d == Qmin (Contracts.initialDelay config
                                   * Contracts.backoffMultiplier config
                                     ^ (k - 1))
                                  (Contracts.maxDelay config))%Q)))).
Proof.
  split.
  - intros this entropy operation shouldRetry.
    exact (pattern_retry_attempts this entropy operation shouldRetry).
  - intros config operation continue_at.
    destruct (observability_retry_attempts config operation)
      as [Hstart Hstep].
    split; [exact Hstart|].
    intros k lastError w w1 Hk.
    destruct (Hstep k lastError w w1 Hk) as (Hok & Hstop & Hgo).
    split; [exact Hok|]. split; [exact Hstop|].
    intros e Hop Hlt Hyes d. split; [exact (Hgo e Hop Hlt Hyes)|].
    intros Hinit Hcap Hm. subst d.
    rewrite (observability_delay_closed_form config (Z.to_nat (k - 1))
               Hinit Hcap Hm).
    replace (Z.of_nat (Z.to_nat (k - 1))) with (k - 1) by lia.
    reflexivity.
Qed.

Lemma retry_execute_attempts_witness :
  let this := Scenario.retry_policy in
  let operation := Scenario.failing_on [0%nat; 1%nat] in
  let continue_at :=
    Patterns.RetryPolicy.from_attempt this Scenario.half operation
      Scenario.retry_network_errors in
  let w1 := snd (operation Scenario.start) in
  1 <= 1 <= Patterns.RetryPolicy.maxAttempts this
  ∧ operation Scenario.start = (Rejected Scenario.econnreset, w1)
  ∧ Scenario.retry_network_errors Scenario.econnreset = true
  ∧ continue_at 1 None Scenario.start
    = continue_at 2 (Some Scenario.econnreset)
        (sleep (Qmin (100 * 2 ^ (1 - 1)) 30000
                + Qmin (100 * 2 ^ (1 - 1)) 30000 * (1 # 10) * (1 # 2))
           (snd (random Scenario.half w1)))
  ∧ (0 <= Qmin (100 * 2 ^ (1 - 1)) 30000 * (1 # 10) * (1 # 2))%Q
  ∧ (Qmin (100 * 2 ^ (1 - 1)) 30000 * (1 # 10) * (1 # 2)
     <= Qmin (100 * 2 ^ (1 - 1)) 30000 * (1 # 10))%Q
  ∧ Observability.RetryPolicy.isRetryableError Scenario.retry_config
      Scenario.econnreset = true
  ∧ (Observability.RetryPolicy.delay_after Scenario.retry_config 1
     == Qmin (1000 * 2 ^ (2 - 1)) 10000)%Q.
Proof.
  intros this operation continue_at w1.
  assert (Hk : 1 <= 1 <= Patterns.RetryPolicy.maxAttempts this)
    by (vm_compute; split; discriminate).
  assert (Hop : operation Scenario.start = (Rejected Scenario.econnreset, w1))
    by reflexivity.
  assert (Hretry : Scenario.retry_network_errors Scenario.econnreset = true)
    by reflexivity.
  destruct (retry_execute_attempts (T := nat)) as [Hpattern Hobservability].
  destruct (Hpattern this Scenario.half operation
              (Some Scenario.retry_network_errors)) as (_ & Hstep & _).
  destruct (Hstep 1 None Scenario.start w1 Hk) as (_ & _ & Hsleep).
  destruct (Hsleep Scenario.econnreset Hop eq_refl Hretry) as [Heq Hjitter].
  destruct (Hjitter ltac:(vm_compute; discriminate) eq_refl
              ltac:(vm_compute; discriminate)) as [Hj0 Hj1].
  assert (Hyes : Observability.RetryPolicy.isRetryableError
                   Scenario.retry_config Scenario.econnreset = true)
    by reflexivity.
  destruct (Hobservability Scenario.retry_config Scenario.always_failing)
    as [_ Hloop].
  destruct (Hloop 2 (Some Scenario.econnreset)
              (snd (Scenario.always_failing Scenario.start))
              (snd (Scenario.always_failing
                      (snd (Scenario.always_failing Scenario.start))))
              ltac:(vm_compute; split; discriminate)) as (_ & _ & Hgo).
  destruct (Hgo Scenario.econnreset eq_refl eq_refl Hyes) as [_ Hclosed].
  pose proof (Hclosed ltac:(vm_compute; discriminate)
                ltac:(vm_compute; discriminate)
                ltac:(vm_compute; discriminate)) as Hdelay.
  split; [exact Hk|]. split; [exact Hop|]. split; [exact Hretry|].
  split; [exact Heq|]. split; [exact Hj0|]. split; [exact Hj1|].
  split; [exact Hyes|]. exact Hdelay.
Defined.

(** C6.  The retry policy of resilience.ts does not sleep as claimed.  With
    [maxAttempts = 3], [initialDelay = 1000], [maxDelay = 500],
    [backoffMultiplier = 2], an operation that always fails with a
    retryable error and every [Math.random()] returning 1/2: the policy
    makes its 3 attempts and rejects with the last error, as claimed, but
    it sets the timers 1000 and 500 and never calls [Math.random()].  The
    claimed delay of the first retry is [min (1000 * 2^0) 500 = 500] plus a
    jitter of at most 50, and the pattern library's policy, given the same
    numbers, sets the timers 525 and 525, drawing a random number for each.
    With [maxDelay = 10000] the timers of resilience.ts are 1000 and 2000,
    exactly and whatever the random numbers are, where the pattern library
    sets 1050 and 2100. *)
Theorem observability_retry_sleeps_uncapped_without_jitter :
  let observability :=
    Observability.RetryPolicy.execute Scenario.uncapped_retry_config
      Scenario.always_failing Scenario.start in
  let pattern :=
    Patterns.RetryPolicy.execute Scenario.uncapped_retry_policy
      Scenario.half Scenario.always_failing None Scenario.start in
  let claimed := Qmin (1000 * 2 ^ (1 - 1)) 500 in
  (fst observability = Rejected (Some Scenario.econnreset)
   ∧ invocations (snd observability) = 3%nat
   ∧ List.map Qred (timers (snd observability)) = [1000%Q; 500%Q]
   ∧ draws (snd observability) = 0%nat
   ∧ clock (snd observability) = clock Scenario.start + 10 + 1000 + 10 + 500 + 10)
  ∧ (claimed == 500 ∧ ¬ 1000 <= claimed + claimed * (1 # 10))%Q
  ∧ (fst pattern = Rejected (Some Scenario.econnreset)
     ∧ invocations (snd pattern) = 3%nat
     ∧ List.map Qred (timers (snd pattern)) = [525%Q; 525%Q]
     ∧ draws (snd pattern) = 2%nat)
  ∧ (∀ entropy : nat -> Q,
       let '(_, w) :=
         Observability.RetryPolicy.execute Scenario.retry_config
           Scenario.always_failing Scenario.start in
       let '(_, w') :=
         Patterns.RetryPolicy.execute Scenario.retry_policy_of_config
           entropy Scenario.always_failing None Scenario.start in
       List.map Qred (timers w) = [1000%Q; 2000%Q] ∧ draws w = 0%nat
       ∧ draws w' = 2%nat
       ∧ (entropy = Scenario.half →
          List.map Qred (timers w') = [1050%Q; 2100%Q])).
Proof.
  cbv zeta. split; [|split; [|split]].
  - vm_compute. repeat split; reflexivity.
  - vm_compute. split; [reflexivity | intros H; apply H; reflexivity].
  - vm_compute. repeat split; reflexivity.
  - intros entropy.
    assert (Hdraws : draws
              (snd (Patterns.RetryPolicy.execute
                      Scenario.retry_policy_of_config entropy
                      Scenario.always_failing None Scenario.start))
            = 2%nat) by reflexivity.
    destruct (Observability.RetryPolicy.execute Scenario.retry_config
                Scenario.always_failing Scenario.start) as [r w] eqn:Hrun.
    assert (Hw : w = snd (Observability.RetryPolicy.execute
                            Scenario.retry_config Scenario.always_failing
                            Scenario.start)) by (rewrite Hrun; reflexivity).
    destruct (Patterns.RetryPolicy.execute Scenario.retry_policy_of_config
                entropy Scenario.always_failing None Scenario.start)
      as [r' w'] eqn:Hrun'.
    cbn [snd] in Hdraws.
    split; [rewrite Hw; vm_compute; reflexivity|].
    split; [rewrite Hw; vm_compute; reflexivity|].
    split; [exact Hdraws|].
    intros ->.
    assert (Hw' : w' = snd (Patterns.RetryPolicy.execute
                              Scenario.retry_policy_of_config Scenario.half
                              Scenario.always_failing None Scenario.start))
      by (rewrite Hrun'; reflexivity).
    rewrite Hw'. vm_compute. reflexivity.
Qed.

(** ** Rate limiter *)

Section RateLimiterFacts.
Import Patterns.RateLimiter.
Variable this : t.

Lemma filter_length_le {A} (f : A -> bool) (l : list A) :
  (length (List.filter f l) <= length l)%nat.
Proof. induction l as [|x l IH]; simpl; [lia|]. destruct (f x); simpl; lia. Qed.

Lemma filter_length_lt {A} (f : A -> bool) (l : list A) (x : A) :
  In x l → f x = false → (length (List.filter f l) < length l)%nat.
Proof.
  induction l as [|y l IH]; simpl; [tauto|].
  intros [-> | Hin] Hx.
  - rewrite Hx. pose proof (filter_length_le f l). lia.
  - specialize (IH Hin Hx). destruct (f y); simpl; lia.
Qed.

Lemma filter_full_length {A} (f : A -> bool) (l : list A) :
  length (List.filter f l) = length l → List.filter f l = l.
Proof.
  induction l as [|x l IH]; simpl; [reflexivity|].
  destruct (f x) eqn:Hx; simpl; intros Hlen.
  - f_equal. apply IH. lia.
  - pose proof (filter_length_le f l). lia.
Qed.

Lemma filter_sorted (f : Z -> bool) (l : list Z) :
  StronglySorted Z.le l → StronglySorted Z.le (List.filter f l).
Proof.
  induction 1 as [|x l Hs IH Hx]; simpl; [constructor|].
  destruct (f x); [|exact IH].
  constructor; [exact IH|].
  rewrite List.Forall_forall in *. intros y Hy. apply Hx.
  apply filter_In in Hy. tauto.
Qed.

Lemma sorted_snoc (l : list Z) (x : Z) :
  StronglySorted Z.le l → Forall (fun y => y <= x) l →
  StronglySorted Z.le (l ++ [x]).
Proof.
  induction 1 as [|y l Hs IH Hy]; simpl; intros Hall.
  - constructor; constructor.
  - inversion Hall as [|? ? Hyx Hrest]; subst.
    constructor; [apply IH; exact Hrest|].
    rewrite List.Forall_forall in *. intros z Hz.
    apply in_app_or in Hz. destruct Hz as [Hz | [<- | []]]; auto.
Qed.

Lemma in_window_spec (now time : Z) :
  in_window this now time = true ↔ now - windowMs this < time.
Proof. unfold in_window. rewrite Z.ltb_lt. lia. Qed.

(** What holds of the array of every reachable limiter: the instants are in
    the order they were recorded, none is in the future, and there are at
    most [maxRequests] of them. *)
Lemma reachable_invariant (now : Z) (requests : list Z) :
  reachable this now requests →
  StronglySorted Z.le requests
  ∧ Forall (fun time => time <= now) requests
  ∧ (requests = [] ∨ Z.of_nat (length requests) <= maxRequests this).
Proof.
  induction 1 as [now | before now requests Hreach (Hsorted & Hpast & Hlen) Hle].
  - repeat split; [constructor | constructor | left; reflexivity].
  - assert (Hkept_sorted :
      StronglySorted Z.le (List.filter (in_window this now) requests))
      by (apply filter_sorted; exact Hsorted).
    assert (Hkept_past :
      Forall (fun time => time <= now)
             (List.filter (in_window this now) requests)).
    { rewrite List.Forall_forall in *. intros time Hin.
      apply filter_In in Hin. destruct Hin as [Hin _].
      specialize (Hpast time Hin). simpl in Hpast. lia. }
    pose proof (filter_length_le (in_window this now) requests) as Hshrink.
    unfold acquire.
    destruct (Z.leb_spec (maxRequests this)
                (Z.of_nat (length (List.filter (in_window this now) requests))))
      as [Hfull | Hroom]; simpl.
    + repeat split; try assumption.
      destruct Hlen as [-> | Hlen]; [left; reflexivity | right; lia].
    + repeat split.
      * apply sorted_snoc; assumption.
      * apply Forall_app. split; [assumption|]. constructor; [lia|constructor].
      * right. rewrite length_app. simpl. lia.
Qed.

End RateLimiterFacts.

Section RateLimiterAcquire.
Import Patterns.RateLimiter.
Variable this : t.

(** C7, as amended.  For a limiter with [maxRequests >= 1] reached under a
    clock that does not run backwards, a call of [acquire] at [now] first
    drops every timestamp at or before [now - windowMs]; if fewer than
    [maxRequests] remain it records [now] and succeeds; otherwise it fails
    with an [Error] whose message reads [Rate limit exceeded. Wait <w>ms
    before retrying.], the wait time [w] being
    [windowMs - (now - oldest)] in decimal digits, where [oldest], the head
    of the array, is the earliest remaining timestamp; that wait time is
    positive and at most [windowMs].  A call made once that wait has passed
    succeeds, and so does any call made when the whole window has passed
    since the last recorded request. *)
Theorem acquire_sliding_window (before now : Z) (requests : list Z) :
  reachable this before requests →
  before <= now →
  0 < maxRequests this →
  let kept := List.filter (in_window this now) requests in
  (∀ time, In time kept ↔ In time requests ∧ now - windowMs this < time)
  ∧ (Z.of_nat (length kept) < maxRequests this →
     acquire this now requests = (Resolved tt, kept ++ [now]))
  ∧ (maxRequests this <= Z.of_nat (length kept) →
     ∃ oldest,
       head kept = Some oldest
       ∧ (∀ time, In time kept → oldest <= time)
       ∧ acquire this now requests
         = (Rejected
              {| name := "Error";
                 message :=
                   "Rate limit exceeded. Wait "
                   ++ NilZero.string_of_int
                        (Z.to_int (windowMs this - (now - oldest)))
                   ++ "ms before retrying." |},
            kept)
       ∧ 0 < windowMs this - (now - oldest) <= windowMs this
       ∧ ∀ later,
           now + (windowMs this - (now - oldest)) <= later →
           fst (acquire this later kept) = Resolved tt)
  ∧ (∀ later,
       (∀ time, In time requests → time + windowMs this <= later) →
       acquire this later requests = (Resolved tt, [later])).
Proof.
  intros Hreach Hmono Hpos. cbv zeta.
  remember (List.filter (in_window this now) requests) as kept eqn:Hk.
  destruct (reachable_invariant this before requests Hreach)
    as (Hsorted & Hpast & Hlen).
  assert (Hkept : ∀ time,
            In time kept ↔ In time requests ∧ now - windowMs this < time).
  { intros time. rewrite Hk, filter_In, in_window_spec. tauto. }
  split; [exact Hkept|]. split; [|split].
  - intros Hroom. unfold acquire. rewrite <- Hk.
    destruct (Z.leb_spec (maxRequests this) (Z.of_nat (length kept)));
      [lia|reflexivity].
  - intros Hfull.
    assert (Hkept_sorted : StronglySorted Z.le kept)
      by (rewrite Hk; apply filter_sorted; exact Hsorted).
    assert (Hsame : kept = requests).
    { rewrite Hk. apply filter_full_length. rewrite <- Hk.
      pose proof (filter_length_le (in_window this now) requests) as Hshrink.
      rewrite <- Hk in Hshrink.
      destruct Hlen as [Hnil | Hlen]; [|lia].
      rewrite Hnil in Hk. simpl in Hk. rewrite Hk, Hnil. reflexivity. }
    destruct kept as [|oldest rest]; [simpl in Hfull; lia|].
    exists oldest.
    assert (Hmin : ∀ time, In time (oldest :: rest) → oldest <= time).
    { intros time [<- | Hin]; [lia|].
      inversion Hkept_sorted as [|? ? _ Hall]; subst.
      rewrite List.Forall_forall in Hall. apply Hall. exact Hin. }
    assert (Hold : oldest <= now).
    { rewrite List.Forall_forall in Hpast.
      assert (In oldest requests) by (rewrite <- Hsame; left; reflexivity).
      specialize (Hpast oldest H). simpl in Hpast. lia. }
    assert (Hin_window : now - windowMs this < oldest).
    { apply (Hkept oldest). left. reflexivity. }
    split; [reflexivity|]. split; [exact Hmin|]. split; [|split; [lia|]].
    + unfold acquire. rewrite <- Hk.
      destruct (Z.leb_spec (maxRequests this)
                  (Z.of_nat (length (oldest :: rest)))); [reflexivity|lia].
    + intros later Hlater. unfold acquire.
      assert (Hdrop : (length (List.filter (in_window this later)
                                 (oldest :: rest))
                       < length (oldest :: rest))%nat).
      { apply (filter_length_lt _ _ oldest); [left; reflexivity|].
        unfold in_window. apply Z.ltb_ge. lia. }
      assert (Hcap : Z.of_nat (length (oldest :: rest)) <= maxRequests this).
      { rewrite Hsame. destruct Hlen as [Hnil | Hlen]; [|exact Hlen].
        rewrite Hnil in Hsame. discriminate Hsame. }
      destruct (Z.leb_spec (maxRequests this)
                  (Z.of_nat (length (List.filter (in_window this later)
                                       (oldest :: rest)))));
        [lia|reflexivity].
  - intros later Hpassed. unfold acquire.
    assert (Hnone : List.filter (in_window this later) requests = []).
    { clear -Hpassed. induction requests as [|time l IH]; [reflexivity|].
      simpl. assert (Hout : in_window this later time = false).
      { unfold in_window. apply Z.ltb_ge.
        specialize (Hpassed time (or_introl eq_refl)). lia. }
      rewrite Hout. apply IH. intros t Ht. apply Hpassed. right. exact Ht. }
    rewrite Hnone. simpl.
    destruct (Z.leb_spec (maxRequests this) (Z.of_nat 0)); [lia|reflexivity].
Qed.

(** C9.  A rejected [acquire] records nothing: the array it leaves is the
    array it found with the expired timestamps dropped.  On a reachable
    limiter a rejected call leaves the array exactly as it was, so however
    many calls are rejected in a row, at whatever instants, the array is
    still the same afterwards and each of them reports the wait time that
    ends at the same instant [oldest + windowMs], the moment capacity
    frees. *)
Theorem rejected_acquire_records_nothing :
  (∀ now requests e requests',
     acquire this now requests = (Rejected e, requests') →
     requests' = List.filter (in_window this now) requests
     ∧ (∀ time, In time requests' → In time requests)
     ∧ (length requests' <= length requests)%nat)
  ∧ (∀ before requests instants,
       reachable this before requests →
       forallb is_rejected (fst (acquire_each this instants requests)) = true →
       snd (acquire_each this instants requests) = requests
       ∧ fst (acquire_each this instants requests)
         = List.map (fun now =>
                       Rejected (rateLimitError (waitTime this now requests)))
                    instants
       ∧ ∀ now oldest,
           In now instants → head requests = Some oldest →
           ∃ wait, waitTime this now requests = Some wait
                   ∧ now + wait = oldest + windowMs this).
Proof.
  split.
  - intros now requests e requests' Hacq. unfold acquire in Hacq.
    destruct (maxRequests this <=?
              Z.of_nat (length (List.filter (in_window this now) requests)));
      [|discriminate Hacq].
    injection Hacq as _ <-. repeat split.
    + intros time Hin. apply filter_In in Hin. tauto.
    + apply filter_length_le.
  - intros before requests instants Hreach.
    destruct (reachable_invariant this before requests Hreach)
      as (_ & _ & Hlen).
    assert (Hstep : ∀ now,
              is_rejected (fst (acquire this now requests)) = true →
              acquire this now requests
              = (Rejected (rateLimitError (waitTime this now requests)),
                 requests)).
    { intros now Hrej. unfold acquire in *.
      pose proof (filter_length_le (in_window this now) requests) as Hshrink.
      destruct (Z.leb_spec (maxRequests this)
                  (Z.of_nat (length (List.filter (in_window this now)
                                       requests)))) as [Hfull | Hroom];
        [|discriminate Hrej].
      assert (Hsame : List.filter (in_window this now) requests = requests).
      { destruct Hlen as [-> | Hlen]; [reflexivity|].
        apply filter_full_length. lia. }
      rewrite Hsame. reflexivity. }
    intros Hall.
    assert (Hrun : acquire_each this instants requests
                   = (List.map (fun now => Rejected
                                  (rateLimitError (waitTime this now requests)))
                               instants, requests)).
    { induction instants as [|now later IH]; [reflexivity|].
      simpl in *.
      destruct (acquire this now requests) as [r requests1] eqn:Hacq.
      destruct (acquire_each this later requests1) as [rs requests2] eqn:Hrest.
      simpl in Hall. apply andb_prop in Hall. destruct Hall as [Hr Hrs].
      assert (Hnow := Hstep now). rewrite Hacq in Hnow.
      specialize (Hnow Hr). injection Hnow as -> ->.
      rewrite Hrest in IH. specialize (IH Hrs). injection IH as -> ->.
      reflexivity. }
    rewrite Hrun. simpl. repeat split.
    intros now oldest _ Hhead. destruct requests as [|first rest];
      [discriminate Hhead|].
    injection Hhead as ->. eexists. split; [reflexivity|]. lia.
Qed.

End RateLimiterAcquire.

Lemma five_requests_reachable :
  Patterns.RateLimiter.reachable Scenario.limiter 1004 Scenario.five_requests.
Proof.
  change Scenario.five_requests with
    (snd (Patterns.RateLimiter.acquire Scenario.limiter 1004
      (snd (Patterns.RateLimiter.acquire Scenario.limiter 1003
        (snd (Patterns.RateLimiter.acquire Scenario.limiter 1002
          (snd (Patterns.RateLimiter.acquire Scenario.limiter 1001
            (snd (Patterns.RateLimiter.acquire Scenario.limiter 1000
                    [])))))))))).
  apply (Patterns.RateLimiter.reachable_acquire _ 1003); [|lia].
  apply (Patterns.RateLimiter.reachable_acquire _ 1002); [|lia].
  apply (Patterns.RateLimiter.reachable_acquire _ 1001); [|lia].
  apply (Patterns.RateLimiter.reachable_acquire _ 1000); [|lia].
  apply (Patterns.RateLimiter.reachable_acquire _ 1000); [|lia].
  apply Patterns.RateLimiter.reachable_new.
Qed.

Lemma acquire_sliding_window_witness :
  Patterns.RateLimiter.reachable Scenario.limiter 1004 Scenario.five_requests
  ∧ 1004 <= 1005
  ∧ 0 < Patterns.RateLimiter.maxRequests Scenario.limiter
  ∧ Scenario.five_requests = [1000; 1001; 1002; 1003; 1004]
  ∧ Patterns.RateLimiter.acquire Scenario.limiter 1005 Scenario.five_requests
    = (Rejected {| name := "Error";
                   message :=
                     "Rate limit exceeded. Wait 995ms before retrying." |},
       Scenario.five_requests)
  ∧ Patterns.RateLimiter.acquire Scenario.limiter 2004 Scenario.five_requests
    = (Resolved tt, [2004]).
Proof.
  pose proof five_requests_reachable as Hreach.
  assert (Hmono : 1004 <= 1005) by lia.
  assert (Hpos : 0 < Patterns.RateLimiter.maxRequests Scenario.limiter)
    by reflexivity.
  destruct (acquire_sliding_window Scenario.limiter 1004 1005
              Scenario.five_requests Hreach Hmono Hpos)
    as (_ & _ & Hfull & Hpassed).
  destruct (Hfull ltac:(vm_compute; discriminate))
    as (oldest & Hhead & _ & Hrejected & _ & _).
  assert (Holdest : oldest = 1000).
  { vm_compute in Hhead. injection Hhead as <-. reflexivity. }
  subst oldest.
  split; [exact Hreach|]. split; [exact Hmono|]. split; [exact Hpos|].
  split; [reflexivity|]. split.
  - rewrite Hrejected. reflexivity.
  - apply Hpassed. intros time Hin. vm_compute in Hin.
    repeat (destruct Hin as [<- | Hin]; [vm_compute; discriminate|]).
    destruct Hin.
Defined.

(** C7, counterexample.  A limiter with [maxRequests = 0] rejects its very
    first call; the array is empty, so there is no oldest timestamp and the
    message carries no wait time but [NaN]; and a call made long after the
    window has passed is rejected in the same way. *)
Lemma acquire_without_capacity_carries_no_wait_time :
  let this := {| Patterns.RateLimiter.maxRequests := 0;
                 Patterns.RateLimiter.windowMs := 1000 |} in
  Patterns.RateLimiter.acquire this 1000 []
  = (Rejected {| name := "Error";
                 message :=
                   "Rate limit exceeded. Wait NaNms before retrying." |}, [])
  ∧ Patterns.RateLimiter.waitTime this 1000 [] = None
  ∧ Patterns.RateLimiter.acquire this 5000 []
    = (Rejected {| name := "Error";
                   message :=
                     "Rate limit exceeded. Wait NaNms before retrying." |},
       []).
Proof. repeat split. Qed.

Lemma rejected_acquire_records_nothing_witness :
  Patterns.RateLimiter.reachable Scenario.limiter 1004 Scenario.five_requests
  ∧ snd (Patterns.RateLimiter.acquire_each Scenario.limiter
           [1005; 1006; 1500] Scenario.five_requests)
    = Scenario.five_requests
  ∧ fst (Patterns.RateLimiter.acquire_each Scenario.limiter
           [1005; 1006; 1500] Scenario.five_requests)
    = [Rejected (Patterns.RateLimiter.rateLimitError (Some 995));
       Rejected (Patterns.RateLimiter.rateLimitError (Some 994));
       Rejected (Patterns.RateLimiter.rateLimitError (Some 500))].
Proof.
  pose proof five_requests_reachable as Hreach.
  split; [exact Hreach|].
  destruct (rejected_acquire_records_nothing Scenario.limiter) as [_ Hrow].
  destruct (Hrow 1004 Scenario.five_requests [1005; 1006; 1500] Hreach
              eq_refl) as (Hsame & Herrors & _).
  split; [exact Hsame|]. rewrite Herrors. reflexivity.
Defined.

(** ** Cache-aside *)

Section CacheAsideFacts.
Import Patterns.CacheAside.
Context {T : Type}.
Variable this : t.

Lemma Map_get_set (key : string) (v : Entry T) (m : JsMap (Entry T)) :
  Map_get key (Map_set key v m) = Some v.
Proof.
  unfold Map_get. induction m as [|[k x] m IH]; simpl.
  - rewrite String.eqb_refl. reflexivity.
  - destruct (String.eqb k key) eqn:Hk; simpl; rewrite Hk; [reflexivity|].
    exact IH.
Qed.

Lemma get_fresh (key : string) (fetchFunction : Op T)
    (cache : JsMap (Entry T)) (w : World) (cached : Entry T) :
  Map_get key cache = Some cached →
  clock w < expiry cached →
  get this key fetchFunction cache w = (Resolved (data cached), cache, w).
Proof.
  intros Hget Hlive. unfold get. rewrite Hget.
  destruct (Z.ltb_spec (clock w) (expiry cached)); [reflexivity|lia].
Qed.

Lemma get_stale (key : string) (fetchFunction : Op T)
    (cache : JsMap (Entry T)) (w : World) :
  stale key cache (clock w) →
  get this key fetchFunction cache w
  = match fetchFunction w with
    | (Resolved data, w1) =>
        (Resolved data, set this (clock w1) key data cache, w1)
    | (Rejected error, w1) => (Rejected error, cache, w1)
    end.
Proof.
  unfold stale, get. destruct (Map_get key cache) as [cached|];
    [|reflexivity].
  intros Hexp. destruct (Z.ltb_spec (clock w) (expiry cached));
    [lia|reflexivity].
Qed.

Lemma get_rejected_is_stale (key : string) (fetchFunction : Op T)
    (cache : JsMap (Entry T)) (w : World) (e : JsError) :
  settled (get this key fetchFunction cache w) = Rejected e →
  stale key cache (clock w).
Proof.
  unfold stale, get, settled.
  destruct (Map_get key cache) as [cached|]; [|trivial].
  destruct (Z.ltb_spec (clock w) (expiry cached)); [discriminate|].
  intros _. assumption.
Qed.

(** The parts of the cache-aside contract that hold for every key: a live
    entry is returned without the fetch function being run; otherwise the
    fetched value is stored with [expiry = now + ttlMs] and returned, so
    that a second read before that instant is a hit; and when the cache is
    full and its first key is a non-empty string, that oldest entry is
    deleted before the new one is set. *)
Lemma cache_aside_hit_miss_evict (key : string) (cache : JsMap (Entry T)) :
  (∀ fetchFunction w cached,
     Map_get key cache = Some cached → clock w < expiry cached →
     get this key fetchFunction cache w = (Resolved (data cached), cache, w))
  ∧ (∀ fetchFunction w w1 value,
       stale key cache (clock w) →
       fetchFunction w = (Resolved value, w1) →
       let result := get this key fetchFunction cache w in
       settled result = Resolved value
       ∧ world_after result = w1
       ∧ Map_get key (fields_after result)
         = Some {| data := value; expiry := clock w1 + ttlMs this |}
       ∧ ∀ fetchAgain w2,
           clock w2 < clock w1 + ttlMs this →
           get this key fetchAgain (fields_after result) w2
           = (Resolved value, fields_after result, w2))
  ∧ (∀ now value oldest entry rest,
       cache = (oldest, entry) :: rest →
       maxSize this <= Map_size cache →
       oldest ≠ EmptyString →
       set this now key value cache
       = Map_set key {| data := value; expiry := now + ttlMs this |}
           (Map_delete oldest cache)).
Proof.
  split; [|split].
  - intros fetchFunction w cached. apply get_fresh.
  - intros fetchFunction w w1 value Hstale Hfetch result.
    assert (Hresult : result
                      = (Resolved value, set this (clock w1) key value cache,
                         w1)).
    { subst result. rewrite (get_stale _ _ _ _ Hstale), Hfetch. reflexivity. }
    rewrite Hresult. unfold settled, world_after, fields_after. simpl.
    assert (Hstored : Map_get key (set this (clock w1) key value cache)
                      = Some {| data := value;
                                expiry := clock w1 + ttlMs this |})
      by (unfold set; apply Map_get_set).
    repeat split; [exact Hstored|].
    intros fetchAgain w2 Hlive.
    apply (get_fresh key fetchAgain _ w2 _ Hstored). simpl. exact Hlive.
  - intros now value oldest entry rest -> Hfull Hkey. unfold set.
    destruct (Z.leb_spec (maxSize this)
                (Map_size ((oldest, entry) :: rest))); [|lia].
    simpl. destruct oldest; [congruence|reflexivity].
Qed.

(** C10.  A read that goes to the fetch function and whose fetch function
    rejects with [e] rejects with that same [e] and leaves the cache as it
    found it.  Conversely, whenever [get] rejects, the entry was missing or
    expired, the error is the one the fetch function rejected with, and the
    cache is the one the call found: nothing was stored and nothing
    evicted.  A later read of the same key therefore finds it missing or
    expired again and runs its fetch function. *)
Theorem get_failure_leaves_cache_untouched
    (key : string) (cache : JsMap (Entry T)) :
  (∀ (fetchFunction : Op T) (w w1 : World) (e : JsError),
     stale key cache (clock w) →
     fetchFunction w = (Rejected e, w1) →
     get this key fetchFunction cache w = (Rejected e, cache, w1))
  ∧ (∀ (fetchFunction : Op T) (w : World) (e : JsError),
       settled (get this key fetchFunction cache w) = Rejected e →
       stale key cache (clock w)
       ∧ fst (fetchFunction w) = Rejected e
       ∧ get this key fetchFunction cache w
         = (Rejected e, cache, snd (fetchFunction w))
       ∧ ∀ (fetchAgain : Op T) (w2 : World),
           clock w <= clock w2 →
           settled (get this key fetchAgain
                      (fields_after (get this key fetchFunction cache w)) w2)
           = fst (fetchAgain w2)
           ∧ world_after
               (get this key fetchAgain
                  (fields_after (get this key fetchFunction cache w)) w2)
             = snd (fetchAgain w2)).
Proof.
  split.
  - intros fetchFunction w w1 e Hstale Hfetch.
    rewrite (get_stale _ _ _ _ Hstale), Hfetch. reflexivity.
  - intros fetchFunction w e Hrejected.
    pose proof (get_rejected_is_stale _ _ _ _ _ Hrejected) as Hstale.
    split; [exact Hstale|].
    rewrite (get_stale _ _ _ _ Hstale) in *.
    destruct (fetchFunction w) as [[value | error] w1]; unfold settled in *;
      simpl in *; [discriminate|].
    injection Hrejected as ->. split; [reflexivity|]. split; [reflexivity|].
    intros fetchAgain w2 Hlater.
    assert (Hstill : stale key cache (clock w2)).
    { unfold stale in *. destruct (Map_get key cache); [lia|trivial]. }
    rewrite (get_stale _ _ _ _ Hstill).
    destruct (fetchAgain w2) as [[? | ?] ?]; split; reflexivity.
Qed.

End CacheAsideFacts.

Lemma get_failure_leaves_cache_untouched_witness :
  let warm := Scenario.cache_after_first_key in
  let expired :=
    Scenario.at_time (clock (world_after warm) + 300000) (world_after warm) in
  let failed :=
    Patterns.CacheAside.get Scenario.single_entry_cache "k"
      Scenario.always_failing (fields_after warm) expired in
  settled failed = Rejected Scenario.econnreset
  ∧ fields_after failed = fields_after warm
  ∧ invocations
      (world_after
         (Patterns.CacheAside.get Scenario.single_entry_cache "k"
            Scenario.always_succeeding (fields_after failed)
            (world_after failed)))
    = 3%nat.
Proof.
  intros warm expired failed.
  assert (Hrejected : settled failed = Rejected Scenario.econnreset)
    by reflexivity.
  destruct (get_failure_leaves_cache_untouched Scenario.single_entry_cache
              "k" (fields_after warm)) as [_ Hconverse].
  destruct (Hconverse Scenario.always_failing expired Scenario.econnreset
              Hrejected) as (_ & _ & Hsame & Hagain).
  destruct (Hagain Scenario.always_succeeding (world_after failed)
              ltac:(vm_compute; discriminate)) as [_ Hworld].
  split; [exact Hrejected|]. subst failed. split.
  - rewrite Hsame. reflexivity.
  - rewrite Hworld. reflexivity.
Defined.

(** C8, the failing input.  A cache with [maxSize = 1] that holds the key
    [EmptyString] is full, yet reading [a] stores a second entry without
    evicting the first: [if (firstKey)] takes the empty string for a
    missing key.  With the key [k] in its place the oldest entry is evicted
    as the comment in [set] says. *)
Theorem empty_key_entry_is_not_evicted :
  let first := Scenario.cache_after_empty_key in
  let second := Scenario.cache_after_second_key in
  settled first = Resolved 0%nat
  ∧ List.map fst (fields_after first) = [EmptyString]
  ∧ Patterns.CacheAside.Map_size (fields_after first)
    = Patterns.CacheAside.maxSize Scenario.single_entry_cache
  ∧ settled second = Resolved 1%nat
  ∧ List.map fst (fields_after second) = [EmptyString; "a"]
  ∧ Patterns.CacheAside.maxSize Scenario.single_entry_cache
    < Patterns.CacheAside.Map_size (fields_after second)
  ∧ List.map fst (fields_after Scenario.cache_after_first_key) = ["k"]
  ∧ List.map fst (fields_after Scenario.cache_after_other_key) = ["a"].
Proof. vm_compute. repeat split; reflexivity. Qed.

(** ** Bulkheads *)

Section ObservabilityBulkheadFacts.
Import Contracts Observability.Bulkhead.
Context {T : Type}.
Variable config : BulkheadConfig.

(** Admission in resilience.ts: run at once under [maxConcurrent], else
    queue under [maxQueue], else reject. *)
Lemma observability_bulkhead_admission (c : Caller) (operation : OperationId)
    (b : t) :
  (running b < maxConcurrent config →
   execute (T := T) config c operation b
   = ({| running := running b + 1; queue := queue b;
         awaiting := awaiting b ++ [(c, Original operation)] |},
      [Invoke (Original operation)]))
  ∧ (maxConcurrent config <= running b →
     Z.of_nat (length (queue b)) < maxQueue config →
     execute (T := T) config c operation b
     = ({| running := running b; queue := queue b ++ [c];
           awaiting := awaiting b |}, []))
  ∧ (maxConcurrent config <= running b →
     maxQueue config <= Z.of_nat (length (queue b)) →
     execute (T := T) config c operation b
     = (b, [Reject c (Error "Bulkhead queue is full")])).
Proof.
  unfold execute, runOperation. repeat split.
  - intros H. destruct (Z.ltb_spec (running b) (maxConcurrent config));
      [reflexivity|lia].
  - intros H1 H2. destruct (Z.ltb_spec (running b) (maxConcurrent config));
      [lia|].
    destruct (Z.ltb_spec (Z.of_nat (length (queue b))) (maxQueue config));
      [reflexivity|lia].
  - intros H1 H2. destruct (Z.ltb_spec (running b) (maxConcurrent config));
      [lia|].
    destruct (Z.ltb_spec (Z.of_nat (length (queue b))) (maxQueue config));
      [lia|reflexivity].
Qed.

(** Nothing that happens when an awaited promise settles calls an operation
    a caller passed in: the only function [processQueue] starts is the
    placeholder. *)
Lemma observability_bulkhead_resume_invokes_no_operation
    (c : Caller) (r : Outcome T JsError) (b : t) (operation : OperationId) :
  ¬ In (Invoke (Original operation)) (snd (resume config c r b)).
Proof.
  unfold resume. destruct (take_awaiting c (awaiting b)) as [[work rest]|];
    [|simpl; tauto].
  unfold processQueue, runOperation. simpl.
  destruct (queue b) as [|next waiting]; simpl.
  - destruct work, r; simpl; intros [H | []]; discriminate H.
  - destruct (running b - 1 <? maxConcurrent config); simpl;
      destruct work, r; simpl; intros H;
      repeat (destruct H as [H | H]; try discriminate H); exact H.
Qed.

(** When a running operation settles while callers wait, the oldest waiter
    leaves the queue, and what is started for it is the placeholder. *)
Lemma observability_bulkhead_dequeues_oldest
    (c next : Caller) (waiting : list Caller) (r : Outcome T JsError) (b : t)
    (work : Work) (others : list (Caller * Work)) :
  take_awaiting c (awaiting b) = Some (work, others) →
  queue b = next :: waiting →
  running b - 1 < maxConcurrent config →
  ∃ settled,
    resume config c r b
    = ({| running := running b; queue := waiting;
          awaiting := others ++ [(next, ResolvedPlaceholder)] |},
       [settled; Invoke ResolvedPlaceholder]).
Proof.
  intros Htake Hqueue Hroom. unfold resume, processQueue, runOperation.
  rewrite Htake. simpl. rewrite Hqueue.
  destruct (Z.ltb_spec (running b - 1) (maxConcurrent config)); [|lia].
  eexists. simpl. repeat f_equal. lia.
Qed.

(** When the placeholder started for a waiter settles, the waiter is
    resolved with [undefined], whatever its own operation would return. *)
Lemma observability_bulkhead_waiter_gets_undefined
    (c : Caller) (r : Outcome T JsError) (b : t)
    (others : list (Caller * Work)) :
  take_awaiting c (awaiting b) = Some (ResolvedPlaceholder, others) →
  head (snd (resume config c r b)) = Some (Resolve c None).
Proof.
  intros Htake. unfold resume. rewrite Htake.
  destruct (processQueue config _) as [b' started]. reflexivity.
Qed.

End ObservabilityBulkheadFacts.

Section PatternBulkheadFacts.
Import Patterns.Bulkhead.
Context {T : Type}.

(** The pattern library's bulkhead keeps the operation with the waiter and
    invokes it when the waiter is dequeued. *)
Lemma pattern_bulkhead_dequeue_invokes_operation
    (c next : Caller) (operation : OperationId)
    (waiting : list (Caller * OperationId)) (r : Outcome T JsError) (b : t)
    (others : list Caller) :
  remove_first c (awaiting b) = Some others →
  queue b = (next, operation) :: waiting →
  running b - 1 < semaphore b →
  ∃ settled,
    resume c r b
    = ({| semaphore := semaphore b; queue := waiting; running := running b;
          awaiting := others ++ [next] |},
       [settled; Invoke operation]).
Proof.
  intros Htake Hqueue Hroom. unfold resume, process. rewrite Htake. simpl.
  rewrite Hqueue.
  destruct (Z.leb_spec (semaphore b) (running b - 1)); [lia|].
  eexists. simpl. repeat f_equal. lia.
Qed.

End PatternBulkheadFacts.

(** C5, the failing input.  With [maxConcurrent = 1] and [maxQueue = 1]:
    caller 1 runs operation 11 at once, caller 2 is queued, caller 3 is
    rejected with the queue-full error.  When operation 11 resolves with
    100, caller 1 receives it and caller 2 is dequeued, but what is started
    for it is the placeholder, and caller 2 is resolved with [undefined]:
    operation 12 is never invoked.  The pattern library's bulkhead does
    invoke operation 12 for caller 2 and hands it the result. *)
Theorem queued_operation_is_never_run :
  snd Scenario.bulkhead_run
  = [Observability.Bulkhead.Invoke (Observability.Bulkhead.Original 11%nat);
     Observability.Bulkhead.Reject 3%nat (Error "Bulkhead queue is full");
     Observability.Bulkhead.Resolve 1%nat (Some 100%nat);
     Observability.Bulkhead.Invoke Observability.Bulkhead.ResolvedPlaceholder;
     Observability.Bulkhead.Resolve 2%nat None]
  ∧ ¬ In (Observability.Bulkhead.Invoke
            (Observability.Bulkhead.Original 12%nat))
         (snd Scenario.bulkhead_run)
  ∧ fst Scenario.bulkhead_run = Observability.Bulkhead.init
  ∧ snd Scenario.pattern_bulkhead_run
    = [Patterns.Bulkhead.Invoke 11%nat;
       Patterns.Bulkhead.Resolve 1%nat 100%nat;
       Patterns.Bulkhead.Invoke 12%nat;
       Patterns.Bulkhead.Resolve 2%nat 200%nat].
Proof.
  vm_compute. repeat split; try reflexivity.
  intros H. repeat (destruct H as [H | H]; try discriminate H). exact H.
Qed.

(** * Further properties of the two libraries *)

(** ** Circuit breakers: what every reachable breaker satisfies *)

Section ObservabilityBreakerInvariant.
Import Contracts Observability.CircuitBreaker.
Variable config : CircuitBreakerConfig.

(** A call of [execute] that overlaps no other is its pieces one after the
    other, the clock not ticking inside [onFailure]. *)
Lemma observability_execute_in_pieces {T} (operation : Op T) (cb : t)
    (w : World) :
  fields_after (execute config operation cb w)
  = match gate (clock w) cb with
    | inr _ => piece config (Admission (clock w)) cb
    | inl _ =>
        let '(r, w') := operation w in
        pieces config
          [Admission (clock w);
           match r with
           | Resolved _ => Success (clock w')
           | Rejected _ => Failure (clock w') (clock w')
           end] cb
    end.
Proof.
  unfold execute, fields_after, pieces. cbn [fold_left piece].
  destruct (gate (clock w) cb) as [cb1 | e]; [|reflexivity].
  destruct (operation w) as [[v | e] w']; reflexivity.
Qed.




End ObservabilityBreakerInvariant.


Section PatternBreakerInvariant.
Import Patterns Patterns.CircuitBreaker.
Context {A T : Type}.
Variable this : Settings.
Variable operation : A -> Op T.

(** X2.  Pattern-library breaker, with a threshold of at least one failure: the
    failure counter is never negative, the success counter stays between 0
    and 3 and below 3 while the breaker is HALF_OPEN, and a CLOSED breaker
    has counted fewer than [failureThreshold] failures. *)
Theorem pattern_breaker_invariant (cb : t) :
  1 <= failureThreshold this →
  reachable this operation cb →
  0 <= failureCount cb
  ∧ 0 <= successCount cb <= 3
  ∧ (state cb = HALF_OPEN → successCount cb <= 2)
  ∧ (state cb = CLOSED → failureCount cb < failureThreshold this).
Proof.
  intros Hthreshold Hreach.
  induction Hreach as [|args cb w Hreach (Hf & Hs & Hhalf & Hclosed)].
  - simpl. repeat split; intros; try lia; try congruence.
  - unfold execute, gate, fields_after, onSuccess, onFailure.
    destruct (state cb) eqn:Hstate.
    + specialize (Hclosed eq_refl).
      destruct (operation args w) as [[v | e] w']; simpl; rewrite ?Hstate.
      * simpl. repeat split; intros; try lia; try congruence.
      * destruct (Z.leb_spec (failureThreshold this) (failureCount cb + 1));
          simpl; repeat split; intros; try lia; try congruence.
    + destruct (shouldAttemptReset this (clock w) cb); simpl.
      * destruct (operation args w) as [[v | e] w']; simpl;
          repeat split; intros; try lia; try congruence.
      * rewrite Hstate. repeat split; intros; try lia; try congruence.
    + specialize (Hhalf eq_refl).
      destruct (operation args w) as [[v | e] w']; simpl; rewrite ?Hstate;
        simpl.
      * destruct (Z.leb_spec 3 (successCount cb + 1)); simpl;
          repeat split; intros; try lia; try congruence.
      * repeat split; intros; try lia; try congruence.
Qed.

End PatternBreakerInvariant.

Lemma pattern_breaker_invariant_witness :
  let cb := fields_after Scenario.pattern_probe2 in
  1 <= Patterns.CircuitBreaker.failureThreshold Scenario.pattern_breaker
  ∧ Patterns.CircuitBreaker.state cb = Patterns.HALF_OPEN
  ∧ Patterns.CircuitBreaker.successCount cb <= 2.
Proof.
  intros cb.
  assert (Hthreshold :
            1 <= Patterns.CircuitBreaker.failureThreshold
                   Scenario.pattern_breaker) by (vm_compute; discriminate).
  assert (Hreach : Patterns.CircuitBreaker.reachable Scenario.pattern_breaker
                     (fun _ : unit => Scenario.recovering) cb).
  { repeat (apply (Patterns.CircuitBreaker.reachable_execute
                     Scenario.pattern_breaker
                     (fun _ : unit => Scenario.recovering) tt)).
    apply Patterns.CircuitBreaker.reachable_init. }
  assert (Hhalf : Patterns.CircuitBreaker.state cb = Patterns.HALF_OPEN)
    by (vm_compute; reflexivity).
  destruct (pattern_breaker_invariant Scenario.pattern_breaker
              (fun _ : unit => Scenario.recovering) cb Hthreshold Hreach)
    as (_ & _ & Hquota & _).
  split; [exact Hthreshold|]. split; [exact Hhalf|]. exact (Hquota Hhalf).
Defined.

(** X3.  In both libraries a breaker opens in [onFailure] and nowhere else:
    whatever calls of [execute] overlap, if the breaker is OPEN after their
    pieces have run, it was OPEN before them or one of the calls failed.
    Neither the admission at the head of [execute] nor [onSuccess] ever
    opens a breaker. *)
Theorem breaker_opens_only_in_onFailure :
  (∀ (config : Contracts.CircuitBreakerConfig)
     (history : list Observability.CircuitBreaker.Piece)
     (cb : Observability.CircuitBreaker.t),
     Contracts.state (Observability.CircuitBreaker.pieces config history cb)
     = Contracts.OPEN →
     Contracts.state cb = Contracts.OPEN
     ∨ ∃ failedAt retryFrom,
         In (Observability.CircuitBreaker.Failure failedAt retryFrom) history)
  ∧ (∀ (this : Patterns.CircuitBreaker.Settings)
       (history : list Patterns.CircuitBreaker.Piece)
       (cb : Patterns.CircuitBreaker.t),
       Patterns.CircuitBreaker.state
         (Patterns.CircuitBreaker.pieces this history cb)
       = Patterns.OPEN →
       Patterns.CircuitBreaker.state cb = Patterns.OPEN
       ∨ ∃ now, In (Patterns.CircuitBreaker.Failure now) history).
Proof.
  split.
  - intros config history.
    induction history as [|p history IH]; intros cb Hopen; [left; exact Hopen|].
    unfold Observability.CircuitBreaker.pieces in *. cbn [fold_left] in Hopen.
    destruct (IH _ Hopen) as [Hbefore | (failedAt & retryFrom & Hin)];
      [|right; exists failedAt, retryFrom; right; exact Hin].
    destruct p as [now | now | failedAt retryFrom];
      [| |right; exists failedAt, retryFrom; left; reflexivity]; left;
      cbn [Observability.CircuitBreaker.piece] in Hbefore.
    + unfold Observability.CircuitBreaker.gate in Hbefore.
      destruct (Contracts.state cb) eqn:Hstate;
        try (rewrite Hstate in Hbefore; discriminate Hbefore);
        reflexivity.
    + unfold Observability.CircuitBreaker.onSuccess in Hbefore.
      destruct (Contracts.state cb) eqn:Hstate; cbn in Hbefore;
        (discriminate Hbefore || reflexivity).
  - intros this history.
    induction history as [|p history IH]; intros cb Hopen; [left; exact Hopen|].
    unfold Patterns.CircuitBreaker.pieces in *. cbn [fold_left] in Hopen.
    destruct (IH _ Hopen) as [Hbefore | (now & Hin)];
      [|right; exists now; right; exact Hin].
    destruct p as [now | | now];
      [| |right; exists now; left; reflexivity]; left;
      cbn [Patterns.CircuitBreaker.piece] in Hbefore.
    + unfold Patterns.CircuitBreaker.gate in Hbefore.
      destruct (Patterns.CircuitBreaker.state cb) eqn:Hstate;
        try (rewrite Hstate in Hbefore; discriminate Hbefore);
        reflexivity.
    + unfold Patterns.CircuitBreaker.onSuccess in Hbefore.
      destruct (Patterns.CircuitBreaker.state cb) eqn:Hstate; cbn in Hbefore;
        try (discriminate Hbefore || reflexivity).
      destruct (3 <=? Patterns.CircuitBreaker.successCount cb + 1);
        discriminate Hbefore.
Qed.

(** A call of the pattern library's [execute] that overlaps no other is
    its pieces one after the other. *)
Lemma pattern_execute_in_pieces {A T} (this : Patterns.CircuitBreaker.Settings)
    (operation : A -> Op T) (args : A) (cb : Patterns.CircuitBreaker.t)
    (w : World) :
  fields_after (Patterns.CircuitBreaker.execute this operation args cb w)
  = match Patterns.CircuitBreaker.gate this (clock w) cb with
    | inr _ =>
        Patterns.CircuitBreaker.piece this
          (Patterns.CircuitBreaker.Admission (clock w)) cb
    | inl _ =>
        let '(r, w') := operation args w in
        Patterns.CircuitBreaker.pieces this
          [Patterns.CircuitBreaker.Admission (clock w);
           match r with
           | Resolved _ => Patterns.CircuitBreaker.Success
           | Rejected _ => Patterns.CircuitBreaker.Failure (clock w')
           end] cb
    end.
Proof.
  unfold Patterns.CircuitBreaker.execute, fields_after,
    Patterns.CircuitBreaker.pieces.
  cbn [fold_left Patterns.CircuitBreaker.piece].
  destruct (Patterns.CircuitBreaker.gate this (clock w) cb) as [cb1 | e];
    [|reflexivity].
  destruct (operation args w) as [[v | e] w']; reflexivity.
Qed.

(** ** Retry policies: the whole run *)

Section PatternRetryTrace.
Import Patterns.RetryPolicy.
Context {T : Type}.
Variable this : t.
Variable entropy : nat -> Q.
Variable behaviour : nat -> Outcome T JsError * Z.
Variable shouldRetry : JsError -> bool.

Lemma pattern_attempts_scripted (remaining : nat) (attempt : Z) lastError
    (w : World) :
  attempts this entropy (scripted behaviour) shouldRetry (S remaining)
    attempt lastError w
  = let w1 := {| clock := clock w + snd (behaviour (invocations w));
                 invocations := S (invocations w);
                 draws := draws w; timers := timers w |} in
    match fst (behaviour (invocations w)) with
    | Resolved v => (Resolved v, w1)
    | Rejected e =>
        if (attempt =? maxAttempts this) || negb (shouldRetry e)
        then (Rejected (Some e), w1)
        else
          attempts this entropy (scripted behaviour) shouldRetry remaining
            (attempt + 1) (Some e)
            {| clock := clock w1
                        + timer_delay (totalDelay this entropy attempt (draws w));
               invocations := S (invocations w);
               draws := S (draws w);
               timers := timers w
                         ++ [totalDelay this entropy attempt (draws w)] |}
    end.
Proof.
  cbn [attempts]. unfold scripted at 1.
  destruct (behaviour (invocations w)) as [[v | e] d]; reflexivity.
Qed.

Lemma pattern_attempts_trace (remaining : nat) :
  ∀ (attempt : Z) lastError (w : World),
    Z.of_nat (S remaining) = maxAttempts this - attempt + 1 →
    let result :=
      attempts this entropy (scripted behaviour) shouldRetry (S remaining)
        attempt lastError w in
    ∃ retries : nat,
      (retries <= remaining)%nat
      ∧ fst result = as_thrown (fst (behaviour (invocations w + retries)%nat))
      ∧ invocations (snd result) = (invocations w + S retries)%nat
      ∧ draws (snd result) = (draws w + retries)%nat
      ∧ timers (snd result)
        = timers w
          ++ List.map (fun i => totalDelay this entropy (attempt + Z.of_nat i)
                                  (draws w + i))
                      (seq 0 retries)
      ∧ ∀ i, (i < retries)%nat →
             ∃ e, fst (behaviour (invocations w + i)%nat) = Rejected e
                  ∧ shouldRetry e = true.
Proof.
  induction remaining as [|remaining IH]; intros attempt lastError w Hrem result;
    subst result; rewrite pattern_attempts_scripted; cbv zeta.
  - exists 0%nat. rewrite Nat.add_0_r.
    destruct (fst (behaviour (invocations w))) as [v | e]; simpl.
    + rewrite app_nil_r. repeat split; try lia.
    + destruct (Z.eqb_spec attempt (maxAttempts this)); [|lia]. simpl.
      rewrite app_nil_r. repeat split; try lia.
  - destruct (fst (behaviour (invocations w))) as [v | e] eqn:Hb.
    + exists 0%nat. rewrite Nat.add_0_r, Hb. simpl. rewrite app_nil_r.
      repeat split; try lia.
    + destruct ((attempt =? maxAttempts this) || negb (shouldRetry e))
        eqn:Hstop.
      * exists 0%nat. rewrite Nat.add_0_r, Hb. simpl. rewrite app_nil_r.
        repeat split; try lia.
      * apply orb_false_elim in Hstop. destruct Hstop as [_ Hyes].
        apply negb_false_iff in Hyes.
        match goal with
        | |- context [attempts _ _ _ _ _ _ _ ?w'] => set (w2 := w')
        end.
        destruct (IH (attempt + 1) (Some e) w2 ltac:(lia))
          as (retries & Hle & Hres & Hinv & Hdraws & Htimers & Hfailed).
        exists (S retries).
        assert (Hw2i : invocations w2 = S (invocations w)) by reflexivity.
        assert (Hw2d : draws w2 = S (draws w)) by reflexivity.
        assert (Hw2t : timers w2
                       = timers w ++ [totalDelay this entropy attempt (draws w)])
          by reflexivity.
        rewrite Hw2i in *. rewrite Hw2d in *. rewrite Hw2t in Htimers.
        split; [lia|]. split.
        { rewrite Hres. f_equal. f_equal. f_equal. lia. }
        split; [rewrite Hinv; lia|]. split; [rewrite Hdraws; lia|]. split.
        { rewrite Htimers, <- app_assoc. f_equal. cbn [seq List.map].
          rewrite Z.add_0_r, Nat.add_0_r. simpl app. f_equal.
          rewrite <- seq_shift, List.map_map. apply List.map_ext.
          intros i. f_equal; lia. }
        intros i Hi. destruct i as [|i].
        { rewrite Nat.add_0_r, Hb. exists e. split; [reflexivity|exact Hyes]. }
        destruct (Hfailed i ltac:(lia)) as (e' & He' & Hr').
        exists e'. split; [|exact Hr'].
        replace (invocations w + S i)%nat with (S (invocations w) + i)%nat
          by lia. exact He'.
Qed.

(** X4.  Pattern-library retry policy on an operation given by its successive
    settlements.  With [maxAttempts < 1] the operation is never invoked and
    the promise rejects with [undefined].  Otherwise the operation is
    invoked [retries + 1] times, at most [maxAttempts]; every invocation but
    the last failed with a retryable error; the result is the settlement of
    the last invocation, unchanged; and the timers set are exactly the
    [retries] delays [delay k + jitter] for [k = 1 .. retries], each at most
    [maxDelay] plus 10% when [maxDelay] is not negative and [Math.random()]
    stays in [0, 1]. *)
Theorem pattern_retry_trace (w : World) :
  let result :=
    execute this entropy (scripted behaviour) (Some shouldRetry) w in
  (maxAttempts this < 1 → result = (Rejected None, w))
  ∧ (1 <= maxAttempts this →
     ∃ retries : nat,
       Z.of_nat (S retries) <= maxAttempts this
       ∧ fst result = as_thrown (fst (behaviour (invocations w + retries)%nat))
       ∧ invocations (snd result) = (invocations w + S retries)%nat
       ∧ timers (snd result)
         = timers w
           ++ List.map (fun i => totalDelay this entropy (1 + Z.of_nat i)
                                   (draws w + i))
                       (seq 0 retries)
       ∧ (∀ i, (i < retries)%nat →
               ∃ e, fst (behaviour (invocations w + i)%nat) = Rejected e
                    ∧ shouldRetry e = true)
       ∧ ((0 <= maxDelay this)%Q →
          (∀ n, (0 <= entropy n)%Q ∧ (entropy n <= 1)%Q) →
          ∀ i, (i < retries)%nat →
               (totalDelay this entropy (1 + Z.of_nat i) (draws w + i)
                <= maxDelay this * (11 # 10))%Q)).
Proof.
  intros result. split.
  - intros Hnone. subst result. unfold execute.
    replace (Z.to_nat (maxAttempts this)) with 0%nat by lia. reflexivity.
  - intros Hsome. subst result. unfold execute.
    destruct (Z.to_nat (maxAttempts this)) as [|remaining] eqn:Hn; [lia|].
    destruct (pattern_attempts_trace remaining 1 None w ltac:(lia))
      as (retries & Hle & Hres & Hinv & _ & Htimers & Hfailed).
    exists retries. cbn [default].
    split; [lia|]. split; [exact Hres|]. split; [exact Hinv|].
    split; [exact Htimers|]. split; [exact Hfailed|].
    intros Hcap Hentropy i _. unfold totalDelay, jitter, delay.
    destruct (Hentropy (draws w + i)%nat) as [Hu0 Hu1].
    set (u := entropy (draws w + i)) in *.
    destruct (Q.min_spec (baseDelay this
                          * backoffMultiplier this ^ (1 + Z.of_nat i - 1))%Q
                         (maxDelay this)) as [[Hlt ->] | [Hge ->]].
    + set (d := (baseDelay this
                 * backoffMultiplier this ^ (1 + Z.of_nat i - 1))%Q) in *.
      destruct (Qlt_le_dec d 0); nra.
    + nra.
Qed.

End PatternRetryTrace.

Section ObservabilityRetryTrace.
Import Contracts Observability.RetryPolicy.
Context {T : Type}.
Variable config : RetryConfig.
Variable behaviour : nat -> Outcome T JsError * Z.

Lemma observability_attempts_scripted (remaining : nat) (attempt : Z)
    (delay : Q) lastError (w : World) :
  attempts config (scripted behaviour) (S remaining) attempt delay lastError w
  = let w1 := {| clock := clock w + snd (behaviour (invocations w));
                 invocations := S (invocations w);
                 draws := draws w; timers := timers w |} in
    match fst (behaviour (invocations w)) with
    | Resolved v => (Resolved v, w1)
    | Rejected e =>
        if (attempt =? maxAttempts config) || negb (isRetryableError config e)
        then (Rejected (Some e), w1)
        else
          attempts config (scripted behaviour) remaining (attempt + 1)
            (Qmin (delay * backoffMultiplier config) (maxDelay config))
            (Some e)
            {| clock := clock w1 + timer_delay delay;
               invocations := S (invocations w);
               draws := draws w;
               timers := timers w ++ [delay] |}
    end.
Proof.
  cbn [attempts]. unfold scripted at 1.
  destruct (behaviour (invocations w)) as [[v | e] d]; cbn [fst snd];
    [reflexivity|].
  destruct (attempt =? maxAttempts config); [reflexivity|].
  destruct (isRetryableError config e); reflexivity.
Qed.

Lemma observability_attempts_trace (remaining : nat) :
  ∀ (attempt : Z) (updates : nat) lastError (w : World),
    Z.of_nat (S remaining) = maxAttempts config - attempt + 1 →
    let result :=
      attempts config (scripted behaviour) (S remaining) attempt
        (delay_after config updates) lastError w in
    ∃ retries : nat,
      (retries <= remaining)%nat
      ∧ fst result = as_thrown (fst (behaviour (invocations w + retries)%nat))
      ∧ invocations (snd result) = (invocations w + S retries)%nat
      ∧ draws (snd result) = draws w
      ∧ timers (snd result)
        = timers w
          ++ List.map (fun i => delay_after config (updates + i))
                      (seq 0 retries)
      ∧ ∀ i, (i < retries)%nat →
             ∃ e, fst (behaviour (invocations w + i)%nat) = Rejected e
                  ∧ isRetryableError config e = true.
Proof.
  induction remaining as [|remaining IH];
    intros attempt updates lastError w Hrem result;
    subst result; rewrite observability_attempts_scripted; cbv zeta.
  - exists 0%nat. rewrite Nat.add_0_r.
    destruct (fst (behaviour (invocations w))) as [v | e]; simpl.
    + rewrite app_nil_r. repeat split; try lia.
    + destruct (Z.eqb_spec attempt (maxAttempts config)); [|lia]. simpl.
      rewrite app_nil_r. repeat split; try lia.
  - destruct (fst (behaviour (invocations w))) as [v | e] eqn:Hb.
    + exists 0%nat. rewrite Nat.add_0_r, Hb. simpl. rewrite app_nil_r.
      repeat split; try lia.
    + destruct ((attempt =? maxAttempts config)
                || negb (isRetryableError config e)) eqn:Hstop.
      * exists 0%nat. rewrite Nat.add_0_r, Hb. simpl. rewrite app_nil_r.
        repeat split; try lia.
      * apply orb_false_elim in Hstop. destruct Hstop as [_ Hyes].
        apply negb_false_iff in Hyes.
        match goal with
        | |- context [attempts _ _ _ _ _ _ ?w'] => set (w2 := w')
        end.
        change (Qmin (delay_after config updates * backoffMultiplier config)
                     (maxDelay config))
          with (delay_after config (S updates)).
        destruct (IH (attempt + 1) (S updates) (Some e) w2 ltac:(lia))
          as (retries & Hle & Hres & Hinv & Hdraws & Htimers & Hfailed).
        exists (S retries).
        assert (Hw2i : invocations w2 = S (invocations w)) by reflexivity.
        assert (Hw2d : draws w2 = draws w) by reflexivity.
        assert (Hw2t : timers w2 = timers w ++ [delay_after config updates])
          by reflexivity.
        rewrite Hw2i in *. rewrite Hw2d in *. rewrite Hw2t in Htimers.
        split; [lia|]. split.
        { rewrite Hres. f_equal. f_equal. f_equal. lia. }
        split; [rewrite Hinv; lia|]. split; [exact Hdraws|]. split.
        { rewrite Htimers, <- app_assoc. f_equal. cbn [seq List.map].
          rewrite Nat.add_0_r. simpl app. f_equal.
          rewrite <- seq_shift, List.map_map. apply List.map_ext.
          intros i. rewrite Nat.add_succ_r. reflexivity. }
        intros i Hi. destruct i as [|i].
        { rewrite Nat.add_0_r, Hb. exists e. split; [reflexivity|exact Hyes]. }
        destruct (Hfailed i ltac:(lia)) as (e' & He' & Hr').
        exists e'. split; [|exact Hr'].
        replace (invocations w + S i)%nat with (S (invocations w) + i)%nat
          by lia. exact He'.
Qed.

Lemma delay_after_capped (n : nat) :
  (delay_after config n <= Qmax (initialDelay config) (maxDelay config))%Q.
Proof.
  destruct n as [|n]; cbn [delay_after].
  - apply Q.le_max_l.
  - apply Qle_trans with (maxDelay config); [apply Q.le_min_r | apply Q.le_max_r].
Qed.

(** X5.  Retry policy of resilience.ts on an operation given by its successive
    settlements.  With [maxAttempts < 1] the operation is never invoked and
    the promise rejects with [undefined].  Otherwise the operation is
    invoked [retries + 1] times, at most [maxAttempts]; every invocation but
    the last failed with an error [isRetryableError] accepts; the result is
    the settlement of the last invocation, unchanged; no random number is
    drawn; and the timers set are exactly the carried delays
    [initialDelay], [min (initialDelay * m) maxDelay], ..., none of which
    exceeds the larger of [initialDelay] and [maxDelay]. *)
Theorem observability_retry_trace (w : World) :
  let result := execute config (scripted behaviour) w in
  (maxAttempts config < 1 → result = (Rejected None, w))
  ∧ (1 <= maxAttempts config →
     ∃ retries : nat,
       Z.of_nat (S retries) <= maxAttempts config
       ∧ fst result = as_thrown (fst (behaviour (invocations w + retries)%nat))
       ∧ invocations (snd result) = (invocations w + S retries)%nat
       ∧ draws (snd result) = draws w
       ∧ timers (snd result)
         = timers w ++ List.map (delay_after config) (seq 0 retries)
       ∧ (∀ i, (i < retries)%nat →
               ∃ e, fst (behaviour (invocations w + i)%nat) = Rejected e
                    ∧ isRetryableError config e = true)
       ∧ ∀ i, (delay_after config i
               <= Qmax (initialDelay config) (maxDelay config))%Q).
Proof.
  intros result. split.
  - intros Hnone. subst result. unfold execute.
    replace (Z.to_nat (maxAttempts config)) with 0%nat by lia. reflexivity.
  - intros Hsome. subst result. unfold execute.
    destruct (Z.to_nat (maxAttempts config)) as [|remaining] eqn:Hn; [lia|].
    destruct (observability_attempts_trace remaining 1 0 None w ltac:(lia))
      as (retries & Hle & Hres & Hinv & Hdraws & Htimers & Hfailed).
    exists retries.
    split; [lia|]. split; [exact Hres|]. split; [exact Hinv|].
    split; [exact Hdraws|]. split; [exact Htimers|]. split; [exact Hfailed|].
    exact delay_after_capped.
Qed.

End ObservabilityRetryTrace.

Lemma pattern_retry_trace_witness :
  let result :=
    Patterns.RetryPolicy.execute Scenario.retry_policy Scenario.half
      Scenario.always_failing (Some Scenario.retry_network_errors)
      Scenario.start in
  1 <= Patterns.RetryPolicy.maxAttempts Scenario.retry_policy
  ∧ ∃ retries : nat,
      Z.of_nat (S retries)
      <= Patterns.RetryPolicy.maxAttempts Scenario.retry_policy
      ∧ invocations (snd result) = S retries
      ∧ ∀ i, (i < retries)%nat →
             (Patterns.RetryPolicy.totalDelay Scenario.retry_policy
                Scenario.half (1 + Z.of_nat i) (0 + i)
              <= 30000 * (11 # 10))%Q.
Proof.
  intros result.
  assert (Hsome : 1 <= Patterns.RetryPolicy.maxAttempts Scenario.retry_policy)
    by (vm_compute; discriminate).
  split; [exact Hsome|].
  destruct (pattern_retry_trace (T:=nat) Scenario.retry_policy Scenario.half
              (fun _ => (Rejected Scenario.econnreset, 10))
              Scenario.retry_network_errors Scenario.start) as [_ Htrace].
  destruct (Htrace Hsome)
    as (retries & Hle & _ & Hinv & _ & _ & Hcap).
  exists retries. split; [exact Hle|]. split; [exact Hinv|].
  apply Hcap.
  - vm_compute. discriminate.
  - intros n. split; vm_compute; discriminate.
Defined.

Lemma observability_retry_trace_witness :
  let result :=
    Observability.RetryPolicy.execute Scenario.retry_config
      Scenario.always_failing Scenario.start in
  1 <= Contracts.maxAttempts Scenario.retry_config
  ∧ ∃ retries : nat,
      Z.of_nat (S retries) <= Contracts.maxAttempts Scenario.retry_config
      ∧ invocations (snd result) = S retries
      ∧ timers (snd result)
        = List.map (Observability.RetryPolicy.delay_after Scenario.retry_config)
            (seq 0 retries).
Proof.
  intros result.
  assert (Hsome : 1 <= Contracts.maxAttempts Scenario.retry_config)
    by (vm_compute; discriminate).
  split; [exact Hsome|].
  destruct (observability_retry_trace (T:=nat) Scenario.retry_config
              (fun _ => (Rejected Scenario.econnreset, 10))
              Scenario.start) as [_ Htrace].
  destruct (Htrace Hsome)
    as (retries & Hle & _ & Hinv & _ & Htimers & _).
  exists retries. split; [exact Hle|]. split; [exact Hinv|]. exact Htimers.
Defined.

Section RetryablePatterns.
Import Contracts Observability.RetryPolicy.

Lemma includes_substring (s pattern : string) :
  includes s pattern = true
  ↔ ∃ position, substring position (String.length pattern) s = pattern.
Proof.
  unfold includes. split.
  - destruct (index 0 pattern s) as [position|] eqn:Hi; [|discriminate].
    intros _. exists position. exact (index_correct1 _ _ _ _ Hi).
  - intros [position Hsub].
    destruct (index 0 pattern s) as [found|] eqn:Hi; [reflexivity|].
    destruct pattern as [|c pattern].
    + destruct s; discriminate Hi.
    + exfalso.
      apply (index_correct3 0 position _ _ Hi); [discriminate|lia|exact Hsub].
Qed.

(** X6.  [isRetryableError] of resilience.ts accepts an error exactly when one
    of the configured patterns occurs, as a substring, in the error's
    message or in its name.  So a policy with no pattern retries nothing,
    and a policy with an empty pattern retries every error. *)
Theorem isRetryableError_substring (config : RetryConfig) (error : JsError) :
  (isRetryableError config error = true
   ↔ ∃ errorPattern position,
       In errorPattern (retryableErrors config)
       ∧ (substring position (String.length errorPattern) (message error)
          = errorPattern
          ∨ substring position (String.length errorPattern) (name error)
            = errorPattern))
  ∧ (retryableErrors config = [] → isRetryableError config error = false)
  ∧ (In EmptyString (retryableErrors config) →
     isRetryableError config error = true).
Proof.
  assert (Hiff : isRetryableError config error = true
    ↔ ∃ errorPattern position,
        In errorPattern (retryableErrors config)
        ∧ (substring position (String.length errorPattern) (message error)
           = errorPattern
           ∨ substring position (String.length errorPattern) (name error)
             = errorPattern)).
  { unfold isRetryableError. rewrite existsb_exists. split.
    - intros (errorPattern & Hin & Hor). apply orb_true_iff in Hor.
      destruct Hor as [Hm | Hn].
      + apply includes_substring in Hm. destruct Hm as [position Hm].
        exists errorPattern, position. split; [exact Hin|left; exact Hm].
      + apply includes_substring in Hn. destruct Hn as [position Hn].
        exists errorPattern, position. split; [exact Hin|right; exact Hn].
    - intros (errorPattern & position & Hin & Hor).
      exists errorPattern. split; [exact Hin|]. apply orb_true_iff.
      destruct Hor as [Hm | Hn]; [left | right];
        apply includes_substring; exists position; assumption. }
  split; [exact Hiff|]. split.
  - intros Hnone. unfold isRetryableError. rewrite Hnone. reflexivity.
  - intros Hin. apply Hiff. exists EmptyString, 0%nat.
    split; [exact Hin|]. left. destruct (message error); reflexivity.
Qed.

End RetryablePatterns.

(** ** Bulkheads: what every run keeps *)

Section ObservabilityBulkheadInvariant.
Import Contracts Observability.Bulkhead.
Context {T : Type}.
Variable config : BulkheadConfig.

Lemma take_awaiting_length (c : Caller) (l rest : list (Caller * Work))
    (work : Work) :
  take_awaiting c l = Some (work, rest) → length l = S (length rest).
Proof.
  revert work rest. induction l as [|[c' work'] l IH]; intros work rest;
    simpl; [discriminate|].
  destruct (Nat.eqb c' c).
  - intros [= _ <-]. reflexivity.
  - destruct (take_awaiting c l) as [[found rest']|]; [|discriminate].
    intros [= _ <-]. simpl. rewrite (IH found rest' eq_refl). reflexivity.
Qed.

Lemma observability_bulkhead_step_keeps (e : Event T) (b : t) :
  running b = Z.of_nat (length (awaiting b))
  ∧ running b <= maxConcurrent config
  ∧ Z.of_nat (length (queue b)) <= maxQueue config
  ∧ (queue b ≠ [] → running b = maxConcurrent config) →
  let b' := fst (step config e b) in
  running b' = Z.of_nat (length (awaiting b'))
  ∧ running b' <= maxConcurrent config
  ∧ Z.of_nat (length (queue b')) <= maxQueue config
  ∧ (queue b' ≠ [] → running b' = maxConcurrent config).
Proof.
  intros (Hrun & Hmax & Hqueue & Hfull).
  destruct e as [c operation | c r]; cbn [step].
  - unfold execute, runOperation.
    destruct (Z.ltb_spec (running b) (maxConcurrent config)) as [Hlt | Hge].
    + cbn. rewrite length_app. cbn.
      split; [lia|]. split; [lia|]. split; [exact Hqueue|].
      intros Hne. specialize (Hfull Hne). lia.
    + destruct (Z.ltb_spec (Z.of_nat (length (queue b))) (maxQueue config))
        as [Hroom | Hnoroom]; cbn.
      * rewrite length_app. cbn.
        split; [exact Hrun|]. split; [exact Hmax|]. split; lia.
      * auto.
  - unfold resume.
    destruct (take_awaiting c (awaiting b)) as [[work rest]|] eqn:Htake;
      [|cbn; auto].
    apply take_awaiting_length in Htake.
    unfold processQueue, runOperation. cbn [running queue awaiting].
    destruct (queue b) as [|next waiting] eqn:Hq.
    + cbn. split; [lia|]. split; [lia|]. split; [lia|]. congruence.
    + specialize (Hfull ltac:(discriminate)). cbn [length] in Hqueue.
      destruct (Z.ltb_spec (running b - 1) (maxConcurrent config)); [|lia].
      cbn. rewrite length_app. cbn.
      split; [lia|]. split; [lia|]. split; lia.
Qed.

Lemma observability_bulkhead_run_keeps (events : list (Event T)) :
  ∀ b : t,
    running b = Z.of_nat (length (awaiting b))
    ∧ running b <= maxConcurrent config
    ∧ Z.of_nat (length (queue b)) <= maxQueue config
    ∧ (queue b ≠ [] → running b = maxConcurrent config) →
    let b' := fst (run config events b) in
    running b' = Z.of_nat (length (awaiting b'))
    ∧ running b' <= maxConcurrent config
    ∧ Z.of_nat (length (queue b')) <= maxQueue config
    ∧ (queue b' ≠ [] → running b' = maxConcurrent config).
Proof.
  induction events as [|e events IH]; intros b Hb; [exact Hb|].
  cbn [run].
  pose proof (observability_bulkhead_step_keeps e b Hb) as Hstep.
  destruct (step config e b) as [b1 effects1]. cbn [fst] in Hstep.
  specialize (IH b1 Hstep).
  destruct (run config events b1) as [b2 effects2]. exact IH.
Qed.

End ObservabilityBulkheadInvariant.

(** X7.  Bulkhead of resilience.ts with limits that are not negative, after any
    sequence of calls and settlements: [running] counts the activations of
    [runOperation] that are suspended at their [await], never exceeds
    [maxConcurrent], the queue never holds more than [maxQueue] callers,
    and callers wait only while all [maxConcurrent] slots are taken. *)
Theorem observability_bulkhead_invariant {T}
    (config : Contracts.BulkheadConfig)
    (events : list (Observability.Bulkhead.Event T)) :
  0 <= Contracts.maxConcurrent config →
  0 <= Contracts.maxQueue config →
  let b := fst (Observability.Bulkhead.run config events
                  Observability.Bulkhead.init) in
  Observability.Bulkhead.running b
  = Z.of_nat (length (Observability.Bulkhead.awaiting b))
  ∧ Observability.Bulkhead.running b <= Contracts.maxConcurrent config
  ∧ Z.of_nat (length (Observability.Bulkhead.queue b))
    <= Contracts.maxQueue config
  ∧ (Observability.Bulkhead.queue b ≠ [] →
     Observability.Bulkhead.running b = Contracts.maxConcurrent config).
Proof.
  intros Hc Hq.
  apply (observability_bulkhead_run_keeps config events).
  cbn. split; [reflexivity|]. split; [exact Hc|]. split; [exact Hq|].
  congruence.
Qed.

Lemma observability_bulkhead_invariant_witness :
  let b := fst Scenario.bulkhead_run in
  0 <= Contracts.maxConcurrent Scenario.bulkhead_config
  ∧ 0 <= Contracts.maxQueue Scenario.bulkhead_config
  ∧ Observability.Bulkhead.running b
    <= Contracts.maxConcurrent Scenario.bulkhead_config
  ∧ Z.of_nat (length (Observability.Bulkhead.queue b))
    <= Contracts.maxQueue Scenario.bulkhead_config.
Proof.
  intros b.
  assert (Hc : 0 <= Contracts.maxConcurrent Scenario.bulkhead_config)
    by (vm_compute; discriminate).
  assert (Hq : 0 <= Contracts.maxQueue Scenario.bulkhead_config)
    by (vm_compute; discriminate).
  split; [exact Hc|]. split; [exact Hq|].
  pose proof (observability_bulkhead_invariant (T := nat)
                Scenario.bulkhead_config
                [Observability.Bulkhead.Call 1%nat 11%nat;
                 Observability.Bulkhead.Call 2%nat 12%nat;
                 Observability.Bulkhead.Call 3%nat 13%nat;
                 Observability.Bulkhead.Settle 1%nat (Resolved 100%nat);
                 Observability.Bulkhead.Settle 2%nat (Resolved 200%nat)]
                Hc Hq) as (_ & Hmax & Hqueue & _).
  split; [exact Hmax | exact Hqueue].
Defined.

Section PatternBulkheadRuns.
Import Patterns.Bulkhead.
Context {T : Type}.

Lemma invoked_app (l1 l2 : list (Effect T)) :
  invoked (l1 ++ l2) = invoked l1 ++ invoked l2.
Proof. apply flat_map_app. Qed.

Lemma pattern_process_order (b : t) :
  let '(b', effects) := process (T := T) b in
  invoked effects ++ List.map snd (queue b') = List.map snd (queue b).
Proof.
  unfold process. destruct (semaphore b <=? running b); [reflexivity|].
  destruct (queue b) as [|[c operation] rest] eqn:Hq; cbn; rewrite ?Hq;
    reflexivity.
Qed.

Lemma pattern_step_order (e : Event T) (b : t) :
  let '(b', effects) := step e b in
  invoked effects ++ List.map snd (queue b')
  = List.map snd (queue b) ++ submitted [e].
Proof.
  destruct e as [c operation | c r]; cbn [step submitted flat_map].
  - unfold execute.
    match goal with |- context [process ?x] =>
      pose proof (pattern_process_order x) as Hp;
      destruct (process x) as [b' effects] end.
    rewrite Hp. cbn. rewrite List.map_app. reflexivity.
  - unfold resume. rewrite app_nil_r.
    destruct (remove_first c (awaiting b)) as [rest|]; [|reflexivity].
    match goal with |- context [process ?x] =>
      pose proof (pattern_process_order x) as Hp;
      destruct (process x) as [b' effects] end.
    cbn in Hp. destruct r; exact Hp.
Qed.

Lemma pattern_run_order (events : list (Event T)) :
  ∀ b : t,
    let '(b', effects) := run events b in
    invoked effects ++ List.map snd (queue b')
    = List.map snd (queue b) ++ submitted events.
Proof.
  induction events as [|e events IH]; intros b; cbn [run].
  - cbn. rewrite app_nil_r. reflexivity.
  - pose proof (pattern_step_order e b) as Hstep.
    destruct (step e b) as [b1 effects1].
    specialize (IH b1). destruct (run events b1) as [b2 effects2].
    rewrite invoked_app, <- app_assoc, IH, app_assoc, Hstep, <- app_assoc.
    unfold submitted. cbn [flat_map]. rewrite app_nil_r. reflexivity.
Qed.

(** X8.  Bulkhead of the pattern library, after any sequence of calls and
    settlements: the operations it has called, followed by those still in
    its queue, are the operations passed to [execute], in the order of the
    calls.  So operations start in first-come order, and none is dropped,
    replaced or started twice. *)
Theorem pattern_bulkhead_first_come_first_served
    (maxConcurrent : option Z) (events : list (Event T)) :
  let '(b, effects) := run events (constructor maxConcurrent) in
  invoked effects ++ List.map snd (queue b) = submitted events.
Proof.
  pose proof (pattern_run_order events (constructor maxConcurrent)) as Horder.
  destruct (run events (constructor maxConcurrent)) as [b effects].
  exact Horder.
Qed.

Lemma remove_first_In (c c' : Caller) (l rest : list Caller) :
  remove_first c l = Some rest →
  In c l ∧ (In c' rest → In c' l).
Proof.
  revert rest. induction l as [|x l IH]; intros rest; cbn; [discriminate|].
  destruct (Nat.eqb_spec x c) as [-> | Hne].
  - intros [= <-]. auto.
  - destruct (remove_first c l) as [rest'|]; [|discriminate].
    intros [= <-]. destruct (IH rest' eq_refl) as [Hin Hsub].
    split; [right; exact Hin|]. intros [<- | Hin']; auto.
Qed.

(** What a bulkhead owes its callers, given the calls and the effects so
    far: every queue entry is a call that was made, and every caller
    awaited for passed an operation that has been invoked. *)
Lemma pattern_process_owes (b : t) (calls : list (Event T))
    (effects : list (Effect T)) :
  (∀ c operation, In (c, operation) (queue b) → In (Call c operation) calls) →
  (∀ c, In c (awaiting b) →
        ∃ operation, In (Call c operation) calls
                     ∧ In (Invoke operation) effects) →
  let '(b', started) := process b in
  (∀ c operation, In (c, operation) (queue b') →
                  In (Call c operation) calls)
  ∧ (∀ c, In c (awaiting b') →
          ∃ operation, In (Call c operation) calls
                       ∧ In (Invoke operation) (effects ++ started))
  ∧ ∀ effect, In effect started →
              ∃ c operation, effect = Invoke operation
                             ∧ In (Call c operation) calls.
Proof.
  intros Hqueue Hawaiting. unfold process.
  destruct (semaphore b <=? running b).
  - rewrite app_nil_r. split; [exact Hqueue|]. split; [exact Hawaiting|].
    intros effect [].
  - destruct (queue b) as [|[c operation] rest] eqn:Hq.
    + rewrite app_nil_r. rewrite Hq. split; [intros ? ? []|].
      split; [exact Hawaiting|]. intros effect [].
    + cbn [queue awaiting].
      assert (Hcall : In (Call c operation) calls)
        by (apply Hqueue; left; reflexivity).
      split; [intros c' operation' Hin; apply Hqueue; right; exact Hin|].
      split.
      * intros c' Hin. apply in_app_or in Hin.
        destruct Hin as [Hin | [<- | []]].
        -- destruct (Hawaiting c' Hin) as (operation' & Hcall' & Hinvoked).
           exists operation'. split; [exact Hcall'|].
           apply in_or_app. left. exact Hinvoked.
        -- exists operation. split; [exact Hcall|].
           apply in_or_app. right. left. reflexivity.
      * intros effect [<- | []]. exists c, operation. auto.
Qed.

Lemma pattern_step_owes (e : Event T) (b : t) (calls : list (Event T))
    (effects : list (Effect T)) :
  (∀ c operation, In (c, operation) (queue b) → In (Call c operation) calls) →
  (∀ c, In c (awaiting b) →
        ∃ operation, In (Call c operation) calls
                     ∧ In (Invoke operation) effects) →
  let '(b', issued) := step e b in
  (∀ c operation, In (c, operation) (queue b') →
                  In (Call c operation) (calls ++ [e]))
  ∧ (∀ c, In c (awaiting b') →
          ∃ operation, In (Call c operation) (calls ++ [e])
                       ∧ In (Invoke operation) (effects ++ issued))
  ∧ ∀ effect, In effect issued →
      match effect with
      | Invoke operation => ∃ c, In (Call c operation) (calls ++ [e])
      | Resolve c value =>
          e = Settle c (Resolved value)
          ∧ ∃ operation, In (Call c operation) calls
                         ∧ In (Invoke operation) effects
      | Reject c reason =>
          e = Settle c (Rejected reason)
          ∧ ∃ operation, In (Call c operation) calls
                         ∧ In (Invoke operation) effects
      end.
Proof.
  intros Hqueue Hawaiting.
  destruct e as [c operation | c r]; cbn [step].
  - unfold execute.
    match goal with |- context [process ?x] =>
      pose proof (pattern_process_owes x (calls ++ [Call c operation])
                    effects) as Hp;
      destruct (process x) as [b' started] end.
    destruct Hp as (Hqueue' & Hawaiting' & Hstarted).
    + cbn [queue]. intros c' operation' Hin. apply in_app_or in Hin.
      apply in_or_app. destruct Hin as [Hin | [[= <- <-] | []]];
        [left; apply Hqueue; exact Hin | right; left; reflexivity].
    + cbn [awaiting]. intros c' Hin.
      destruct (Hawaiting c' Hin) as (operation' & Hcall & Hinvoked).
      exists operation'. split; [apply in_or_app; left; exact Hcall|].
      exact Hinvoked.
    + split; [exact Hqueue'|]. split; [exact Hawaiting'|].
      intros effect Hin.
      destruct (Hstarted effect Hin) as (c' & operation' & -> & Hcall).
      exists c'. exact Hcall.
  - unfold resume.
    destruct (remove_first c (awaiting b)) as [rest|] eqn:Hrest.
    + destruct (remove_first_In c c _ _ Hrest) as [Hwaiting _].
      destruct (Hawaiting c Hwaiting) as (owed & Hcall & Hinvoked).
      match goal with |- context [process ?x] =>
        pose proof (pattern_process_owes x calls effects) as Hp;
        destruct (process x) as [b' started] end.
      destruct Hp as (Hqueue' & Hawaiting' & Hstarted).
      * exact Hqueue.
      * cbn [awaiting]. intros c' Hin. apply Hawaiting.
        exact (proj2 (remove_first_In c c' _ _ Hrest) Hin).
      * split.
        { intros c' operation' Hin. apply in_or_app. left.
          exact (Hqueue' c' operation' Hin). }
        split.
        { intros c' Hin.
          destruct (Hawaiting' c' Hin) as (operation' & Hcall' & Hinvoked').
          exists operation'. split; [apply in_or_app; left; exact Hcall'|].
          apply in_app_or in Hinvoked'. apply in_or_app.
          destruct Hinvoked' as [H | H]; [left; exact H|].
          right. right. exact H. }
        intros effect [<- | Hin].
        { destruct r; (split; [reflexivity|]); exists owed; auto. }
        destruct (Hstarted effect Hin) as (c' & operation' & -> & Hcall').
        exists c'. apply in_or_app. left. exact Hcall'.
    + rewrite app_nil_r. split.
      { intros c' operation' Hin. apply in_or_app. left.
        exact (Hqueue c' operation' Hin). }
      split; [|intros effect []].
      intros c' Hin.
      destruct (Hawaiting c' Hin) as (operation' & Hcall & Hinvoked).
      exists operation'. split; [apply in_or_app; left; exact Hcall|].
      exact Hinvoked.
Qed.

Lemma pattern_run_owes (events : list (Event T)) :
  ∀ (b : t) (calls : list (Event T)) (effects : list (Effect T)),
    (∀ c operation, In (c, operation) (queue b) →
                    In (Call c operation) calls) →
    (∀ c, In c (awaiting b) →
          ∃ operation, In (Call c operation) calls
                       ∧ In (Invoke operation) effects) →
    let '(b', issued) := run events b in
    (∀ c operation, In (c, operation) (queue b') →
                    In (Call c operation) (calls ++ events))
    ∧ (∀ c, In c (awaiting b') →
            ∃ operation, In (Call c operation) (calls ++ events)
                         ∧ In (Invoke operation) (effects ++ issued)).
Proof.
  induction events as [|e events IH]; intros b calls effects Hqueue Hawaiting;
    cbn [run].
  - rewrite !app_nil_r. auto.
  - pose proof (pattern_step_owes e b calls effects Hqueue Hawaiting) as Hstep.
    destruct (step e b) as [b1 issued1].
    destruct Hstep as (Hqueue1 & Hawaiting1 & _).
    specialize (IH b1 (calls ++ [e]) (effects ++ issued1) Hqueue1 Hawaiting1).
    destruct (run events b1) as [b2 issued2].
    rewrite <- !app_assoc in IH. exact IH.
Qed.

(** X9.  Bulkhead of the pattern library, at any step of any run.  When it
    resolves (or rejects) the promise of a caller, the step is the
    settlement of the promise awaited for that caller, with the same value
    (or error), and an operation which that caller passed to [execute] was
    invoked before.  When it invokes an operation, some caller has passed
    it.  So no promise is settled before the caller's operation has run,
    and no call is ever rejected for lack of room. *)
Theorem pattern_bulkhead_settles_with_operation_outcome
    (limit : option Z) (earlier : list (Event T)) (e : Event T)
    (effect : Effect T) :
  let '(b, started) := run earlier (constructor limit) in
  In effect (snd (step e b)) →
  match effect with
  | Invoke operation => ∃ c, In (Call c operation) (earlier ++ [e])
  | Resolve c value =>
      e = Settle c (Resolved value)
      ∧ ∃ operation, In (Call c operation) earlier
                     ∧ In (Invoke operation) started
  | Reject c reason =>
      e = Settle c (Rejected reason)
      ∧ ∃ operation, In (Call c operation) earlier
                     ∧ In (Invoke operation) started
  end.
Proof.
  pose proof (pattern_run_owes earlier (constructor limit) [] []) as Hrun.
  destruct (run earlier (constructor limit)) as [b started].
  destruct Hrun as [Hqueue Hawaiting]; [intros ? ? [] | intros ? []|].
  cbn [app] in Hqueue, Hawaiting.
  pose proof (pattern_step_owes e b earlier started Hqueue Hawaiting) as Hstep.
  destruct (step e b) as [b' issued]. cbn [snd].
  destruct Hstep as (_ & _ & Hissued). exact (Hissued effect).
Qed.

End PatternBulkheadRuns.

Lemma pattern_bulkhead_settles_with_operation_outcome_witness :
  let earlier :=
    [Patterns.Bulkhead.Call (T := nat) 1%nat 11%nat;
     Patterns.Bulkhead.Call 2%nat 12%nat] in
  let e := Patterns.Bulkhead.Settle 1%nat (Resolved 100%nat) in
  let '(b, started) :=
    Patterns.Bulkhead.run earlier (Patterns.Bulkhead.constructor (Some 1)) in
  In (Patterns.Bulkhead.Resolve 1%nat 100%nat)
     (snd (Patterns.Bulkhead.step e b))
  ∧ ∃ operation,
      In (Patterns.Bulkhead.Call 1%nat operation) earlier
      ∧ In (Patterns.Bulkhead.Invoke operation) started.
Proof.
  cbv zeta.
  pose proof (pattern_bulkhead_settles_with_operation_outcome (T := nat)
                (Some 1)
                [Patterns.Bulkhead.Call 1%nat 11%nat;
                 Patterns.Bulkhead.Call 2%nat 12%nat]
                (Patterns.Bulkhead.Settle 1%nat (Resolved 100%nat))
                (Patterns.Bulkhead.Resolve 1%nat 100%nat)) as Howed.
  destruct (Patterns.Bulkhead.run
              [Patterns.Bulkhead.Call 1%nat 11%nat;
               Patterns.Bulkhead.Call 2%nat 12%nat]
              (Patterns.Bulkhead.constructor (Some 1))) as [b started] eqn:Hrun.
  assert (Hin : In (Patterns.Bulkhead.Resolve 1%nat 100%nat)
                   (snd (Patterns.Bulkhead.step
                           (Patterns.Bulkhead.Settle 1%nat (Resolved 100%nat))
                           b))).
  { vm_compute in Hrun. injection Hrun as <- _. left. reflexivity. }
  split; [exact Hin|]. exact (proj2 (Howed Hin)).
Defined.

Section PatternBulkheadLimits.
Import Patterns.Bulkhead.
Context {T : Type}.

Lemma remove_first_length (c : Caller) (l rest : list Caller) :
  remove_first c l = Some rest → length l = S (length rest).
Proof.
  revert rest. induction l as [|c' l IH]; intros rest; simpl;
    [discriminate|].
  destruct (Nat.eqb c' c).
  - intros [= <-]. reflexivity.
  - destruct (remove_first c l) as [rest'|]; [|discriminate].
    intros [= <-]. simpl. rewrite (IH rest' eq_refl). reflexivity.
Qed.

Lemma pattern_process_keeps (limit : Z) (b : t) :
  semaphore b = limit
  ∧ running b = Z.of_nat (length (awaiting b))
  ∧ running b <= Z.max 0 limit
  ∧ ((2 <= length (queue b))%nat → limit <= running b + 1) →
  let b' := fst (process (T := T) b) in
  semaphore b' = limit
  ∧ running b' = Z.of_nat (length (awaiting b'))
  ∧ running b' <= Z.max 0 limit
  ∧ (queue b' ≠ [] → limit <= running b').
Proof.
  intros (Hlimit & Hrun & Hmax & Hwaiting). unfold process.
  destruct (Z.leb_spec (semaphore b) (running b)) as [Hfull | Hfree]; cbn.
  - split; [exact Hlimit|]. split; [exact Hrun|]. split; [exact Hmax|]. lia.
  - destruct (queue b) as [|[c operation] rest] eqn:Hq; cbn.
    + split; [exact Hlimit|]. split; [exact Hrun|]. split; [exact Hmax|].
      rewrite Hq. congruence.
    + rewrite length_app. cbn.
      split; [exact Hlimit|]. split; [lia|]. split; [lia|]. intros Hne.
      apply Hwaiting. destruct rest; [congruence | cbn; lia].
Qed.

Lemma pattern_step_keeps (limit : Z) (e : Event T) (b : t) :
  semaphore b = limit
  ∧ running b = Z.of_nat (length (awaiting b))
  ∧ running b <= Z.max 0 limit
  ∧ (queue b ≠ [] → limit <= running b) →
  let b' := fst (step e b) in
  semaphore b' = limit
  ∧ running b' = Z.of_nat (length (awaiting b'))
  ∧ running b' <= Z.max 0 limit
  ∧ (queue b' ≠ [] → limit <= running b').
Proof.
  intros (Hlimit & Hrun & Hmax & Hwaiting).
  destruct e as [c operation | c r]; cbn [step].
  - unfold execute. apply pattern_process_keeps. cbn.
    split; [exact Hlimit|]. split; [exact Hrun|]. split; [exact Hmax|].
    rewrite length_app. cbn. intros Hlen.
    assert (Hne : queue b ≠ []) by (destruct (queue b); [cbn in Hlen; lia|congruence]).
    specialize (Hwaiting Hne). lia.
  - unfold resume.
    destruct (remove_first c (awaiting b)) as [rest|] eqn:Hrest.
    + apply remove_first_length in Hrest.
      match goal with |- context [process ?x] =>
        pose proof (pattern_process_keeps limit x) as Hp;
        destruct (process x) as [b' started] end.
      cbn in *. apply Hp.
      split; [exact Hlimit|]. split; [lia|]. split; [lia|]. intros Hlen.
      assert (Hne : queue b ≠ []) by (destruct (queue b); [cbn in Hlen; lia|congruence]).
      specialize (Hwaiting Hne). lia.
    + cbn. auto.
Qed.

Lemma pattern_run_keeps (limit : Z) (events : list (Event T)) :
  ∀ b : t,
    semaphore b = limit
    ∧ running b = Z.of_nat (length (awaiting b))
    ∧ running b <= Z.max 0 limit
    ∧ (queue b ≠ [] → limit <= running b) →
    let b' := fst (run events b) in
    semaphore b' = limit
    ∧ running b' = Z.of_nat (length (awaiting b'))
    ∧ running b' <= Z.max 0 limit
    ∧ (queue b' ≠ [] → limit <= running b').
Proof.
  induction events as [|e events IH]; intros b Hb; [exact Hb|].
  cbn [run]. pose proof (pattern_step_keeps limit e b Hb) as Hstep.
  destruct (step e b) as [b1 effects1]. cbn [fst] in Hstep.
  specialize (IH b1 Hstep).
  destruct (run events b1) as [b2 effects2]. exact IH.
Qed.

Lemma pattern_run_without_slots (events : list (Event T)) :
  ∀ b : t,
    semaphore b <= 0 → running b = 0 → awaiting b = [] →
    snd (run events b) = [].
Proof.
  induction events as [|e events IH]; intros b Hnone Hrun Hawait;
    [reflexivity|].
  cbn [run].
  assert (Hstep : ∃ b1, step e b = (b1, [])
                        ∧ semaphore b1 <= 0 ∧ running b1 = 0
                        ∧ awaiting b1 = []).
  { destruct e as [c operation | c r]; cbn [step].
    - unfold execute, process. cbn.
      destruct (Z.leb_spec (semaphore b) (running b)); [|lia].
      eexists. split; [reflexivity|]. cbn. auto.
    - unfold resume. rewrite Hawait. cbn. eauto. }
  destruct Hstep as (b1 & -> & Hnone1 & Hrun1 & Hawait1).
  specialize (IH b1 Hnone1 Hrun1 Hawait1).
  destruct (run events b1) as [b2 effects2]. cbn in *. exact IH.
Qed.

(** X10.  Bulkhead of the pattern library, after any sequence of calls and
    settlements, read through [getStats]: [maxConcurrent] is the limit it
    was built with (10 by default); [running] counts the operations that
    were called and have not settled and never exceeds the limit; callers
    are queued only while the limit is reached.  A bulkhead built with a
    limit of 0 or less never calls an operation and never settles a
    promise: every caller stays in the queue. *)
Theorem pattern_bulkhead_limits (limit : option Z)
    (events : list (Event T)) :
  let '(b, effects) := run events (constructor limit) in
  let stats := getStats b in
  maxConcurrent stats = default 10 limit
  ∧ stats_running stats = Z.of_nat (length (awaiting b))
  ∧ 0 <= stats_running stats <= Z.max 0 (maxConcurrent stats)
  ∧ (0 < queued stats → maxConcurrent stats <= stats_running stats)
  ∧ (default 10 limit <= 0 →
     effects = [] ∧ List.map snd (queue b) = submitted events).
Proof.
  pose proof (pattern_run_keeps (default 10 limit) events (constructor limit))
    as Hkeeps.
  pose proof (pattern_run_without_slots events (constructor limit))
    as Hnone.
  pose proof (pattern_run_order events (constructor limit)) as Horder.
  destruct (run events (constructor limit)) as [b effects].
  cbn [fst snd] in *. cbv zeta.
  destruct Hkeeps as (Hlimit & Hrun & Hmax & Hwaiting).
  { cbn. split; [reflexivity|]. split; [reflexivity|]. split; [lia|].
    congruence. }
  unfold getStats. cbn.
  split; [exact Hlimit|]. split; [exact Hrun|]. split; [rewrite Hlimit; lia|].
  split.
  - intros Hqueued. rewrite Hlimit. apply Hwaiting.
    destruct (queue b); [cbn in Hqueued; lia | congruence].
  - intros Hzero. specialize (Hnone Hzero eq_refl eq_refl). subst effects.
    split; [reflexivity|]. exact Horder.
Qed.

End PatternBulkheadLimits.

(** ** Cache-aside: the map behind [get], [invalidate] and [clear] *)

Section CacheAsideMap.
Import Patterns.CacheAside.
Context {V : Type}.

Lemma keys_Map_delete (key : string) (m : JsMap V) :
  keys (Map_delete key m)
  = List.filter (fun k => negb (String.eqb k key)) (keys m).
Proof.
  unfold keys, Map_delete. induction m as [|[k x] m IH]; simpl;
    [reflexivity|].
  destruct (String.eqb k key); simpl; rewrite IH; reflexivity.
Qed.

Lemma keys_Map_set (key : string) (v : V) (m : JsMap V) :
  keys (Map_set key v m)
  = if existsb (String.eqb key) (keys m) then keys m else keys m ++ [key].
Proof.
  unfold keys. induction m as [|[k x] m IH]; simpl; [reflexivity|].
  rewrite (String.eqb_sym key k).
  destruct (String.eqb k key) eqn:Hk; simpl; [reflexivity|].
  rewrite IH. destruct (existsb (String.eqb key) (List.map fst m));
    reflexivity.
Qed.

Lemma existsb_eqb_In (key : string) (l : list string) :
  existsb (String.eqb key) l = true ↔ In key l.
Proof.
  rewrite existsb_exists. split.
  - intros (k & Hin & Heq). apply String.eqb_eq in Heq. subst k. exact Hin.
  - intros Hin. exists key. split; [exact Hin | apply String.eqb_refl].
Qed.

Lemma NoDup_filter_keys (f : string -> bool) (l : list string) :
  List.NoDup l → List.NoDup (List.filter f l).
Proof.
  induction 1 as [|k l Hnot Hnodup IH]; simpl; [constructor|].
  destruct (f k); [|exact IH].
  constructor; [|exact IH]. intros Hin. apply Hnot.
  apply List.filter_In in Hin. tauto.
Qed.

Lemma NoDup_Map_set (key : string) (v : V) (m : JsMap V) :
  List.NoDup (keys m) → List.NoDup (keys (Map_set key v m)).
Proof.
  intros Hnodup. rewrite keys_Map_set.
  destruct (existsb (String.eqb key) (keys m)) eqn:Hin; [exact Hnodup|].
  apply List.NoDup_app; [exact Hnodup | repeat constructor; intros [] |].
  intros k Hk [<- | []].
  apply existsb_eqb_In in Hk. congruence.
Qed.

Lemma Map_delete_length (key : string) (m : JsMap V) :
  (length (Map_delete key m) <= length m)%nat.
Proof. apply filter_length_le. Qed.

Lemma Map_set_length (key : string) (v : V) (m : JsMap V) :
  (length (Map_set key v m) <= S (length m))%nat.
Proof.
  induction m as [|[k x] m IH]; simpl; [lia|].
  destruct (String.eqb k key); simpl; lia.
Qed.

Lemma Map_get_None (key : string) (m : JsMap V) :
  Map_get key m = None ↔ ¬ In key (keys m).
Proof.
  unfold Map_get, keys. induction m as [|[k x] m IH]; simpl; [tauto|].
  destruct (String.eqb_spec k key) as [-> | Hne].
  - split; [discriminate | intros H; exfalso; apply H; left; reflexivity].
  - rewrite IH. tauto.
Qed.

Lemma Map_get_delete (key other : string) (m : JsMap V) :
  Map_get other (Map_delete key m)
  = if String.eqb other key then None else Map_get other m.
Proof.
  unfold Map_get, Map_delete. induction m as [|[k x] m IH]; simpl.
  - destruct (String.eqb other key); reflexivity.
  - destruct (String.eqb_spec k key) as [-> | Hne]; simpl.
    + rewrite IH. rewrite (String.eqb_sym key other).
      destruct (String.eqb other key); reflexivity.
    + destruct (String.eqb_spec k other) as [-> | Hne2].
      * destruct (String.eqb_spec other key); [contradiction|reflexivity].
      * exact IH.
Qed.

End CacheAsideMap.

Section CacheAsideInvariant.
Import Patterns.CacheAside.
Context {T : Type}.
Variable this : t.

Lemma set_keeps_NoDup (now : Z) (key : string) (data : T)
    (cache : JsMap (Entry T)) :
  List.NoDup (keys cache) → List.NoDup (keys (set this now key data cache)).
Proof.
  intros Hnodup. unfold set. apply NoDup_Map_set.
  destruct (maxSize this <=? Map_size cache); [|exact Hnodup].
  destruct (Map_first_key cache) as [k|] eqn:Hfirst; [|exact Hnodup].
  destruct (truthy (Some k)); [|exact Hnodup].
  rewrite keys_Map_delete. apply NoDup_filter_keys. exact Hnodup.
Qed.

Lemma set_keeps_bound (now : Z) (key : string) (data : T)
    (cache : JsMap (Entry T)) :
  key ≠ EmptyString →
  ¬ In EmptyString (keys cache) →
  Map_size cache <= Z.max 1 (maxSize this) →
  let cache' := set this now key data cache in
  ¬ In EmptyString (keys cache')
  ∧ Map_size cache' <= Z.max 1 (maxSize this).
Proof.
  intros Hkey Hnonempty Hsize. unfold set.
  set (cache1 := if maxSize this <=? Map_size cache then _ else _).
  assert (H1 : ¬ In EmptyString (keys cache1)
               ∧ (Map_size cache1 < Z.max 1 (maxSize this)
                  ∨ cache1 = [])).
  { subst cache1. unfold Map_size in *.
    destruct (Z.leb_spec (maxSize this) (Z.of_nat (length cache)))
      as [Hfull | Hroom]; [|split; [exact Hnonempty | left; lia]].
    destruct cache as [|[k x] rest]; cbn [Map_first_key];
      [split; [exact Hnonempty | right; reflexivity]|].
    destruct k as [|a k]; [exfalso; apply Hnonempty; left; reflexivity|].
    cbn [truthy]. split.
    - rewrite keys_Map_delete. intros Hin. apply List.filter_In in Hin.
      tauto.
    - left. unfold Map_delete. cbn [List.filter fst].
      rewrite String.eqb_refl. cbn [negb].
      pose proof (filter_length_le
                    (fun kv : string * Entry T =>
                       negb (String.eqb (fst kv) (String a k))) rest).
      cbn [length] in Hsize. lia. }
  destruct H1 as [Hnonempty1 Hsize1]. cbv zeta. split.
  - rewrite keys_Map_set.
    destruct (existsb (String.eqb key) (keys cache1)); [exact Hnonempty1|].
    intros Hin. apply in_app_or in Hin.
    destruct Hin as [Hin | [Heq | []]]; [tauto | congruence].
  - unfold Map_size in *.
    pose proof (Map_set_length key
                  {| data := data; expiry := now + ttlMs this |} cache1).
    destruct Hsize1 as [Hlt | ->]; [lia | cbn; lia].
Qed.

Lemma serve_keeps_NoDup (requests : list (Request T)) :
  ∀ cache w, List.NoDup (keys cache) →
             List.NoDup (keys (fst (serve this requests cache w))).
Proof.
  induction requests as [|[key fetchFunction | key |] later IH];
    intros cache w Hnodup; cbn [serve]; [exact Hnodup | | |].
  - destruct (get this key fetchFunction cache w) as [[r cache1] w1] eqn:Hget.
    apply IH. unfold get in Hget.
    assert (Hfetch : ∀ r cache1 w1,
      (let '(r, w1) := fetchFunction w in
       match r with
       | Resolved data =>
           (Resolved data, set this (clock w1) key data cache, w1)
       | Rejected error => (Rejected error, cache, w1)
       end) = (r, cache1, w1) → List.NoDup (keys cache1)).
    { intros r' cache' w'. destruct (fetchFunction w) as [[v | e] w2];
        intros [= _ <- _]; [apply set_keeps_NoDup|]; exact Hnodup. }
    destruct (Map_get key cache) as [cached|]; [|exact (Hfetch _ _ _ Hget)].
    destruct (clock w <? expiry cached); [|exact (Hfetch _ _ _ Hget)].
    injection Hget as _ <- _. exact Hnodup.
  - apply IH. unfold invalidate. rewrite keys_Map_delete.
    apply NoDup_filter_keys. exact Hnodup.
  - apply IH. constructor.
Qed.

Lemma serve_keeps_bound (requests : list (Request T)) :
  Forall (fun request => requests_key request ≠ Some EmptyString) requests →
  ∀ cache w,
    ¬ In EmptyString (keys cache) →
    Map_size cache <= Z.max 1 (maxSize this) →
    Map_size (fst (serve this requests cache w)) <= Z.max 1 (maxSize this).
Proof.
  induction 1 as [|[key fetchFunction | key |] later Hkey Hlater IH];
    intros cache w Hnonempty Hsize; cbn [serve]; [exact Hsize | | |].
  - assert (Hkey' : key ≠ EmptyString) by (cbn in Hkey; congruence).
    destruct (get this key fetchFunction cache w) as [[r cache1] w1] eqn:Hget.
    assert (Hboth : ¬ In EmptyString (keys cache1)
                    ∧ Map_size cache1 <= Z.max 1 (maxSize this)).
    { unfold get in Hget.
      assert (Hfetch : ∀ r cache1 w1,
        (let '(r, w1) := fetchFunction w in
         match r with
         | Resolved data =>
             (Resolved data, set this (clock w1) key data cache, w1)
         | Rejected error => (Rejected error, cache, w1)
         end) = (r, cache1, w1) →
        ¬ In EmptyString (keys cache1)
        ∧ Map_size cache1 <= Z.max 1 (maxSize this)).
      { intros r' cache' w'. destruct (fetchFunction w) as [[v | e] w2];
          intros [= _ <- _]; [|split; assumption].
        apply set_keeps_bound; assumption. }
      destruct (Map_get key cache) as [cached|]; [|exact (Hfetch _ _ _ Hget)].
      destruct (clock w <? expiry cached); [|exact (Hfetch _ _ _ Hget)].
      injection Hget as _ <- _. split; assumption. }
    destruct Hboth as [Hnonempty1 Hsize1]. apply IH; assumption.
  - apply IH.
    + unfold invalidate. rewrite keys_Map_delete. intros Hin.
      apply List.filter_In in Hin. tauto.
    + unfold invalidate, Map_size in *.
      pose proof (Map_delete_length key cache). lia.
  - apply IH; [intros [] | unfold clear, Map_size; simpl length; lia].
Qed.

(** X11.  Cache of the pattern library serving any sequence of [get],
    [invalidate] and [clear] from empty: no key is held twice, and as long
    as no [get] is made with the empty string as its key, [getStats] never
    reports more than [maxSize] entries (one entry, when [maxSize] is less
    than 1). *)
Theorem cache_never_exceeds_maxSize (requests : list (Request T))
    (w : World) :
  let cache := fst (serve this requests [] w) in
  List.NoDup (keys cache)
  ∧ (Forall (fun request => requests_key request ≠ Some EmptyString)
            requests →
     size (getStats this cache)
     <= Z.max 1 (stats_maxSize (getStats this cache))).
Proof.
  split.
  - apply serve_keeps_NoDup. constructor.
  - intros Hkeys. cbn [getStats size stats_maxSize].
    apply serve_keeps_bound; [exact Hkeys | intros [] |].
    unfold Map_size. simpl length. lia.
Qed.

End CacheAsideInvariant.

Section CacheAsideForgetting.
Import Patterns.CacheAside.
Context {T : Type}.
Variable this : t.

(** X12.  [invalidate] forgets the entry of its key and of no other key, and
    [clear] forgets every entry; the next [get] of a forgotten key calls
    its fetch function, whatever the clock says, and settles as that call
    does. *)
Theorem invalidate_forgets_one_key (key : string)
    (cache : JsMap (Entry T)) :
  let cache' := invalidate key cache in
  Map_get key cache' = None
  ∧ (∀ other, other ≠ key → Map_get other cache' = Map_get other cache)
  ∧ (∀ other, Map_get other (clear cache) = None)
  ∧ ∀ (fetchFunction : Op T) (w : World) (forgotten : JsMap (Entry T)),
      forgotten = cache' ∨ forgotten = clear cache →
      let '(r, _, w') := get this key fetchFunction forgotten w in
      r = fst (fetchFunction w) ∧ w' = snd (fetchFunction w).
Proof.
  cbv zeta. unfold invalidate. split.
  { rewrite Map_get_delete, String.eqb_refl. reflexivity. }
  split.
  { intros other Hne. rewrite Map_get_delete.
    destruct (String.eqb_spec other key); [contradiction|reflexivity]. }
  split; [reflexivity|].
  intros fetchFunction w forgotten Hforgotten.
  assert (Hmiss : Map_get key forgotten = None).
  { destruct Hforgotten as [-> | ->]; [|reflexivity].
    rewrite Map_get_delete, String.eqb_refl. reflexivity. }
  unfold get. rewrite Hmiss.
  destruct (fetchFunction w) as [[data | error] w1]; split; reflexivity.
Qed.

(** X13.  When the entry of [key] has expired in a full cache, storing its fresh
    value still evicts the oldest entry, although [key] needed no room: the
    cache ends one entry smaller, and [key] keeps its place in it. *)
Theorem refreshing_in_full_cache_evicts_oldest (now : Z) (key : string)
    (data : T) (oldest : string) (entry : Entry T)
    (rest : JsMap (Entry T)) :
  List.NoDup (keys ((oldest, entry) :: rest)) →
  oldest ≠ EmptyString →
  In key (keys rest) →
  maxSize this <= Map_size ((oldest, entry) :: rest) →
  let cache' := set this now key data ((oldest, entry) :: rest) in
  keys cache' = keys rest
  ∧ Map_get oldest cache' = None
  ∧ Map_get key cache' = Some {| data := data; expiry := now + ttlMs this |}.
Proof.
  intros Hnodup Holdest Hkey Hfull. cbv zeta. unfold set.
  apply Z.leb_le in Hfull. rewrite Hfull. cbn [Map_first_key].
  destruct oldest as [|a oldest]; [congruence|]. cbn [truthy].
  assert (Hdelete : Map_delete (String a oldest)
                      ((String a oldest, entry) :: rest) = rest).
  { unfold Map_delete. cbn [List.filter fst].
    rewrite String.eqb_refl. cbn [negb].
    cbn [keys List.map fst] in Hnodup. apply List.NoDup_cons_iff in Hnodup.
    destruct Hnodup as [Hnot _]. clear - Hnot.
    induction rest as [|[k x] rest' IH]; [reflexivity|].
    cbn [List.filter fst].
    destruct (String.eqb_spec k (String a oldest)) as [-> | Hne].
    - exfalso. apply Hnot. left. reflexivity.
    - cbn [negb]. f_equal. apply IH. intros Hin. apply Hnot.
      right. exact Hin. }
  rewrite Hdelete. split.
  - rewrite keys_Map_set.
    apply existsb_eqb_In in Hkey. rewrite Hkey. reflexivity.
  - split; [|apply Map_get_set].
    apply Map_get_None. rewrite keys_Map_set.
    apply existsb_eqb_In in Hkey. rewrite Hkey.
    cbn [keys List.map fst] in Hnodup. apply List.NoDup_cons_iff in Hnodup.
    tauto.
Qed.

End CacheAsideForgetting.

Lemma refreshing_in_full_cache_evicts_oldest_witness :
  let this := Patterns.CacheAside.constructor None (Some 2) in
  let first := {| Patterns.CacheAside.data := 1%nat;
                  Patterns.CacheAside.expiry := 1000 |} in
  let second := {| Patterns.CacheAside.data := 2%nat;
                   Patterns.CacheAside.expiry := 1000 |} in
  Patterns.CacheAside.keys
    (Patterns.CacheAside.set this 5000 "b" 3%nat
       [("a"%string, first); ("b"%string, second)])
  = ["b"%string].
Proof.
  intros this first second.
  assert (Hnodup : List.NoDup
            (Patterns.CacheAside.keys
               [("a"%string, first); ("b"%string, second)])).
  { repeat constructor; cbn; intuition discriminate. }
  assert (Holdest : "a"%string ≠ EmptyString) by discriminate.
  assert (Hkey : In "b"%string
                   (Patterns.CacheAside.keys [("b"%string, second)]))
    by (left; reflexivity).
  assert (Hfull : Patterns.CacheAside.maxSize this
                  <= Patterns.CacheAside.Map_size
                       [("a"%string, first); ("b"%string, second)])
    by (vm_compute; discriminate).
  exact (proj1 (refreshing_in_full_cache_evicts_oldest this 5000 "b" 3%nat
                  "a" first [("b"%string, second)]
                  Hnodup Holdest Hkey Hfull)).
Defined.

(** ** Rate limiter: the guarantee of the sliding window *)

Section RateLimiterWindow.
Import Patterns.RateLimiter.
Variable this : t.

Lemma last_cons_default {A} (x d : A) (l : list A) :
  List.last (x :: l) d = List.last l x.
Proof.
  revert x d. induction l as [|y l IH]; intros x d; [reflexivity|].
  change (List.last (x :: y :: l) d) with (List.last (y :: l) d).
  rewrite (IH y d). symmetry. apply IH.
Qed.

Lemma filter_in_window_later (prev now : Z) (history : list Z) :
  prev <= now →
  List.filter (in_window this now) (List.filter (in_window this prev) history)
  = List.filter (in_window this now) history.
Proof.
  intros Hle. induction history as [|time history IH]; [reflexivity|].
  cbn [List.filter].
  destruct (in_window this prev time) eqn:Hprev; cbn [List.filter];
    rewrite IH; [reflexivity|].
  destruct (in_window this now time) eqn:Hnow; [|reflexivity].
  apply in_window_spec in Hnow.
  assert (Hin : in_window this prev time = true)
    by (apply in_window_spec; lia).
  congruence.
Qed.

Lemma acquire_each_history (instants : list Z) :
  0 < windowMs this →
  ∀ (prev : Z) (requests history : list Z),
    Forall (Z.le prev) instants →
    StronglySorted Z.le instants →
    requests = List.filter (in_window this prev) history →
    Z.of_nat (length requests) <= Z.max 0 (maxRequests this) →
    let '(outcomes, requests') := acquire_each this instants requests in
    requests'
    = List.filter (in_window this (List.last instants prev))
                  (history ++ granted instants outcomes)
    ∧ Z.of_nat (length requests') <= Z.max 0 (maxRequests this).
Proof.
  intros Hwindow.
  induction instants as [|now later IH];
    intros prev requests history Hprev Hsorted Hrequests Hlength.
  - cbn. rewrite app_nil_r. split; assumption.
  - cbn [acquire_each].
    apply List.Forall_cons_iff in Hprev. destruct Hprev as [Hle Hprev].
    apply StronglySorted_inv in Hsorted. destruct Hsorted as [Hsorted Hnow].
    assert (Hkept : List.filter (in_window this now) requests
                    = List.filter (in_window this now) history).
    { rewrite Hrequests. apply filter_in_window_later. exact Hle. }
    pose proof (filter_length_le (in_window this now) requests) as Hshrink.
    assert (Hlast : List.last (now :: later) prev = List.last later now).
    { apply last_cons_default. }
    rewrite Hlast. unfold acquire.
    destruct (Z.leb_spec (maxRequests this)
                (Z.of_nat (length (List.filter (in_window this now) requests))))
      as [Hfull | Hroom].
    + specialize (IH now (List.filter (in_window this now) requests) history
                    Hnow Hsorted Hkept ltac:(lia)).
      destruct (acquire_each this later
                  (List.filter (in_window this now) requests))
        as [outcomes requests2].
      cbn [granted]. exact IH.
    + assert (Hpushed :
        List.filter (in_window this now) requests ++ [now]
        = List.filter (in_window this now) (history ++ [now])).
      { rewrite List.filter_app, Hkept. cbn [List.filter].
        assert (Hself : in_window this now now = true)
          by (apply in_window_spec; lia).
        rewrite Hself. reflexivity. }
      specialize (IH now (List.filter (in_window this now) requests ++ [now])
                    (history ++ [now]) Hnow Hsorted Hpushed).
      rewrite length_app in IH. cbn [length] in IH.
      specialize (IH ltac:(lia)).
      destruct (acquire_each this later
                  (List.filter (in_window this now) requests ++ [now]))
        as [outcomes requests2].
      cbn [granted]. rewrite <- app_assoc in IH. exact IH.
Qed.

(** X14.  Rate limiter with a window of positive length, called at instants
    that never decrease: after any sequence of calls, the array holds
    exactly the instants of the granted calls that lie within the window
    ending at the last call, and there are at most [maxRequests] of them.
    So no window ending at a call contains more than [maxRequests] granted
    calls. *)
Theorem rate_limiter_window_guarantee (earlier : list Z) (now : Z) :
  0 < windowMs this →
  StronglySorted Z.le (earlier ++ [now]) →
  let '(outcomes, requests) := acquire_each this (earlier ++ [now]) [] in
  let recent :=
    List.filter (in_window this now) (granted (earlier ++ [now]) outcomes) in
  requests = recent
  ∧ Z.of_nat (length recent) <= Z.max 0 (maxRequests this).
Proof.
  intros Hwindow Hsorted.
  assert (Hfirst : ∃ first, Forall (Z.le first) (earlier ++ [now])).
  { destruct earlier as [|first earlier'].
    - exists now. repeat constructor. lia.
    - exists first. cbn in Hsorted |- *.
      apply StronglySorted_inv in Hsorted. destruct Hsorted as [_ Hall].
      constructor; [lia | exact Hall]. }
  destruct Hfirst as [first Hfirst].
  pose proof (acquire_each_history (earlier ++ [now]) Hwindow first [] []
                Hfirst Hsorted eq_refl ltac:(cbn; lia)) as Hhistory.
  destruct (acquire_each this (earlier ++ [now]) []) as [outcomes requests].
  rewrite List.last_last in Hhistory. cbn [app] in Hhistory. cbv zeta.
  destruct Hhistory as [Hrequests Hlength].
  split; [exact Hrequests | rewrite <- Hrequests; exact Hlength].
Qed.

End RateLimiterWindow.

Lemma rate_limiter_window_guarantee_witness :
  let '(outcomes, requests) :=
    Patterns.RateLimiter.acquire_each Scenario.limiter
      ([0; 100; 200; 300; 400] ++ [500]) [] in
  0 < Patterns.RateLimiter.windowMs Scenario.limiter
  ∧ requests
    = List.filter (Patterns.RateLimiter.in_window Scenario.limiter 500)
        (Patterns.RateLimiter.granted ([0; 100; 200; 300; 400] ++ [500])
           outcomes)
  ∧ Z.of_nat (length requests) <= 5.
Proof.
  assert (Hwindow : 0 < Patterns.RateLimiter.windowMs Scenario.limiter)
    by (vm_compute; reflexivity).
  assert (Hsorted : StronglySorted Z.le ([0; 100; 200; 300; 400] ++ [500])).
  { cbn [app]. repeat first [constructor | lia]. }
  pose proof (rate_limiter_window_guarantee Scenario.limiter
                [0; 100; 200; 300; 400] 500 Hwindow Hsorted) as Hguarantee.
  destruct (Patterns.RateLimiter.acquire_each Scenario.limiter
              ([0; 100; 200; 300; 400] ++ [500]) [])
    as [outcomes requests].
  cbv zeta in Hguarantee. destruct Hguarantee as [Hrequests Hlength].
  split; [exact Hwindow|]. split; [exact Hrequests|].
  rewrite Hrequests. exact Hlength.
Defined.

Section RateLimiterEdges.
Import Patterns.RateLimiter.
Variable this : t.

Lemma acquire_each_without_capacity (instants : list Z) :
  maxRequests this <= 0 →
  acquire_each this instants []
  = (List.map (fun _ => Rejected (rateLimitError None)) instants, []).
Proof.
  intros Hnone. induction instants as [|now later IH]; [reflexivity|].
  cbn [acquire_each]. unfold acquire. cbn [List.filter length].
  destruct (Z.leb_spec (maxRequests this) (Z.of_nat 0)) as [_ | Hroom];
    [|lia].
  rewrite IH. reflexivity.
Qed.

Lemma acquire_each_without_window (instants : list Z) :
  windowMs this <= 0 →
  0 < maxRequests this →
  ∀ (prev : Z) (requests : list Z),
    Forall (Z.le prev) instants →
    StronglySorted Z.le instants →
    Forall (fun time => time <= prev) requests →
    fst (acquire_each this instants requests)
    = List.map (fun _ => Resolved tt) instants.
Proof.
  intros Hwindow Hsome.
  induction instants as [|now later IH];
    intros prev requests Hprev Hsorted Hpast; [reflexivity|].
  cbn [acquire_each].
  apply List.Forall_cons_iff in Hprev. destruct Hprev as [Hle Hprev].
  apply StronglySorted_inv in Hsorted. destruct Hsorted as [Hsorted Hnow].
  assert (Hdropped : List.filter (in_window this now) requests = []).
  { clear - Hpast Hle Hwindow.
    induction Hpast as [|time requests Htime Hpast IH]; [reflexivity|].
    cbn [List.filter]. unfold in_window at 1.
    destruct (Z.ltb_spec (now - time) (windowMs this)); [lia | exact IH]. }
  unfold acquire. rewrite Hdropped. cbn [length app].
  destruct (Z.leb_spec (maxRequests this) (Z.of_nat 0)) as [Hfull | _];
    [lia|].
  specialize (IH now [now] Hnow Hsorted ltac:(repeat constructor; lia)).
  destruct (acquire_each this later [now]) as [outcomes requests2].
  cbn in *. rewrite IH. reflexivity.
Qed.

(** X15.  Rate limiter built with limits that make no sense.  With
    [maxRequests] of 0 or less every call is rejected, nothing is ever
    recorded, and the message reads [Wait NaNms], the oldest request being
    [undefined].  With [windowMs] of 0 or less (and calls at instants that
    never decrease) every recorded request has left the window by the next
    call, so no call is ever rejected. *)
Theorem rate_limiter_degenerate_limits (instants : list Z) :
  (maxRequests this <= 0 →
   acquire_each this instants []
   = (List.map
        (fun _ => Rejected
           (Error "Rate limit exceeded. Wait NaNms before retrying."))
        instants, []))
  ∧ (windowMs this <= 0 → 0 < maxRequests this →
     StronglySorted Z.le instants →
     fst (acquire_each this instants [])
     = List.map (fun _ => Resolved tt) instants).
Proof.
  split.
  - exact (acquire_each_without_capacity instants).
  - intros Hwindow Hsome Hsorted.
    destruct instants as [|first later]; [reflexivity|].
    apply (acquire_each_without_window (first :: later) Hwindow Hsome first);
      [|exact Hsorted|constructor].
    apply StronglySorted_inv in Hsorted. destruct Hsorted as [_ Hall].
    constructor; [lia | exact Hall].
Qed.

Lemma filter_idempotent {A} (f : A -> bool) (l : list A) :
  List.filter f (List.filter f l) = List.filter f l.
Proof.
  induction l as [|x l IH]; [reflexivity|]. cbn [List.filter].
  destruct (f x) eqn:Hx; [|exact IH]. cbn [List.filter]. rewrite Hx, IH.
  reflexivity.
Qed.

(** X16.  [getStats] and [acquire] agree: a call of [acquire] is granted exactly
    when [getStats], read at the same instant just before, reports fewer
    than [maxRequests] current requests.  Read just after, the count is one
    more when the call was granted (the window having positive length) and
    the same when it was rejected; it is never negative. *)
Theorem getStats_predicts_acquire (now : Z) (requests : list Z) :
  let before := getStats this now requests in
  let after := getStats this now (snd (acquire this now requests)) in
  (stats_currentRequests before < stats_maxRequests before
   ↔ fst (acquire this now requests) = Resolved tt)
  ∧ (0 < windowMs this →
     fst (acquire this now requests) = Resolved tt →
     stats_currentRequests after = stats_currentRequests before + 1)
  ∧ (is_rejected (fst (acquire this now requests)) = true →
     stats_currentRequests after = stats_currentRequests before)
  ∧ 0 <= stats_currentRequests before <= Z.of_nat (length requests).
Proof.
  cbv zeta. unfold getStats, currentRequests, acquire.
  cbn [stats_currentRequests stats_maxRequests].
  pose proof (filter_length_le (in_window this now) requests) as Hshrink.
  destruct (Z.leb_spec (maxRequests this)
              (Z.of_nat (length (List.filter (in_window this now) requests))))
    as [Hfull | Hroom]; cbn [fst snd is_rejected].
  - split; [split; [lia | discriminate]|]. split; [discriminate|].
    split; [intros _; rewrite filter_idempotent; reflexivity | lia].
  - split; [split; [reflexivity | intros _; exact Hroom]|]. split.
    + intros Hwindow _. rewrite List.filter_app, filter_idempotent.
      cbn [List.filter].
      assert (Hself : in_window this now now = true)
        by (apply in_window_spec; lia).
      rewrite Hself, length_app. cbn [length]. lia.
    + split; [discriminate | lia].
Qed.

End RateLimiterEdges.

(** ** Health reports of the resilience manager *)

Section HealthReports.
Import Contracts Observability.ResilienceManager.

Lemma observability_reachable_counts {T} (config : CircuitBreakerConfig)
    (cb : Observability.CircuitBreaker.t) :
  Observability.CircuitBreaker.reachable (T := T) config cb →
  0 <= failureCount cb ∧ 0 <= successCount cb.
Proof.
  induction 1 as [|operation cb w Hreach [Hf Hs]]; [cbn; lia|].
  unfold Observability.CircuitBreaker.execute,
    Observability.CircuitBreaker.gate, fields_after,
    Observability.CircuitBreaker.onSuccess,
    Observability.CircuitBreaker.onFailure.
  destruct (state cb) eqn:Hstate.
  - destruct (operation w) as [[v | e] w']; cbn; rewrite ?Hstate; cbn;
      [lia|].
    destruct (failureThreshold config <=? failureCount cb + 1); cbn; lia.
  - destruct (or_default (nextRetryTime cb) 0 <=? clock w); cbn; [|lia].
    destruct (operation w) as [[v | e] w']; cbn; [lia|].
    destruct (failureThreshold config <=? failureCount cb + 1); cbn; lia.
  - destruct (operation w) as [[v | e] w']; cbn; rewrite ?Hstate; cbn;
      [lia|].
    destruct (failureThreshold config <=? failureCount cb + 1); cbn; lia.
Qed.

Lemma calculateErrorRate_range (m : CircuitBreakerMetrics) :
  0 <= failureCount m → 0 <= successCount m →
  (0 <= calculateErrorRate (Some m) <= 100)%Q
  ∧ ((calculateErrorRate (Some m) == 0)%Q ↔ failureCount m = 0).
Proof.
  intros Hf Hs. unfold calculateErrorRate.
  destruct (Z.eqb_spec (failureCount m + successCount m) 0) as [Hzero | Hsome].
  - split; [split; discriminate|]. split; [lia | reflexivity].
  - set (f := failureCount m) in *. set (n := f + successCount m) in *.
    assert (Hn : (0 < inject_Z n)%Q).
    { change 0%Q with (inject_Z 0). rewrite <- Zlt_Qlt. lia. }
    destruct (Z.eq_dec f 0) as [Hnone | Hfailed].
    + assert (Hquotient : (inject_Z f / inject_Z n == 0)%Q)
        by (rewrite Hnone; field; lra).
      rewrite (binary64_zero _ Hquotient).
      rewrite (binary64_zero (0 * 100)) by reflexivity.
      split; [split; discriminate|]. split; [intros _; exact Hnone|reflexivity].
    + assert (Hq : (0 < inject_Z f / inject_Z n)%Q).
      { apply Qlt_shift_div_l; [exact Hn|].
        setoid_replace (0 * inject_Z n)%Q with (inject_Z 0)
          using relation Qeq by ring.
        rewrite <- Zlt_Qlt. lia. }
      assert (Hq1 : (inject_Z f / inject_Z n <= inject_Z 1)%Q).
      { apply Qle_shift_div_r; [exact Hn|].
        setoid_replace (inject_Z 1 * inject_Z n)%Q with (inject_Z n)
          using relation Qeq by ring.
        rewrite <- Zle_Qle. lia. }
      pose proof (binary64_pos _ Hq) as Hr.
      pose proof (binary64_le_integer _ 1 Hq Hq1 ltac:(reflexivity)) as Hr1.
      set (r := binary64 (inject_Z f / inject_Z n)) in *.
      change (inject_Z 1) with 1%Q in Hr1.
      assert (Hx : (0 < r * 100)%Q) by lra.
      assert (Hx1 : (r * 100 <= inject_Z 100)%Q)
        by (change (inject_Z 100) with 100%Q; lra).
      pose proof (binary64_pos _ Hx) as Hrate.
      pose proof (binary64_le_integer _ 100 Hx Hx1 ltac:(reflexivity))
        as Hrate1.
      change (inject_Z 100) with 100%Q in Hrate1.
      split; [split; lra|]. split; [intros Heq; lra | intros Heq; lia].
Qed.

(** X17.  A health report on a service whose breaker (if it has one) was reached
    through calls of [execute], with a threshold of at least one failure:
    the error rate lies between 0 and 100, and the service is reported
    healthy exactly when its error rate is 0.  A service without a breaker
    is always reported healthy with an error rate of 0. *)
Theorem health_report_is_consistent {T} (this : t) (now : Z)
    (service : string) :
  (∀ breaker, circuitBreakers this !! service = Some breaker →
     1 <= failureThreshold (cb_config breaker)
     ∧ Observability.CircuitBreaker.reachable (T := T)
         (cb_config breaker) (cb_fields breaker)) →
  let report := getServiceHealth this now service in
  (0 <= errorRate report <= 100)%Q
  ∧ (status report = healthy ↔ (errorRate report == 0)%Q)
  ∧ (circuitBreakers this !! service = None →
     status report = healthy ∧ errorRate report = 0%Q).
Proof.
  intros Hbreaker. cbv zeta. unfold getServiceHealth.
  cbn [status errorRate].
  destruct (circuitBreakers this !! service) as [breaker|] eqn:Hfound.
  - destruct (Hbreaker breaker eq_refl) as [Hthreshold Hreach].
    destruct (observability_reachable_counts _ _ Hreach) as [Hf Hs].
    unfold Observability.CircuitBreaker.getMetrics.
    destruct (calculateErrorRate_range (cb_fields breaker) Hf Hs)
      as [Hrange Hzero].
    split; [exact Hrange|]. split; [|discriminate].
    rewrite Hzero. unfold determineStatus.
    destruct (state (cb_fields breaker)) eqn:Hstate.
    + destruct (Z.ltb_spec 0 (failureCount (cb_fields breaker)));
        split; try discriminate; try lia; reflexivity.
    + destruct (observability_reachable_invariant (T := T)
                  (cb_config breaker) (cb_fields breaker) Hreach)
        as [Hcount _]; [rewrite Hstate; discriminate|].
      split; [discriminate | lia].
    + destruct (observability_reachable_invariant (T := T)
                  (cb_config breaker) (cb_fields breaker) Hreach)
        as [Hcount _]; [rewrite Hstate; discriminate|].
      split; [discriminate | lia].
  - cbn. split; [split; discriminate|]. split; [|auto].
    split; reflexivity.
Qed.

End HealthReports.

Lemma health_report_is_consistent_witness :
  let fields := fields_after Scenario.observability_opened in
  let report :=
    Observability.ResilienceManager.getServiceHealth
      (Scenario.manager_with_breaker fields) 5000 "payments" in
  (0 <= Contracts.errorRate report <= 100)%Q
  ∧ Contracts.status report ≠ Contracts.healthy
  ∧ ¬ (Contracts.errorRate report == 0)%Q.
Proof.
  intros fields report.
  assert (Hfound :
    Observability.ResilienceManager.circuitBreakers
      (Scenario.manager_with_breaker fields) !! "payments"
    = Some {| Observability.ResilienceManager.cb_config :=
                Scenario.breaker_config;
              Observability.ResilienceManager.cb_fields := fields |})
    by reflexivity.
  assert (Hthreshold : 1 <= Contracts.failureThreshold Scenario.breaker_config)
    by (vm_compute; discriminate).
  assert (Hreach : Observability.CircuitBreaker.reachable (T := nat)
                     Scenario.breaker_config fields).
  { exact (Observability.CircuitBreaker.reachable_execute
             Scenario.breaker_config Scenario.always_failing _ _
             (Observability.CircuitBreaker.reachable_execute
                Scenario.breaker_config Scenario.always_failing _
                Scenario.start
                (Observability.CircuitBreaker.reachable_init
                   Scenario.breaker_config))). }
  assert (Hunhealthy : Contracts.status report = Contracts.unhealthy)
    by (vm_compute; reflexivity).
  destruct (health_report_is_consistent (T := nat)
              (Scenario.manager_with_breaker fields) 5000 "payments")
    as (Hrange & Hhealthy & _).
  { intros breaker Hbreaker. rewrite Hfound in Hbreaker.
    injection Hbreaker as <-. split; [exact Hthreshold | exact Hreach]. }
  split; [exact Hrange|]. split.
  - fold report in Hhealthy. rewrite Hunhealthy. discriminate.
  - intros Hzero. apply Hhealthy in Hzero. fold report in Hzero.
    rewrite Hunhealthy in Hzero. discriminate Hzero.
Defined.

Section FreshManager.
Import Contracts Observability.ResilienceManager.

Lemma fmap_fst_map {A B} (l : list (A * B)) : l.*1 = List.map fst l.
Proof. induction l as [|x l IH]; [reflexivity|]. cbn. rewrite IH. reflexivity. Qed.

(** X18.  [getAllServiceHealth] on a manager that has just been constructed: one
    report per configured service, in the order of the configuration, every
    service healthy with an error rate of 0, and the metrics of a fresh
    breaker for exactly the services configured with one. *)
Theorem fresh_manager_reports_all_healthy
    (configs : list (string * ResilienceConfig)) (now : Z) :
  List.NoDup (List.map fst configs) →
  getAllServiceHealth configs (constructor (list_to_map configs)) now
  = List.map
      (fun entry =>
         {| service := fst entry;
            status := healthy;
            lastCheck := now;
            responseTime := 0;
            errorRate := 0;
            circuitBreakerMetrics :=
              match circuitBreaker (snd entry) with
              | Some _ => Some Observability.CircuitBreaker.init
              | None => None
              end |})
      configs.
Proof.
  intros Hnodup. unfold getAllServiceHealth. rewrite List.map_map.
  apply List.map_ext_in. intros [service config] Hin. cbn [fst snd].
  assert (Hfound : (list_to_map configs : gmap string ResilienceConfig)
                   !! service = Some config).
  { apply elem_of_list_to_map_1.
    - rewrite fmap_fst_map. apply NoDup_ListNoDup. exact Hnodup.
    - apply list_elem_of_In. exact Hin. }
  destruct (initializeComponents_lookup (list_to_map configs) service)
    as (Hbreaker & _).
  unfold configured in Hbreaker. rewrite Hfound in Hbreaker.
  cbn [from_option id] in Hbreaker.
  unfold getServiceHealth, constructor. rewrite Hbreaker.
  destruct (circuitBreaker config) as [breaker|]; reflexivity.
Qed.

End FreshManager.

Lemma fresh_manager_reports_all_healthy_witness :
  let payments :=
    {| Contracts.circuitBreaker := Some Scenario.breaker_config;
       Contracts.retry := Some Scenario.retry_config;
       Contracts.timeout := None; Contracts.bulkhead := None |} in
  let search :=
    {| Contracts.circuitBreaker := None;
       Contracts.retry := Some Scenario.retry_config;
       Contracts.timeout := None; Contracts.bulkhead := None |} in
  let configs := [("payments"%string, payments); ("search"%string, search)] in
  List.map Contracts.status
    (Observability.ResilienceManager.getAllServiceHealth configs
       (Observability.ResilienceManager.constructor (list_to_map configs))
       5000)
  = [Contracts.healthy; Contracts.healthy].
Proof.
  intros payments search configs.
  assert (Hnodup : List.NoDup (List.map fst configs)).
  { repeat constructor; cbn; intuition discriminate. }
  rewrite (fresh_manager_reports_all_healthy configs 5000 Hnodup).
  reflexivity.
Defined.

(** ** The registry of the pattern library *)

Section PatternRegistry.
Import Patterns.CacheAside Patterns.ResilienceManager.

Lemma Map_set_fresh {V} (key : string) (v : V) (m : JsMap V) :
  ¬ In key (keys m) → Map_set key v m = m ++ [(key, v)].
Proof.
  induction m as [|[k x] m IH]; cbn; [reflexivity|]. intros Hfresh.
  destruct (String.eqb_spec k key) as [-> | Hne]; [tauto|].
  rewrite IH; [reflexivity | tauto].
Qed.

Lemma append_inj (prefix a b : string) :
  (prefix ++ a)%string = (prefix ++ b)%string → a = b.
Proof.
  induction prefix as [|c prefix IH]; cbn; [auto|]. intros [= H]. auto.
Qed.

Lemma collect_fresh {O} (prefix : string) (read : O -> Stats)
    (registry : JsMap O) :
  List.NoDup (keys registry) →
  ∀ stats : JsMap Stats,
    (∀ name, In name (keys registry) →
             ¬ In (prefix ++ name)%string (keys stats)) →
    collect prefix read registry stats
    = stats
      ++ List.map (fun entry => ((prefix ++ fst entry)%string,
                                 read (snd entry))) registry.
Proof.
  unfold collect.
  induction registry as [|[name object] registry IH];
    intros Hnodup stats Hfresh.
  - cbn. rewrite app_nil_r. reflexivity.
  - cbn [keys List.map fst] in Hnodup.
    apply List.NoDup_cons_iff in Hnodup. destruct Hnodup as [Hnot Hnodup].
    cbn [fold_left List.map fst snd].
    rewrite Map_set_fresh by (apply Hfresh; left; reflexivity).
    rewrite IH.
    + rewrite <- app_assoc. reflexivity.
    + exact Hnodup.
    + intros other Hother Hin. unfold keys in Hin.
      rewrite List.map_app in Hin. apply in_app_or in Hin.
      destruct Hin as [Hin | [Heq | []]].
      * exact (Hfresh other (or_intror Hother) Hin).
      * cbn in Heq. apply append_inj in Heq. subst other.
        exact (Hnot Hother).
Qed.

Lemma keys_map_inv {O V} (f : string * O -> string * V)
    (registry : JsMap O) (key : string) :
  In key (keys (List.map f registry)) →
  ∃ entry, key = fst (f entry).
Proof.
  unfold keys. rewrite List.map_map. intros Hin.
  apply List.in_map_iff in Hin. destruct Hin as (entry & <- & _). eauto.
Qed.

(** X19.  [getAllStats] of the pattern library: one entry per registered object,
    under its name prefixed by its kind, in the order circuit breakers,
    bulkheads, rate limiters, caches; no entry overwrites another, whatever
    the names are. *)
Theorem getAllStats_has_one_entry_per_object {T} (now : Z) (this : t T) :
  List.NoDup (keys (circuitBreakers this)) →
  List.NoDup (keys (bulkheads this)) →
  List.NoDup (keys (rateLimiters this)) →
  List.NoDup (keys (caches this)) →
  getAllStats now this
  = List.map
      (fun entry =>
         (("circuit_breaker_" ++ fst entry)%string,
          CircuitBreakerStats
            (Patterns.CircuitBreaker.getStats (cb_fields (snd entry)))))
      (circuitBreakers this)
    ++ List.map
         (fun entry =>
            (("bulkhead_" ++ fst entry)%string,
             BulkheadStats (Patterns.Bulkhead.getStats (snd entry))))
         (bulkheads this)
    ++ List.map
         (fun entry =>
            (("rate_limiter_" ++ fst entry)%string,
             RateLimiterStats
               (Patterns.RateLimiter.getStats (rl_this (snd entry)) now
                  (rl_requests (snd entry)))))
         (rateLimiters this)
    ++ List.map
         (fun entry =>
            (("cache_" ++ fst entry)%string,
             CacheStats (getStats (ca_this (snd entry))
                           (ca_cache (snd entry)))))
         (caches this).
Proof.
  intros Hbreakers Hbulkheads Hlimiters Hcaches. unfold getAllStats.
  cbv zeta.
  rewrite (collect_fresh "circuit_breaker_" _ _ Hbreakers) by (intros ? ? []).
  cbn [app].
  rewrite (collect_fresh "bulkhead_" _ _ Hbulkheads).
  2:{ intros name _ Hin. apply keys_map_inv in Hin.
      destruct Hin as [other Heq]. cbn in Heq. discriminate Heq. }
  rewrite (collect_fresh "rate_limiter_" _ _ Hlimiters).
  2:{ intros name _ Hin. unfold keys in Hin. rewrite List.map_app in Hin.
      apply in_app_or in Hin.
      destruct Hin as [Hin | Hin]; apply keys_map_inv in Hin;
        destruct Hin as [other Heq]; cbn in Heq; discriminate Heq. }
  rewrite (collect_fresh "cache_" _ _ Hcaches).
  2:{ intros name _ Hin. unfold keys in Hin. rewrite !List.map_app in Hin.
      apply in_app_or in Hin. destruct Hin as [Hin | Hin];
        [apply in_app_or in Hin; destruct Hin as [Hin | Hin]|];
        apply keys_map_inv in Hin; destruct Hin as [other Heq];
        cbn in Heq; discriminate Heq. }
  rewrite <- !app_assoc. reflexivity.
Qed.

End PatternRegistry.

Section PatternRegistryCreate.
Import Patterns.CacheAside Patterns.ResilienceManager.

Lemma Map_get_set_other {V} (key other : string) (v : V) (m : JsMap V) :
  other ≠ key → Map_get other (Map_set key v m) = Map_get other m.
Proof.
  intros Hne. unfold Map_get. induction m as [|[k x] m IH]; cbn.
  - destruct (String.eqb_spec key other); [congruence | reflexivity].
  - destruct (String.eqb_spec k key) as [-> | Hk]; cbn.
    + destruct (String.eqb_spec key other); [congruence | reflexivity].
    + destruct (String.eqb_spec k other); [reflexivity | exact IH].
Qed.

Lemma Map_set_registers {V} (name : string) (object : V) (m : JsMap V) :
  Map_get name (Map_set name object m) = Some object
  ∧ (∀ other, other ≠ name →
              Map_get other (Map_set name object m) = Map_get other m)
  ∧ (List.NoDup (keys m) → List.NoDup (keys (Map_set name object m))).
Proof.
  split; [|split].
  - unfold Map_get. induction m as [|[k x] m IH]; cbn.
    + rewrite String.eqb_refl. reflexivity.
    + destruct (String.eqb k name) eqn:Hk; cbn; rewrite Hk;
        [reflexivity | exact IH].
  - intros other Hne. apply Map_get_set_other. exact Hne.
  - apply NoDup_Map_set.
Qed.

(** X20.  The registry of the pattern library: each [create...] returns a new
    object in its initial state and registers it under the name, in place
    of the object registered under that name before, if any; the matching
    [get...] then returns it, lookups of other names are unchanged, and no
    name is registered twice. *)
Theorem create_registers_a_fresh_object {T} (name : string) (this : t T) :
  (∀ options,
     let '(breaker, this') := createCircuitBreaker name options this in
     cb_fields breaker = Patterns.CircuitBreaker.init
     ∧ getCircuitBreaker name this' = Some breaker
     ∧ (∀ other, other ≠ name →
                 getCircuitBreaker other this' = getCircuitBreaker other this)
     ∧ (List.NoDup (keys (circuitBreakers this)) →
        List.NoDup (keys (circuitBreakers this'))))
  ∧ (∀ maxConcurrent,
       let '(bulkhead, this') := createBulkhead name maxConcurrent this in
       Patterns.Bulkhead.running bulkhead = 0
       ∧ Patterns.Bulkhead.queue bulkhead = []
       ∧ getBulkhead name this' = Some bulkhead
       ∧ (∀ other, other ≠ name →
                   getBulkhead other this' = getBulkhead other this)
       ∧ (List.NoDup (keys (bulkheads this)) →
          List.NoDup (keys (bulkheads this'))))
  ∧ (∀ maxRequests windowMs,
       let '(rateLimiter, this') :=
         createRateLimiter name maxRequests windowMs this in
       rl_requests rateLimiter = []
       ∧ getRateLimiter name this' = Some rateLimiter
       ∧ (∀ other, other ≠ name →
                   getRateLimiter other this' = getRateLimiter other this)
       ∧ (List.NoDup (keys (rateLimiters this)) →
          List.NoDup (keys (rateLimiters this'))))
  ∧ (∀ ttlMs maxSize,
       let '(cache, this') := createCache name ttlMs maxSize this in
       ca_cache cache = []
       ∧ getCache name this' = Some cache
       ∧ (∀ other, other ≠ name →
                   getCache other this' = getCache other this)
       ∧ (List.NoDup (keys (caches this)) →
          List.NoDup (keys (caches this')))).
Proof.
  split; [|split; [|split]]; intros;
    cbn [createCircuitBreaker createBulkhead createRateLimiter createCache];
    unfold getCircuitBreaker, getBulkhead, getRateLimiter, getCache;
    cbn [circuitBreakers bulkheads rateLimiters caches cb_fields
         rl_requests ca_cache];
    repeat (split; [reflexivity|]);
    apply Map_set_registers.
Qed.

End PatternRegistryCreate.

Lemma getAllStats_has_one_entry_per_object_witness :
  let this0 := Patterns.ResilienceManager.empty (T := nat) in
  let this1 :=
    snd (Patterns.ResilienceManager.createCircuitBreaker "orders"
           {| Patterns.CircuitBreaker.opt_failureThreshold := None;
              Patterns.CircuitBreaker.opt_resetTimeout := None;
              Patterns.CircuitBreaker.opt_monitoringPeriod := None;
              Patterns.CircuitBreaker.opt_expectedRecoveryTime := None |}
           this0) in
  let this2 :=
    snd (Patterns.ResilienceManager.createCache "orders" None None this1) in
  Patterns.CacheAside.keys
    (Patterns.ResilienceManager.getAllStats 5000 this2)
  = ["circuit_breaker_orders"%string; "cache_orders"%string].
Proof.
  intros this0 this1 this2.
  assert (Hbreakers : List.NoDup (Patterns.CacheAside.keys
            (Patterns.ResilienceManager.circuitBreakers this2))).
  { repeat constructor. intros []. }
  assert (Hbulkheads : List.NoDup (Patterns.CacheAside.keys
            (Patterns.ResilienceManager.bulkheads this2))) by constructor.
  assert (Hlimiters : List.NoDup (Patterns.CacheAside.keys
            (Patterns.ResilienceManager.rateLimiters this2))) by constructor.
  assert (Hcaches : List.NoDup (Patterns.CacheAside.keys
            (Patterns.ResilienceManager.caches this2))).
  { repeat constructor. intros []. }
  rewrite (getAllStats_has_one_entry_per_object 5000 this2
             Hbreakers Hbulkheads Hlimiters Hcaches).
  reflexivity.
Defined.

(** X21.  Options of the pattern library's breaker are read with [||]: an option
    left out or given as 0 takes its default (5 failures, 60000, 10000 and
    30000 ms); any other number, negative ones included, is kept.  So no
    field of a constructed breaker is ever 0. *)
Theorem breaker_options_zero_means_default (name : string)
    (options : Patterns.CircuitBreaker.CircuitBreakerOptions) :
  let this := Patterns.CircuitBreaker.constructor name options in
  Patterns.CircuitBreaker.failureThreshold this ≠ 0
  ∧ Patterns.CircuitBreaker.resetTimeout this ≠ 0
  ∧ Patterns.CircuitBreaker.monitoringPeriod this ≠ 0
  ∧ Patterns.CircuitBreaker.expectedRecoveryTime this ≠ 0
  ∧ (Patterns.CircuitBreaker.opt_failureThreshold options = None
     ∨ Patterns.CircuitBreaker.opt_failureThreshold options = Some 0 →
     Patterns.CircuitBreaker.failureThreshold this = 5)
  ∧ (Patterns.CircuitBreaker.opt_resetTimeout options = None
     ∨ Patterns.CircuitBreaker.opt_resetTimeout options = Some 0 →
     Patterns.CircuitBreaker.resetTimeout this = 60000)
  ∧ (∀ v, v ≠ 0 →
          Patterns.CircuitBreaker.opt_failureThreshold options = Some v →
          Patterns.CircuitBreaker.failureThreshold this = v)
  ∧ (∀ v, v ≠ 0 →
          Patterns.CircuitBreaker.opt_resetTimeout options = Some v →
          Patterns.CircuitBreaker.resetTimeout this = v).
Proof.
  cbv zeta. unfold Patterns.CircuitBreaker.constructor, or_default.
  cbn [Patterns.CircuitBreaker.failureThreshold
       Patterns.CircuitBreaker.resetTimeout
       Patterns.CircuitBreaker.monitoringPeriod
       Patterns.CircuitBreaker.expectedRecoveryTime].
  destruct options as [[threshold|] [timeout|] [period|] [recovery|]];
    cbn [Patterns.CircuitBreaker.opt_failureThreshold
         Patterns.CircuitBreaker.opt_resetTimeout
         Patterns.CircuitBreaker.opt_monitoringPeriod
         Patterns.CircuitBreaker.opt_expectedRecoveryTime];
    repeat match goal with
           | |- context [?v =? 0] => destruct (Z.eqb_spec v 0)
           end;
    repeat split; intros; subst;
    repeat match goal with
           | H : _ ∨ _ |- _ => destruct H
           | H : Some _ = Some _ |- _ => injection H as H
           end;
    try discriminate; try congruence; try lia.
Qed.
